(** * RoboEyes: the eye animation engine of [roboeyes_pygame.py]

    A shallow embedding of the engine (class [RoboEyes] with its timed
    [Sequences]) and the properties of its specification.

    Conventions of the embedding.
    - Python integers are unbounded: they are [Z]; [//] is floor division,
      which is [Z.div], and [%] is [Z.modulo].
    - [pygame.time.get_ticks()] and [random.randint] are the only inputs of
      the engine besides its arguments.  Every clock reading is an explicit
      argument of the operation that performs it, and every random draw is
      an explicit raw value that [randint] maps into the requested range.
    - An attribute assignment [self.f = v] is the setter [with_f v]; a method
      is a function from the object before the call to the object after it.
      A method that can raise returns a [result] together with the object
      as the call leaves it (Python keeps the mutations done before a
      [raise]).
    - Drawing on the surface is outside the model; of [draw_eye] only the
      integer height computation is kept. *)

From Stdlib Require Import ZArith QArith List Bool Lia Lqa String.
Import ListNotations.
Local Open Scope Z_scope.

(** ** Module constants *)

Definition DEFAULT : Z := 0.
Definition TIRED : Z := 1.
Definition ANGRY : Z := 2.
Definition HAPPY : Z := 3.
Definition FROZEN : Z := 4.
Definition SCARY : Z := 5.
Definition CURIOUS : Z := 6.
Definition SAD : Z := 7.

Definition ON : Z := 1.
Definition OFF : Z := 0.

Module Direction.
Definition N : Z := 1.
Definition NE : Z := 2.
Definition E : Z := 3.
Definition SE : Z := 4.
Definition S : Z := 5.
Definition SW : Z := 6.
Definition W : Z := 7.
Definition NW : Z := 8.
End Direction.

(** ** Timed sequences: [StepData], [Sequence], [Sequences]

  The receiver of the callbacks (the [owner]) is a parameter: a callback
  is a function on the owner's attributes.  A step reads the start time of
  the sequence that owns it ([self.owner_seq._start]); here the sequence
  hands it to the step. *)

Module StepData.
Section WithOwner.
Variable Owner : Type.

Record t : Type := Build
  { done : bool;
    ms_timing : Z;
    callback : Owner -> Owner }.

(** [StepData.__init__] *)
Definition init (ms : Z) (cb : Owner -> Owner) : t :=
  {| done := false; ms_timing := ms; callback := cb |}.

Definition set_done (b : bool) (s : t) : t :=
  {| done := b; ms_timing := ms_timing s; callback := callback s |}.

(** [StepData.update]; [start] is [self.owner_seq._start]. *)
Definition update (start ticks : Z) (s : t) (o : Owner) : t * Owner :=
  if done s then (s, o)
  else if ticks - start <? ms_timing s then (s, o)
  else (set_done true s, callback s o).
End WithOwner.
Arguments done {Owner} _.
Arguments ms_timing {Owner} _.
Arguments callback {Owner} _ _.
Arguments init {Owner} _ _.
Arguments set_done {Owner} _ _.
Arguments update {Owner} _ _ _ _.
End StepData.

Module Sequence.
Section WithOwner.
Variable Owner : Type.

Record t : Type := Build
  { name : string;
    _start : option Z;
    steps : list (StepData.t Owner) }.

(** [Sequence.__init__] *)
Definition init (nm : string) : t :=
  {| name := nm; _start := None; steps := [] |}.

(** [Sequence.step] *)
Definition step (ms : Z) (cb : Owner -> Owner) (q : t) : t :=
  {| name := name q; _start := _start q;
     steps := steps q ++ [StepData.init ms cb] |}.

(** [Sequence.start]; [now] is the clock reading. *)
Definition start (now : Z) (q : t) : t :=
  {| name := name q; _start := Some now; steps := steps q |}.

(** [Sequence.reset] *)
Definition reset (q : t) : t :=
  {| name := name q; _start := None;
     steps := map (StepData.set_done false) (steps q) |}.

(** The property [Sequence.done] *)
Definition done (q : t) : bool :=
  match _start q with
  | None => true
  | Some _ => forallb StepData.done (steps q)
  end.

(** The loop [for s in self: if not s.done: s.update(ticks)] *)
Fixpoint update_steps (start ticks : Z) (l : list (StepData.t Owner))
    (o : Owner) : list (StepData.t Owner) * Owner :=
  match l with
  | [] => ([], o)
  | s :: l' =>
      let '(s1, o1) :=
        if negb (StepData.done s) then StepData.update start ticks s o
        else (s, o) in
      let '(l1, o2) := update_steps start ticks l' o1 in
      (s1 :: l1, o2)
  end.

(** [Sequence.update] *)
Definition update (ticks : Z) (q : t) (o : Owner) : t * Owner :=
  match _start q with
  | None => (q, o)
  | Some st =>
      let '(l, o') := update_steps st ticks (steps q) o in
      ({| name := name q; _start := _start q; steps := l |}, o')
  end.

(** Successive calls of [update], one per clock reading. *)
Fixpoint run (ts : list Z) (q : t) (o : Owner) : t * Owner :=
  match ts with
  | [] => (q, o)
  | ticks :: ts' => let '(q1, o1) := update ticks q o in run ts' q1 o1
  end.
End WithOwner.
Arguments name {Owner} _.
Arguments _start {Owner} _.
Arguments steps {Owner} _.
Arguments init {Owner} _.
Arguments step {Owner} _ _ _.
Arguments start {Owner} _ _.
Arguments reset {Owner} _.
Arguments done {Owner} _.
Arguments update_steps {Owner} _ _ _ _.
Arguments update {Owner} _ _ _.
Arguments run {Owner} _ _ _.
End Sequence.

Module Sequences.
Section WithOwner.
Variable Owner : Type.

(** [Sequences.add]: the new sequence is appended and returned.  The caller
  goes on mutating the returned object, which is the one in the list: the
  model returns its position in the list as the handle. *)
Definition add (nm : string) (l : list (Sequence.t Owner))
    : list (Sequence.t Owner) * nat :=
  (l ++ [Sequence.init nm], List.length l).

(** A method call [seq.m(...)] on the sequence behind handle [h]. *)
Fixpoint on (h : nat) (m : Sequence.t Owner -> Sequence.t Owner)
    (l : list (Sequence.t Owner)) : list (Sequence.t Owner) :=
  match l, h with
  | [], _ => []
  | q :: l', O => m q :: l'
  | q :: l', Datatypes.S h' => q :: on h' m l'
  end.

(** The property [Sequences.done] *)
Definition done (l : list (Sequence.t Owner)) : bool :=
  forallb Sequence.done l.

(** [Sequences.update]; [ticks] is its clock reading. *)
Fixpoint update (ticks : Z) (l : list (Sequence.t Owner)) (o : Owner)
    : list (Sequence.t Owner) * Owner :=
  match l with
  | [] => ([], o)
  | q :: l' =>
      let '(q1, o1) := Sequence.update ticks q o in
      let '(l1, o2) := update ticks l' o1 in
      (q1 :: l1, o2)
  end.
End WithOwner.
Arguments add {Owner} _ _.
Arguments on {Owner} _ _ _.
Arguments done {Owner} _.
Arguments update {Owner} _ _ _.
End Sequences.

(** ** The attributes of a [RoboEyes] object

  One field per attribute assigned in [RoboEyes.__init__], under its own
  name.  The drawing surface belongs to the renderer and is left out; the
  [sequences] container is the second component of [RoboEyes] below. *)

Definition color : Type := Z * Z * Z.

Record Attrs : Type := BuildAttrs
  { screen_width : Z;
    screen_height : Z;
    bgcolor : color;
    fgcolor : color;
    frame_interval : Z;
    fps_timer : Z;
    space_between_default : Z;
    space_between_current : Z;
    space_between_next : Z;
    eye_l_width_default : Z;
    eye_l_height_default : Z;
    eye_r_width_default : Z;
    eye_r_height_default : Z;
    eye_l_width_current : Z;
    eye_l_height_current : Z;
    eye_r_width_current : Z;
    eye_r_height_current : Z;
    eye_l_width_next : Z;
    eye_l_height_next : Z;
    eye_r_width_next : Z;
    eye_r_height_next : Z;
    eye_l_radius_default : Z;
    eye_r_radius_default : Z;
    eye_l_radius_current : Z;
    eye_r_radius_current : Z;
    eye_l_radius_next : Z;
    eye_r_radius_next : Z;
    eye_l_y_default : Z;
    eye_l_x : Z;
    eye_l_y : Z;
    eye_r_x : Z;
    eye_r_y : Z;
    eye_l_x_next : Z;
    eye_l_y_next : Z;
    eye_r_x_next : Z;
    eye_r_y_next : Z;
    _mood : Z;
    tired : bool;
    angry : bool;
    happy : bool;
    _curious : bool;
    _cyclops : bool;
    sad : bool;
    cute : bool;
    sclera_color : color;
    pupil_color : color;
    outline_color : color;
    eye_l_open : bool;
    eye_r_open : bool;
    autoblinker : bool;
    blink_interval : Z;
    blink_interval_variation : Z;
    _next_blink : Z;
    idle : bool;
    idle_interval : Z;
    idle_interval_variation : Z;
    _next_idle : Z;
    _confused : bool;
    _laugh : bool;
    confused_animation_timer : Z;
    laugh_animation_timer : Z;
    confused_duration : Z;
    laugh_duration : Z;
    _wink_left : bool;
    _wink_right : bool;
    wink_timer : Z;
    wink_duration : Z }.

(** The object rebuilt from its own attributes: the setters are read off it. *)
Definition rebuilt (a : Attrs) : Attrs :=
  BuildAttrs
    (screen_width a)
    (screen_height a)
    (bgcolor a)
    (fgcolor a)
    (frame_interval a)
    (fps_timer a)
    (space_between_default a)
    (space_between_current a)
    (space_between_next a)
    (eye_l_width_default a)
    (eye_l_height_default a)
    (eye_r_width_default a)
    (eye_r_height_default a)
    (eye_l_width_current a)
    (eye_l_height_current a)
    (eye_r_width_current a)
    (eye_r_height_current a)
    (eye_l_width_next a)
    (eye_l_height_next a)
    (eye_r_width_next a)
    (eye_r_height_next a)
    (eye_l_radius_default a)
    (eye_r_radius_default a)
    (eye_l_radius_current a)
    (eye_r_radius_current a)
    (eye_l_radius_next a)
    (eye_r_radius_next a)
    (eye_l_y_default a)
    (eye_l_x a)
    (eye_l_y a)
    (eye_r_x a)
    (eye_r_y a)
    (eye_l_x_next a)
    (eye_l_y_next a)
    (eye_r_x_next a)
    (eye_r_y_next a)
    (_mood a)
    (tired a)
    (angry a)
    (happy a)
    (_curious a)
    (_cyclops a)
    (sad a)
    (cute a)
    (sclera_color a)
    (pupil_color a)
    (outline_color a)
    (eye_l_open a)
    (eye_r_open a)
    (autoblinker a)
    (blink_interval a)
    (blink_interval_variation a)
    (_next_blink a)
    (idle a)
    (idle_interval a)
    (idle_interval_variation a)
    (_next_idle a)
    (_confused a)
    (_laugh a)
    (confused_animation_timer a)
    (laugh_animation_timer a)
    (confused_duration a)
    (laugh_duration a)
    (_wink_left a)
    (_wink_right a)
    (wink_timer a)
    (wink_duration a).

(** [assignment f] solves [T -> Attrs -> Attrs] by the function that
  replaces attribute [f] and keeps every other one. *)
Ltac assignment f :=
  let v := fresh "v" in
  let a := fresh "a" in
  intros v a;
  let e := eval cbv beta delta [rebuilt] in (rebuilt a) in
  match eval pattern (f a) in e with
  | ?g _ => let body := eval cbv beta in (g v) in exact body
  end.

Definition with_frame_interval : Z -> Attrs -> Attrs.
Proof. assignment frame_interval. Defined.

Definition with_fps_timer : Z -> Attrs -> Attrs.
Proof. assignment fps_timer. Defined.

Definition with_space_between_default : Z -> Attrs -> Attrs.
Proof. assignment space_between_default. Defined.

Definition with_space_between_current : Z -> Attrs -> Attrs.
Proof. assignment space_between_current. Defined.

Definition with_space_between_next : Z -> Attrs -> Attrs.
Proof. assignment space_between_next. Defined.

Definition with_eye_l_width_default : Z -> Attrs -> Attrs.
Proof. assignment eye_l_width_default. Defined.

Definition with_eye_l_height_default : Z -> Attrs -> Attrs.
Proof. assignment eye_l_height_default. Defined.

Definition with_eye_r_width_default : Z -> Attrs -> Attrs.
Proof. assignment eye_r_width_default. Defined.

Definition with_eye_r_height_default : Z -> Attrs -> Attrs.
Proof. assignment eye_r_height_default. Defined.

Definition with_eye_l_width_current : Z -> Attrs -> Attrs.
Proof. assignment eye_l_width_current. Defined.

Definition with_eye_l_height_current : Z -> Attrs -> Attrs.
Proof. assignment eye_l_height_current. Defined.

Definition with_eye_r_width_current : Z -> Attrs -> Attrs.
Proof. assignment eye_r_width_current. Defined.

Definition with_eye_r_height_current : Z -> Attrs -> Attrs.
Proof. assignment eye_r_height_current. Defined.

Definition with_eye_l_width_next : Z -> Attrs -> Attrs.
Proof. assignment eye_l_width_next. Defined.

Definition with_eye_l_height_next : Z -> Attrs -> Attrs.
Proof. assignment eye_l_height_next. Defined.

Definition with_eye_r_width_next : Z -> Attrs -> Attrs.
Proof. assignment eye_r_width_next. Defined.

Definition with_eye_r_height_next : Z -> Attrs -> Attrs.
Proof. assignment eye_r_height_next. Defined.

Definition with_eye_l_radius_default : Z -> Attrs -> Attrs.
Proof. assignment eye_l_radius_default. Defined.

Definition with_eye_r_radius_default : Z -> Attrs -> Attrs.
Proof. assignment eye_r_radius_default. Defined.

Definition with_eye_l_radius_current : Z -> Attrs -> Attrs.
Proof. assignment eye_l_radius_current. Defined.

Definition with_eye_r_radius_current : Z -> Attrs -> Attrs.
Proof. assignment eye_r_radius_current. Defined.

Definition with_eye_l_radius_next : Z -> Attrs -> Attrs.
Proof. assignment eye_l_radius_next. Defined.

Definition with_eye_r_radius_next : Z -> Attrs -> Attrs.
Proof. assignment eye_r_radius_next. Defined.

Definition with_eye_l_x : Z -> Attrs -> Attrs.
Proof. assignment eye_l_x. Defined.

Definition with_eye_l_y : Z -> Attrs -> Attrs.
Proof. assignment eye_l_y. Defined.

Definition with_eye_r_x : Z -> Attrs -> Attrs.
Proof. assignment eye_r_x. Defined.

Definition with_eye_r_y : Z -> Attrs -> Attrs.
Proof. assignment eye_r_y. Defined.

Definition with_eye_l_x_next : Z -> Attrs -> Attrs.
Proof. assignment eye_l_x_next. Defined.

Definition with_eye_l_y_next : Z -> Attrs -> Attrs.
Proof. assignment eye_l_y_next. Defined.

Definition with_eye_r_x_next : Z -> Attrs -> Attrs.
Proof. assignment eye_r_x_next. Defined.

Definition with_eye_r_y_next : Z -> Attrs -> Attrs.
Proof. assignment eye_r_y_next. Defined.

Definition with__mood : Z -> Attrs -> Attrs.
Proof. assignment _mood. Defined.

Definition with_tired : bool -> Attrs -> Attrs.
Proof. assignment tired. Defined.

Definition with_angry : bool -> Attrs -> Attrs.
Proof. assignment angry. Defined.

Definition with_happy : bool -> Attrs -> Attrs.
Proof. assignment happy. Defined.

Definition with__curious : bool -> Attrs -> Attrs.
Proof. assignment _curious. Defined.

Definition with__cyclops : bool -> Attrs -> Attrs.
Proof. assignment _cyclops. Defined.

Definition with_sad : bool -> Attrs -> Attrs.
Proof. assignment sad. Defined.

Definition with_cute : bool -> Attrs -> Attrs.
Proof. assignment cute. Defined.

Definition with_sclera_color : color -> Attrs -> Attrs.
Proof. assignment sclera_color. Defined.

Definition with_pupil_color : color -> Attrs -> Attrs.
Proof. assignment pupil_color. Defined.

Definition with_outline_color : color -> Attrs -> Attrs.
Proof. assignment outline_color. Defined.

Definition with_eye_l_open : bool -> Attrs -> Attrs.
Proof. assignment eye_l_open. Defined.

Definition with_eye_r_open : bool -> Attrs -> Attrs.
Proof. assignment eye_r_open. Defined.

Definition with_autoblinker : bool -> Attrs -> Attrs.
Proof. assignment autoblinker. Defined.

Definition with_blink_interval : Z -> Attrs -> Attrs.
Proof. assignment blink_interval. Defined.

Definition with_blink_interval_variation : Z -> Attrs -> Attrs.
Proof. assignment blink_interval_variation. Defined.

Definition with__next_blink : Z -> Attrs -> Attrs.
Proof. assignment _next_blink. Defined.

Definition with_idle : bool -> Attrs -> Attrs.
Proof. assignment idle. Defined.

Definition with_idle_interval : Z -> Attrs -> Attrs.
Proof. assignment idle_interval. Defined.

Definition with_idle_interval_variation : Z -> Attrs -> Attrs.
Proof. assignment idle_interval_variation. Defined.

Definition with__next_idle : Z -> Attrs -> Attrs.
Proof. assignment _next_idle. Defined.

Definition with__confused : bool -> Attrs -> Attrs.
Proof. assignment _confused. Defined.

Definition with__laugh : bool -> Attrs -> Attrs.
Proof. assignment _laugh. Defined.

Definition with_confused_animation_timer : Z -> Attrs -> Attrs.
Proof. assignment confused_animation_timer. Defined.

Definition with_laugh_animation_timer : Z -> Attrs -> Attrs.
Proof. assignment laugh_animation_timer. Defined.

Definition with__wink_left : bool -> Attrs -> Attrs.
Proof. assignment _wink_left. Defined.

Definition with__wink_right : bool -> Attrs -> Attrs.
Proof. assignment _wink_right. Defined.

Definition with_wink_timer : Z -> Attrs -> Attrs.
Proof. assignment wink_timer. Defined.

(** ** The [RoboEyes] object: attributes and sequences container *)

Record RoboEyes : Type := BuildRoboEyes
  { attrs :> Attrs;
    sequences : list (Sequence.t Attrs) }.

(** [self.f = v] is [assign (with_f v) self]. *)
Definition assign (f : Attrs -> Attrs) (self : RoboEyes) : RoboEyes :=
  {| attrs := f (attrs self); sequences := sequences self |}.

Definition with_sequences (l : list (Sequence.t Attrs)) (self : RoboEyes)
    : RoboEyes :=
  {| attrs := attrs self; sequences := l |}.

(** Statements in source order: [self |> s1 |> s2]. *)
Notation "x |> f" := (f x) (at level 59, left associativity, only parsing).

(** ** Exceptions

  A method that can raise is an [M unit]: it returns how the call ended and
  the object as the call left it. *)

Inductive exn : Type :=
| ValueError (msg : string).

Inductive result (A : Type) : Type :=
| Return (a : A)
| Raise (e : exn).
Arguments Return {A} _.
Arguments Raise {A} _.

Definition M (A : Type) : Type := RoboEyes -> result A * RoboEyes.

Definition ret {A : Type} (a : A) : M A := fun self => (Return a, self).

Definition raise {A : Type} (e : exn) : M A := fun self => (Raise e, self).

Definition bind {A B : Type} (m : M A) (k : A -> M B) : M B :=
  fun self =>
    match m self with
    | (Return a, self') => k a self'
    | (Raise e, self') => (Raise e, self')
    end.

(** A method that cannot raise, called for its effect. *)
Definition call (f : RoboEyes -> RoboEyes) : M unit :=
  fun self => (Return tt, f self).

Notation "x <- m ;; k" := (bind m (fun x => k))
  (at level 61, m at next level, right associativity).
Notation "m ;;; k" := (bind m (fun _ => k))
  (at level 61, right associativity).

(** The object after the call, however the call ended. *)
Definition after {A : Type} (m : M A) (self : RoboEyes) : RoboEyes :=
  snd (m self).

(** [random.randint(a, b)]: raises [ValueError] on an empty range, and
  otherwise returns a value of [a..b]; [raw] is the generator's draw, and
  every value of the range is returned for some draw. *)
Definition randint (raw a b : Z) : M Z :=
  if b <? a then raise (ValueError "empty range for randrange()")
  else ret (a + raw mod (b - a + 1)).

(** Truth value of an argument that is [None], [True] or [False]. *)
Definition truthy (x : option bool) : bool :=
  match x with
  | Some b => b
  | None => false
  end.

(** [bool(active)] for an integer such as [ON] or [OFF]. *)
Definition bool_of_int (x : Z) : bool := negb (x =? 0).

(** ** Public API *)

Definition framerate_interval (fps : Z) : Z :=
  if fps >? 0 then 1000 / fps else 33.

Definition set_framerate (fps : Z) (self : RoboEyes) : RoboEyes :=
  self |> assign (with_frame_interval (framerate_interval fps)).

Definition eyes_width (left_eye right_eye : option Z) (self : RoboEyes)
    : RoboEyes :=
  let self :=
    match left_eye with
    | Some v => self |> assign (with_eye_l_width_next v)
                     |> assign (with_eye_l_width_default v)
    | None => self
    end in
  match right_eye with
  | Some v => self |> assign (with_eye_r_width_next v)
                   |> assign (with_eye_r_width_default v)
  | None => self
  end.

Definition eyes_height (left_eye right_eye : option Z) (self : RoboEyes)
    : RoboEyes :=
  let self :=
    match left_eye with
    | Some v => self |> assign (with_eye_l_height_next v)
                     |> assign (with_eye_l_height_default v)
    | None => self
    end in
  match right_eye with
  | Some v => self |> assign (with_eye_r_height_next v)
                   |> assign (with_eye_r_height_default v)
  | None => self
  end.

Definition eyes_radius (left_eye right_eye : option Z) (self : RoboEyes)
    : RoboEyes :=
  let self :=
    match left_eye with
    | Some v => self |> assign (with_eye_l_radius_next v)
                     |> assign (with_eye_l_radius_default v)
    | None => self
    end in
  match right_eye with
  | Some v => self |> assign (with_eye_r_radius_next v)
                   |> assign (with_eye_r_radius_default v)
  | None => self
  end.

Definition eyes_spacing (space : Z) (self : RoboEyes) : RoboEyes :=
  self |> assign (with_space_between_next space)
       |> assign (with_space_between_default space).

(** The property [mood] and its setter; [set_mood] is the setter. *)
Definition mood (self : RoboEyes) : Z := _mood self.

Definition set_mood (value : Z) (self : RoboEyes) : RoboEyes :=
  self |> assign (with__mood value)
       |> assign (with_tired ((value =? TIRED) || (value =? SCARY)))
       |> assign (with_angry (value =? ANGRY))
       |> assign (with_happy (value =? HAPPY))
       |> assign (with__curious (value =? CURIOUS))
       |> assign (with_sad (value =? SAD)).

Definition cyclops (self : RoboEyes) : bool := _cyclops self.

Definition set_cyclops (value : bool) (self : RoboEyes) : RoboEyes :=
  self |> assign (with__cyclops value).

Definition curious (self : RoboEyes) : bool := _curious self.

Definition set_curious (value : bool) (self : RoboEyes) : RoboEyes :=
  self |> assign (with__curious value).

(** [interval] and [variation] are whole seconds: [int(interval*1000)] is
  then [interval * 1000].  [now] is the clock reading of the last line. *)
Definition set_auto_blinker (active : Z) (interval variation : option Z)
    (now : Z) (self : RoboEyes) : RoboEyes :=
  let self := self |> assign (with_autoblinker (bool_of_int active)) in
  let self :=
    match interval with
    | Some i => self |> assign (with_blink_interval (i * 1000))
    | None => self
    end in
  let self :=
    match variation with
    | Some v => self |> assign (with_blink_interval_variation (v * 1000))
    | None => self
    end in
  self |> assign (with__next_blink (now + blink_interval self)).

Definition set_idle_mode (active : Z) (interval variation : option Z)
    (now : Z) (self : RoboEyes) : RoboEyes :=
  let self := self |> assign (with_idle (bool_of_int active)) in
  let self :=
    match interval with
    | Some i => self |> assign (with_idle_interval (i * 1000))
    | None => self
    end in
  let self :=
    match variation with
    | Some v => self |> assign (with_idle_interval_variation (v * 1000))
    | None => self
    end in
  self |> assign (with__next_idle (now + idle_interval self)).

Definition set_cute (enabled : bool) (self : RoboEyes) : RoboEyes :=
  self |> assign (with_cute enabled).

Definition set_eye_palette (sclera pupil outline : option color)
    (self : RoboEyes) : RoboEyes :=
  let self :=
    match sclera with
    | Some c => self |> assign (with_sclera_color c)
    | None => self
    end in
  let self :=
    match pupil with
    | Some c => self |> assign (with_pupil_color c)
    | None => self
    end in
  match outline with
  | Some c => self |> assign (with_outline_color c)
  | None => self
  end.

(** The horizontal and vertical room left to the left eye. *)
Definition max_x (self : RoboEyes) : Z :=
  screen_width self
  - (eye_l_width_current self + space_between_current self
     + (if _cyclops self then 0 else eye_r_width_current self)).

Definition max_y (self : RoboEyes) : Z :=
  screen_height self - eye_l_height_current self.

(** The setter of the property [position]; [set_position] is the setter. *)
Definition set_position (direction : Z) (self : RoboEyes) : RoboEyes :=
  let go (x y : Z) :=
    self |> assign (with_eye_l_x_next x) |> assign (with_eye_l_y_next y) in
  if direction =? Direction.N then go (max_x self / 2) 0
  else if direction =? Direction.NE then go (max_x self) 0
  else if direction =? Direction.E then go (max_x self) (max_y self / 2)
  else if direction =? Direction.SE then go (max_x self) (max_y self)
  else if direction =? Direction.S then go (max_x self / 2) (max_y self)
  else if direction =? Direction.SW then go 0 (max_y self)
  else if direction =? Direction.W then go 0 (max_y self / 2)
  else if direction =? Direction.NW then go 0 0
  else go (max_x self / 2) (max_y self / 2).

(** ** Basic animations *)

(** The closure [reopen] of [_schedule_open], with the [left] and [right]
  it captures. *)
Definition reopen (left right : bool) (robo : Attrs) : Attrs :=
  let robo :=
    if left then
      robo |> with_eye_l_height_next (eye_l_height_default robo)
           |> with_eye_l_open true
    else robo in
  if right && negb (_cyclops robo) then
    robo |> with_eye_r_height_next (eye_r_height_default robo)
         |> with_eye_r_open true
  else robo.

(** [now] is the clock reading of [seq.start()]. *)
Definition _schedule_open (left right : bool) (now : Z) (self : RoboEyes)
    : RoboEyes :=
  let '(l, seq) := Sequences.add "blink" (sequences self) in
  let l := Sequences.on seq (Sequence.step 120 (reopen left right)) l in
  let l := Sequences.on seq (Sequence.start now) l in
  with_sequences l self.

Definition blink (left right : option bool) (now : Z) (self : RoboEyes)
    : RoboEyes :=
  match left, right with
  | None, None =>
      let self := self |> assign (with_eye_l_height_next 1) in
      let self :=
        self |> assign (with_eye_r_height_next
                          (if negb (_cyclops self) then 1 else 0)) in
      let self := self |> assign (with_eye_l_open false) in
      let self := self |> assign (with_eye_r_open (negb (_cyclops self))) in
      _schedule_open true true now self
  | _, _ =>
      let self :=
        if truthy left then
          self |> assign (with_eye_l_height_next 1)
               |> assign (with_eye_l_open false)
        else self in
      let self :=
        if truthy right && negb (_cyclops self) then
          self |> assign (with_eye_r_height_next 1)
               |> assign (with_eye_r_open false)
        else self in
      _schedule_open (truthy left) (truthy right) now self
  end.

(** [now] is the clock reading stored in [wink_timer]. *)
Definition wink (left right : option bool) (now : Z) : M unit :=
  fun self =>
    if negb (truthy left || truthy right) then
      raise (ValueError "wink requires left or right True") self
    else
      let self := self |> assign (with__wink_left (truthy left)) in
      let self := self |> assign (with__wink_right (truthy right)) in
      let self := self |> assign (with_wink_timer now) in
      let self :=
        if truthy left then
          self |> assign (with_eye_l_height_next 1)
               |> assign (with_eye_l_open false)
        else self in
      let self :=
        if truthy right && negb (_cyclops self) then
          self |> assign (with_eye_r_height_next 1)
               |> assign (with_eye_r_open false)
        else self in
      ret tt self.

Definition wink_left (now : Z) : M unit :=
  fun self =>
    if _cyclops self then call (blink (Some true) None now) self
    else wink (Some true) (Some false) now self.

Definition wink_right (now : Z) : M unit :=
  fun self =>
    if _cyclops self then call (blink None (Some true) now) self
    else wink (Some false) (Some true) now self.

Definition confuse (now : Z) (self : RoboEyes) : RoboEyes :=
  self |> assign (with__confused true)
       |> assign (with_confused_animation_timer now).

Definition laugh (now : Z) (self : RoboEyes) : RoboEyes :=
  self |> assign (with__laugh true)
       |> assign (with_laugh_animation_timer now).

(** ** Construction

  [RoboEyes.__init__]; the surface is left out, and [now_blink] and
  [now_idle] are its two clock readings. *)
Definition init (width height frame_rate : Z) (bgcolor fgcolor : color)
    (now_blink now_idle : Z) : RoboEyes :=
  let center_x := (width - (80 + 60 + 80)) / 2 in
  {| attrs :=
       {| screen_width := width;
          screen_height := height;
          bgcolor := bgcolor;
          fgcolor := fgcolor;
          frame_interval := framerate_interval frame_rate;
          fps_timer := 0;
          space_between_default := 60;
          space_between_current := 60;
          space_between_next := 60;
          eye_l_width_default := 80;
          eye_l_height_default := 80;
          eye_r_width_default := 80;
          eye_r_height_default := 80;
          eye_l_width_current := 80;
          eye_l_height_current := 80;
          eye_r_width_current := 80;
          eye_r_height_current := 80;
          eye_l_width_next := 80;
          eye_l_height_next := 80;
          eye_r_width_next := 80;
          eye_r_height_next := 80;
          eye_l_radius_default := 30;
          eye_r_radius_default := 30;
          eye_l_radius_current := 30;
          eye_r_radius_current := 30;
          eye_l_radius_next := 30;
          eye_r_radius_next := 30;
          eye_l_y_default := (height - 80) / 2;
          eye_l_x := center_x;
          eye_l_y := (height - 80) / 2;
          eye_r_x := center_x + 80 + 60;
          eye_r_y := (height - 80) / 2;
          eye_l_x_next := center_x;
          eye_l_y_next := (height - 80) / 2;
          eye_r_x_next := center_x + 80 + 60;
          eye_r_y_next := (height - 80) / 2;
          _mood := DEFAULT;
          tired := false;
          angry := false;
          happy := false;
          _curious := false;
          _cyclops := false;
          sad := false;
          cute := false;
          sclera_color := (250, 250, 255);
          pupil_color := (25, 30, 35);
          outline_color := (60, 65, 70);
          eye_l_open := true;
          eye_r_open := true;
          autoblinker := false;
          blink_interval := 1000;
          blink_interval_variation := 2000;
          _next_blink := now_blink + 1000;
          idle := false;
          idle_interval := 1500;
          idle_interval_variation := 1500;
          _next_idle := now_idle + 1500;
          _confused := false;
          _laugh := false;
          confused_animation_timer := 0;
          laugh_animation_timer := 0;
          confused_duration := 500;
          laugh_duration := 500;
          _wink_left := false;
          _wink_right := false;
          wink_timer := 0;
          wink_duration := 300 |};
     sequences := [] |}.

(** ** The update loop *)

(** What one call of [update] reads from outside: its clock readings, in
  the order of the calls of [get_ticks], and the generator's draws. *)
Record Tick : Type := BuildTick
  { seq_ticks : Z;      (* read by [Sequences.update] *)
    now : Z;            (* read by [update] *)
    blink_start : Z;    (* read by [Sequence.start] when auto-blink blinks *)
    blink_draw : Z;     (* jitter of the next auto-blink *)
    idle_x_draw : Z;    (* idle target, x *)
    idle_y_draw : Z;    (* idle target, y *)
    idle_draw : Z       (* jitter of the next idle move *) }.

Definition get : M RoboEyes := fun self => (Return self, self).

(** [self.sequences.update()]: the callbacks act on [self]. *)
Definition sequences_update (ticks : Z) (self : RoboEyes) : RoboEyes :=
  let '(l, a) := Sequences.update ticks (sequences self) (attrs self) in
  {| attrs := a; sequences := l |}.

(** The local function [lerp] of [update]. *)
Definition lerp (a b : Z) : Z := (a + b) / 2.

(** "Auto blink" *)
Definition auto_blink (e : Tick) : M unit :=
  self <- get ;;
  if autoblinker self && (now e >=? _next_blink self) then
    call (blink None None (blink_start e)) ;;;
    self <- get ;;
    jitter <- randint (blink_draw e) 0 (blink_interval_variation self) ;;
    call (assign (with__next_blink (now e + blink_interval self + jitter)))
  else ret tt.

(** "Idle reposition" *)
Definition idle_reposition (e : Tick) : M unit :=
  self <- get ;;
  if idle self && (now e >=? _next_idle self) then
    x <- randint (idle_x_draw e) 0 (max_x self) ;;
    call (assign (with_eye_l_x_next x)) ;;;
    y <- randint (idle_y_draw e) 0 (max_y self) ;;
    call (assign (with_eye_l_y_next y)) ;;;
    self <- get ;;
    jitter <- randint (idle_draw e) 0 (idle_interval_variation self) ;;
    call (assign (with__next_idle (now e + idle_interval self + jitter)))
  else ret tt.

(** "Interpolate geometry" *)
Definition interpolate (self : RoboEyes) : RoboEyes :=
  let self := self |> assign (with_eye_l_width_current
    (lerp (eye_l_width_current self) (eye_l_width_next self))) in
  let self := self |> assign (with_eye_r_width_current
    (lerp (eye_r_width_current self) (eye_r_width_next self))) in
  let self := self |> assign (with_eye_l_height_current
    (lerp (eye_l_height_current self) (eye_l_height_next self))) in
  let self := self |> assign (with_eye_r_height_current
    (lerp (eye_r_height_current self) (eye_r_height_next self))) in
  let self := self |> assign (with_eye_l_radius_current
    (lerp (eye_l_radius_current self) (eye_l_radius_next self))) in
  let self := self |> assign (with_eye_r_radius_current
    (lerp (eye_r_radius_current self) (eye_r_radius_next self))) in
  let self := self |> assign (with_space_between_current
    (lerp (space_between_current self) (space_between_next self))) in
  let self := self |> assign (with_eye_l_x
    (lerp (eye_l_x self) (eye_l_x_next self))) in
  let self := self |> assign (with_eye_l_y
    (lerp (eye_l_y self) (eye_l_y_next self))) in
  let self := self |> assign (with_eye_r_x_next
    (eye_l_x_next self + eye_l_width_current self
     + space_between_current self)) in
  let self := self |> assign (with_eye_r_y_next (eye_l_y_next self)) in
  let self := self |> assign (with_eye_r_x
    (lerp (eye_r_x self) (eye_r_x_next self))) in
  self |> assign (with_eye_r_y (lerp (eye_r_y self) (eye_r_y_next self))).

(** "Handle wink restore" *)
Definition wink_restore (now : Z) (self : RoboEyes) : RoboEyes :=
  if (_wink_left self || _wink_right self)
     && (now - wink_timer self >? wink_duration self) then
    let self :=
      if _wink_left self then
        self |> assign (with_eye_l_height_next (eye_l_height_default self))
             |> assign (with_eye_l_open true)
      else self in
    let self :=
      if _wink_right self && negb (_cyclops self) then
        self |> assign (with_eye_r_height_next (eye_r_height_default self))
             |> assign (with_eye_r_open true)
      else self in
    self |> assign (with__wink_left false) |> assign (with__wink_right false)
  else self.

(** [-jitter if (now//80)%2 else jitter] *)
Definition shake (jitter now : Z) : Z :=
  if (now / 80) mod 2 =? 0 then jitter else - jitter.

(** "Confuse jitter (horizontal)" *)
Definition confuse_jitter (now : Z) (self : RoboEyes) : RoboEyes :=
  if _confused self then
    if now - confused_animation_timer self <? confused_duration self then
      let self := self |> assign (with_eye_l_x (eye_l_x self + shake 20 now)) in
      self |> assign (with_eye_r_x (eye_r_x self + shake 20 now))
    else self |> assign (with__confused false)
  else self.

(** "Laugh jitter (vertical)" *)
Definition laugh_jitter (now : Z) (self : RoboEyes) : RoboEyes :=
  if _laugh self then
    if now - laugh_animation_timer self <? laugh_duration self then
      let self := self |> assign (with_eye_l_y (eye_l_y self + shake 15 now)) in
      self |> assign (with_eye_r_y (eye_r_y self + shake 15 now))
    else self |> assign (with__laugh false)
  else self.

(** The part of [update] behind the frame limiter, up to the drawing. *)
Definition frame (e : Tick) : M unit :=
  call (assign (with_fps_timer (now e))) ;;;
  auto_blink e ;;;
  idle_reposition e ;;;
  call interpolate ;;;
  call (wink_restore (now e)) ;;;
  call (confuse_jitter (now e)) ;;;
  call (laugh_jitter (now e)).

(** The test of the frame limiter: [now - self.fps_timer < self.frame_interval] *)
Definition coalesced (e : Tick) (self : RoboEyes) : bool :=
  now e - fps_timer self <? frame_interval self.

(** [RoboEyes.update] *)
Definition update (e : Tick) : M unit :=
  call (sequences_update (seq_ticks e)) ;;;
  self <- get ;;
  if coalesced e self then ret tt else frame e.

(** ** What [update] hands to the renderer

  [current_h] of [draw_eye(x, y, w, h, r, extra_height)]: the height of
  the rectangle that is drawn, [max(1, h + extra_height)]. *)
Definition current_h (h extra_height : Z) : Z := Z.max 1 (h + extra_height).

(** ** Notions used in the statements *)

(** The flags of a step and of a sequence after one [update] at [ticks]:
  they do not depend on the owner. *)
Definition step_after {Owner : Type} (start ticks : Z)
    (s : StepData.t Owner) : StepData.t Owner :=
  if StepData.done s then s
  else if ticks - start <? StepData.ms_timing s then s
  else StepData.set_done true s.

Definition sequence_after {Owner : Type} (ticks : Z)
    (q : Sequence.t Owner) : Sequence.t Owner :=
  match Sequence._start q with
  | None => q
  | Some st =>
      {| Sequence.name := Sequence.name q;
         Sequence._start := Sequence._start q;
         Sequence.steps := map (step_after st ticks) (Sequence.steps q) |}
  end.

(** The [done] flag of the [i]-th step of a sequence. *)
Definition step_done {Owner : Type} (i : nat) (q : Sequence.t Owner)
    : option bool :=
  option_map StepData.done (nth_error (Sequence.steps q) i).

(** Every step but the [i]-th leaves the counter [cnt] of the owner alone. *)
Definition others_silent {Owner : Type} (cnt : Owner -> nat) (i : nat)
    (l : list (StepData.t Owner)) : Prop :=
  forall j s', j <> i -> nth_error l j = Some s' ->
    forall o, cnt (StepData.callback s' o) = cnt o.


(** The eight moods of the enumeration, and the five flags derived from
  the mood. *)
Definition moods : list Z :=
  [DEFAULT; TIRED; ANGRY; HAPPY; FROZEN; SCARY; CURIOUS; SAD].

Definition mood_flags (self : RoboEyes) : list bool :=
  [tired self; happy self; angry self; _curious self; sad self].

Definition count_true (l : list bool) : nat :=
  List.length (filter (fun b => b) l).

(** The sequences that the engine itself creates: every step carries a
  [reopen] closure ([_schedule_open] is the only place of the engine that
  adds a sequence). *)
Definition engine_step (s : StepData.t Attrs) : Prop :=
  exists left right, StepData.callback s = reopen left right.

Definition engine_sequences (self : RoboEyes) : Prop :=
  Forall (fun q => Forall engine_step (Sequence.steps q)) (sequences self).

(** Erasers: an object's attributes with some of them blanked.  Two
  objects that are equal once blanked differ on the blanked attributes at
  most.  [no_lids] blanks the height targets and the open flags of both
  eyes. *)
Definition no_lids (a : Attrs) : Attrs :=
  a |> with_eye_l_height_next 0
    |> with_eye_l_open false
    |> with_eye_r_height_next 0
    |> with_eye_r_open false.

(** The auto-blink timer besides. *)
Definition no_blink (a : Attrs) : Attrs :=
  no_lids a |> with__next_blink 0.

(** The position target of the left eye and the idle timer. *)
Definition no_idle_target (a : Attrs) : Attrs :=
  a |> with_eye_l_x_next 0 |> with_eye_l_y_next 0 |> with__next_idle 0.

(** What the interpolation assigns: the current sizes, spacing and
  positions, and the position target of the right eye. *)
Definition no_geometry (a : Attrs) : Attrs :=
  a |> with_eye_l_width_current 0 |> with_eye_r_width_current 0
    |> with_eye_l_height_current 0 |> with_eye_r_height_current 0
    |> with_eye_l_radius_current 0 |> with_eye_r_radius_current 0
    |> with_space_between_current 0
    |> with_eye_l_x 0 |> with_eye_l_y 0
    |> with_eye_r_x_next 0 |> with_eye_r_y_next 0
    |> with_eye_r_x 0 |> with_eye_r_y 0.

(** What a wink assigns: the lids, the wink flags and the wink timer. *)
Definition no_wink (a : Attrs) : Attrs :=
  no_lids a
    |> with__wink_left false |> with__wink_right false |> with_wink_timer 0.

(** What the end of a frame assigns: the lids and the wink flags, the
  positions and the confuse and laugh flags. *)
Definition no_overlays (a : Attrs) : Attrs :=
  no_lids a
    |> with__wink_left false |> with__wink_right false
    |> with_eye_l_x 0 |> with_eye_r_x 0 |> with__confused false
    |> with_eye_l_y 0 |> with_eye_r_y 0 |> with__laugh false.

(** [k] interpolation steps towards a fixed target. *)
Fixpoint lerp_ticks (k : nat) (current next : Z) : Z :=
  match k with
  | O => current
  | S k' => lerp_ticks k' (lerp current next) next
  end.

(** Successive calls of [update]. *)
Fixpoint updates (es : list Tick) (self : RoboEyes) : RoboEyes :=
  match es with
  | [] => self
  | e :: es' => updates es' (after (update e) self)
  end.

(** Every one of these calls gets past the frame limiter and returns. *)
Fixpoint all_processed (es : list Tick) (self : RoboEyes) : Prop :=
  match es with
  | [] => True
  | e :: es' =>
      coalesced e self = false
      /\ fst (update e self) = Return tt
      /\ all_processed es' (after (update e) self)
  end.

(** Auto-blink is due at this call of [update]. *)
Definition auto_blink_due (e : Tick) (self : RoboEyes) : bool :=
  autoblinker self && (now e >=? _next_blink self).

(** Auto-blink blinks in this call of [update]: the call gets past the
  frame limiter and auto-blink is due. *)
Definition auto_blink_fires (e : Tick) (self : RoboEyes) : bool :=
  negb (coalesced e self) && auto_blink_due e self.

(** Of the calls of [update] made in turn with the readings [es], starting
  from [self], none is a frame that runs to its end at a reading for which
  [P] fails: each call reads a clock for which [P] holds, or is coalesced,
  or raises. *)
Fixpoint no_frame_past (P : Tick -> Prop) (es : list Tick)
    (self : RoboEyes) : Prop :=
  match es with
  | [] => True
  | e :: es' =>
      (P e \/ coalesced e self = true \/ fst (update e self) <> Return tt)
      /\ no_frame_past P es' (after (update e) self)
  end.

(** The public operations of a [RoboEyes] object, with their arguments and
  the clock readings and draws they consume. *)
Inductive Op : Type :=
| SetFramerate (fps : Z)
| EyesWidth (left_eye right_eye : option Z)
| EyesHeight (left_eye right_eye : option Z)
| EyesRadius (left_eye right_eye : option Z)
| EyesSpacing (space : Z)
| SetMood (value : Z)
| SetCyclops (value : bool)
| SetCurious (value : bool)
| SetAutoBlinker (active : Z) (interval variation : option Z) (now : Z)
| SetIdleMode (active : Z) (interval variation : option Z) (now : Z)
| SetCute (enabled : bool)
| SetEyePalette (sclera pupil outline : option color)
| SetPosition (direction : Z)
| Blink (left right : option bool) (now : Z)
| Wink (left right : option bool) (now : Z)
| WinkLeft (now : Z)
| WinkRight (now : Z)
| Confuse (now : Z)
| Laugh (now : Z)
| Update (e : Tick).

Definition perform (op : Op) : M unit :=
  match op with
  | SetFramerate fps => call (set_framerate fps)
  | EyesWidth l r => call (eyes_width l r)
  | EyesHeight l r => call (eyes_height l r)
  | EyesRadius l r => call (eyes_radius l r)
  | EyesSpacing space => call (eyes_spacing space)
  | SetMood value => call (set_mood value)
  | SetCyclops value => call (set_cyclops value)
  | SetCurious value => call (set_curious value)
  | SetAutoBlinker a i v t => call (set_auto_blinker a i v t)
  | SetIdleMode a i v t => call (set_idle_mode a i v t)
  | SetCute enabled => call (set_cute enabled)
  | SetEyePalette s p o => call (set_eye_palette s p o)
  | SetPosition d => call (set_position d)
  | Blink l r t => call (blink l r t)
  | Wink l r t => wink l r t
  | WinkLeft t => wink_left t
  | WinkRight t => wink_right t
  | Confuse t => call (confuse t)
  | Laugh t => call (laugh t)
  | Update e => update e
  end.

(** The objects that construction followed by operations allowed by [ok]
  can produce; an operation that raises leaves the object it had reached. *)
Inductive reachable (ok : Op -> Prop) : RoboEyes -> Prop :=
| reachable_init width height frame_rate bgcolor fgcolor now_blink now_idle :
    reachable ok
      (init width height frame_rate bgcolor fgcolor now_blink now_idle)
| reachable_perform op self :
    reachable ok self -> ok op -> reachable ok (after (perform op) self).

(** Heights are configured with values of at least 1. *)
Definition heights_positive (op : Op) : Prop :=
  match op with
  | EyesHeight left_eye right_eye =>
      (forall v, left_eye = Some v -> 1 <= v)
      /\ (forall v, right_eye = Some v -> 1 <= v)
  | _ => True
  end.

(** The objects that construction followed by operations can produce, each
  operation allowed by [ok] in the state it is performed in. *)
Inductive reachable_when (ok : Op -> RoboEyes -> Prop) : RoboEyes -> Prop :=
| reachable_when_init width height frame_rate bgcolor fgcolor now_blink
    now_idle :
    reachable_when ok
      (init width height frame_rate bgcolor fgcolor now_blink now_idle)
| reachable_when_perform op self :
    reachable_when ok self -> ok op self ->
    reachable_when ok (after (perform op) self).

(** [blink()] without arguments does not run in cyclops mode: when cyclops
  mode is on, the operation is not [blink()], and if it is [update],
  auto-blink does not blink in it. *)
Definition no_cyclops_blink (op : Op) (self : RoboEyes) : Prop :=
  _cyclops self = true ->
  match op with
  | Blink None None _ => False
  | Update e => auto_blink_fires e self = false
  | _ => True
  end.

(** Cyclops mode is not switched on. *)
Definition two_eyes (op : Op) : Prop :=
  match op with
  | SetCyclops value => value = false
  | _ => True
  end.

(** The eyes a call [blink(left, right)] closes. *)
Definition blinks_left (left right : option bool) : bool :=
  match left, right with
  | None, None => true
  | _, _ => truthy left
  end.

Definition blinks_right (left right : option bool) : bool :=
  match left, right with
  | None, None => true
  | _, _ => truthy right
  end.

(** The end of a frame: what follows the interpolation. *)
Definition overlays (now : Z) (self : RoboEyes) : RoboEyes :=
  laugh_jitter now (confuse_jitter now (wink_restore now self)).

(** The object when the triggers of a frame are through: sequences
  updated, frame timer set, auto-blink and idle reposition done.  It is the
  object that the interpolation starts from. *)
Definition triggered (e : Tick) (self : RoboEyes) : RoboEyes :=
  after (idle_reposition e)
    (after (auto_blink e)
       (assign (with_fps_timer (now e))
          (sequences_update (seq_ticks e) self))).

(** What the confuse and laugh jitters assign. *)
Definition no_jitter (a : Attrs) : Attrs :=
  a |> with_eye_l_x 0 |> with_eye_r_x 0 |> with__confused false
    |> with_eye_l_y 0 |> with_eye_r_y 0 |> with__laugh false.

(** The sequence that [_schedule_open] adds. *)
Definition blink_sequence (left right : bool) (now : Z) : Sequence.t Attrs :=
  {| Sequence.name := "blink";
     Sequence._start := Some now;
     Sequence.steps := [StepData.init 120 (reopen left right)] |}.

(** An eye is restored: its height target is its default height and it is
  marked open. *)
Definition left_restored (a : Attrs) : Prop :=
  eye_l_height_next a = eye_l_height_default a /\ eye_l_open a = true.

Definition right_restored (a : Attrs) : Prop :=
  eye_r_height_next a = eye_r_height_default a /\ eye_r_open a = true.

(** The heights of an object whose configured heights are at least 1. *)
Definition heights_ok (a : Attrs) : Prop :=
  1 <= eye_l_height_current a
  /\ 1 <= eye_l_height_next a
  /\ 1 <= eye_l_height_default a
  /\ 0 <= eye_r_height_current a
  /\ 0 <= eye_r_height_next a
  /\ 1 <= eye_r_height_default a.

(** Every height is at least 1. *)
Definition heights_full (a : Attrs) : Prop :=
  1 <= eye_l_height_current a
  /\ 1 <= eye_l_height_next a
  /\ 1 <= eye_l_height_default a
  /\ 1 <= eye_r_height_current a
  /\ 1 <= eye_r_height_next a
  /\ 1 <= eye_r_height_default a.

(** The heights of an object with two eyes whose configured heights are at
  least 1. *)
Definition two_eyes_ok (a : Attrs) : Prop :=
  _cyclops a = false
  /\ 1 <= eye_l_height_current a
  /\ 1 <= eye_l_height_next a
  /\ 1 <= eye_l_height_default a
  /\ 1 <= eye_r_height_current a
  /\ 1 <= eye_r_height_next a
  /\ 1 <= eye_r_height_default a.

(** The six height attributes of an object. *)
Definition heights (a : Attrs) : Z * Z * Z * Z * Z * Z :=
  (eye_l_height_current a, eye_l_height_next a, eye_l_height_default a,
   eye_r_height_current a, eye_r_height_next a, eye_r_height_default a).

(** The state of a wink: its two flags, its timer and the duration. *)
Definition wink_state (a : Attrs) : bool * bool * Z * Z :=
  (_wink_left a, _wink_right a, wink_timer a, wink_duration a).

(** The state of the confuse and of the laugh animation: flag, timer and
  duration. *)
Definition confuse_state (a : Attrs) : bool * Z * Z :=
  (_confused a, confused_animation_timer a, confused_duration a).

Definition laugh_state (a : Attrs) : bool * Z * Z :=
  (_laugh a, laugh_animation_timer a, laugh_duration a).

(** What is configured, as against animated: the screen, the colours, the
  frame interval, the default sizes and the targets of width, radius and
  spacing, the mood with its flags, the modes, and the intervals and
  durations of the timers. *)
Definition configuration (a : Attrs) :=
  ((screen_width a, screen_height a, bgcolor a, fgcolor a, frame_interval a),
   (space_between_default a, eye_l_width_default a, eye_r_width_default a,
    eye_l_height_default a, eye_r_height_default a,
    eye_l_radius_default a, eye_r_radius_default a, eye_l_y_default a),
   (space_between_next a, eye_l_width_next a, eye_r_width_next a,
    eye_l_radius_next a, eye_r_radius_next a),
   (_mood a, tired a, angry a, happy a, _curious a, sad a),
   (_cyclops a, cute a, sclera_color a, pupil_color a, outline_color a),
   (autoblinker a, blink_interval a, blink_interval_variation a,
    idle a, idle_interval a, idle_interval_variation a),
   (confused_duration a, laugh_duration a, wink_duration a)).

(** * The demos

  [animation.py] and [animation2.py] drive one [RoboEyes] object from a
  loop: key presses first, in [animation2.py] then the distance sensor, then
  [update].  Of an iteration the model keeps what reaches the object; the
  [QUIT] event, the display flip and the frame clock are left out. *)

Module Animation.

(** The keys of a [KEYDOWN] event that the loop looks at; [K_other] is any
  other key. *)
Inductive Key : Type :=
| K_h | K_d | K_a | K_t | K_s | K_c | K_u | K_z
| K_b | K_j | K_k | K_l | K_SPACE | K_other.

(** The branch of a [KEYDOWN] event; [now] is the clock reading of the
  method called, if it makes one. *)
Definition keydown (key : Key) (now : Z) : M unit :=
  match key with
  | K_h => call (set_mood HAPPY)
  | K_d => call (set_mood DEFAULT)
  | K_a => call (set_mood ANGRY)
  | K_t => call (set_mood TIRED)
  | K_s => call (set_mood SCARY)
  | K_c => call (set_mood CURIOUS)
  | K_u => self <- get ;; call (set_cute (negb (cute self)))
  | K_z => call (set_mood SAD)
  | K_b => call (blink None None now)
  | K_j => wink_left now
  | K_k => wink_right now
  | K_l => call (laugh now)
  | K_SPACE => call (confuse now)
  | K_other => ret tt
  end.

(** [for e in pygame.event.get()] over the key presses of one iteration. *)
Fixpoint events (l : list (Key * Z)) : M unit :=
  match l with
  | [] => ret tt
  | (key, now) :: l' => keydown key now ;;; events l'
  end.

(** One iteration of [while running]. *)
Definition iteration (keys : list (Key * Z)) (e : Tick) : M unit :=
  events keys ;;; update e.

End Animation.

Module Animation2.

Inductive Key : Type :=
| K_h | K_d | K_a | K_t | K_s | K_c | K_z | K_f
| K_b | K_j | K_k | K_l | K_SPACE | K_other.

Definition keydown (key : Key) (now : Z) : M unit :=
  match key with
  | K_h => call (set_mood HAPPY)
  | K_d => call (set_mood DEFAULT)
  | K_a => call (set_mood ANGRY)
  | K_t => call (set_mood TIRED)
  | K_s => call (set_mood SCARY)
  | K_c => call (set_mood CURIOUS)
  | K_z => call (set_mood SAD)
  | K_f => call (set_mood FROZEN)
  | K_b => call (blink None None now)
  | K_j => wink_left now
  | K_k => wink_right now
  | K_l => call (laugh now)
  | K_SPACE => call (confuse now)
  | K_other => ret tt
  end.

Fixpoint events (l : list (Key * Z)) : M unit :=
  match l with
  | [] => ret tt
  | (key, now) :: l' => keydown key now ;;; events l'
  end.

(** A value of [current_distance_cm] other than [None]: a Python float, or
  one of the integers 5 and 60 of the simulation.  A finite float is a
  rational, and Python compares a float with an integer exactly;
  [float] also parses the infinities and the value that is not a number,
  which compares false with everything. *)
Inductive distance : Type :=
| Finite (q : Q)
| Infinite (negative : bool)
| NaN.

(** [dist <= k] for an integer [k]. *)
Definition le_int (dist : distance) (k : Z) : bool :=
  match dist with
  | Finite q => Qle_bool q (inject_Z k)
  | Infinite negative => negative
  | NaN => false
  end.

Definition NEAR_THRESHOLD : Z := 15.
Definition MID_THRESHOLD : Z := 35.
Definition FAR_THRESHOLD : Z := 60.

(** The strings ['near'], ['mid'], ['far'] and ['away']. *)
Inductive Zone : Type := near | mid | far | away.

Definition Zone_eqb (a b : Zone) : bool :=
  match a, b with
  | near, near | mid, mid | far, far | away, away => true
  | _, _ => false
  end.

(** "Hysteresis state": the globals [last_zone] and
  [zone_cooldown_until]. *)
Record Hysteresis : Type := BuildHysteresis
  { last_zone : option Zone;
    zone_cooldown_until : Z }.

Definition hysteresis0 : Hysteresis :=
  {| last_zone := None; zone_cooldown_until := 0 |}.

(** "Determine zone" *)
Definition zone_of (dist : distance) : Zone :=
  if le_int dist NEAR_THRESHOLD then near
  else if le_int dist MID_THRESHOLD then mid
  else if le_int dist FAR_THRESHOLD then far
  else away.

(** "cooldown to prevent rapid mood flicker": the zone that is acted on and
  the hysteresis state afterwards.  A zone is a non-empty string, so
  [last_zone if last_zone else zone] is [last_zone] unless that is
  [None]. *)
Definition cooldown (now : Z) (zone : Zone) (h : Hysteresis)
    : Zone * Hysteresis :=
  if now <? zone_cooldown_until h then
    (match last_zone h with Some z => z | None => zone end, h)
  else if match last_zone h with
          | Some z => negb (Zone_eqb zone z)
          | None => true
          end then
    (zone, {| last_zone := Some zone; zone_cooldown_until := now + 400 |})
  else (zone, h).

(** "Map zones to moods + micro animations"; [wink_ticks] and
  [confuse_ticks] are the clock readings of [wink_left] and [confuse]. *)
Definition react (now wink_ticks confuse_ticks : Z) (zone : Zone) : M unit :=
  match zone with
  | near =>
      call (set_mood CURIOUS) ;;;
      if (now / 1200) mod 2 =? 0 then
        wink_left wink_ticks ;;; call (confuse confuse_ticks)
      else ret tt
  | mid => call (set_mood HAPPY)
  | far => call (set_mood DEFAULT)
  | away => call (set_mood TIRED)
  end.

(** What the sensor block reads: the clock, the shared distance, and the
  clock again in [wink_left] and in [confuse]. *)
Record Reading : Type := BuildReading
  { ticks : Z;
    dist : option distance;
    wink_ticks : Z;
    confuse_ticks : Z }.

(** "Serial-driven mood mapping" *)
Definition sensor (r : Reading) (h : Hysteresis) : M Hysteresis :=
  match dist r with
  | None => ret h
  | Some d =>
      let zh := cooldown (ticks r) (zone_of d) h in
      react (ticks r) (wink_ticks r) (confuse_ticks r) (fst zh) ;;;
      ret (snd zh)
  end.

(** One iteration of [while running]. *)
Definition iteration (keys : list (Key * Z)) (r : Reading) (e : Tick)
    (h : Hysteresis) : M Hysteresis :=
  events keys ;;;
  h' <- sensor r h ;;
  update e ;;;
  ret h'.

(** The zones acted on over successive readings of the clock and of the
  distance, and the hysteresis state at the end. *)
Fixpoint zones (rs : list (Z * distance)) (h : Hysteresis)
    : list Zone * Hysteresis :=
  match rs with
  | [] => ([], h)
  | (now, d) :: rs' =>
      let zh := cooldown now (zone_of d) h in
      let rest := zones rs' (snd zh) in
      (fst zh :: fst rest, snd rest)
  end.

(** The mood that [react] sets in a zone. *)
Definition zone_mood (zone : Zone) : Z :=
  match zone with
  | near => CURIOUS
  | mid => HAPPY
  | far => DEFAULT
  | away => TIRED
  end.

End Animation2.

(** What no key and no reading of the sensor changes: the cyclops mode and
  the durations of the wink and of the confuse animation. *)
Definition animation_setup (a : Attrs) : bool * Z * Z :=
  (_cyclops a, wink_duration a, confused_duration a).

(** * [tft_animation.py]: the mood cycle

  The demo for the TFT display steps [eyes.mood] through [CYCLE] by the
  wall clock.  Readings of [time.time()] are Python floats; the model is
  parametric in their type and in the two operations used on them, so
  nothing is assumed about rounding. *)

Module Tft.

(** [l[i]]: indices from [-len(l)] to [-1] count from the end; [None]
  stands for [IndexError]. *)
Definition item {A : Type} (l : list A) (i : Z) : option A :=
  if 0 <=? i then nth_error l (Z.to_nat i)
  else if - Z.of_nat (List.length l) <=? i then
    nth_error l (Z.to_nat (Z.of_nat (List.length l) + i))
  else None.

Section Clock.

Variable float : Type.
Variable sub : float -> float -> float.     (* [a - b] *)
Variable ge : float -> float -> bool.       (* [a >= b] *)
Variable five : float.                      (* [5.0] *)

Definition CYCLE : list (Z * float) :=
  [(DEFAULT, five); (CURIOUS, five); (HAPPY, five);
   (SAD, five); (TIRED, five); (ANGRY, five)].

(** [eyes.mood] and the globals [cycle_index] and [cycle_start]. *)
Record State : Type := BuildState
  { mood : Z;
    cycle_index : Z;
    cycle_start : float }.

(** The state when [main_loop] starts: [eyes.set_mood(CYCLE[0][0])]. *)
Definition start (t0 : float) : State :=
  {| mood := DEFAULT; cycle_index := 0; cycle_start := t0 |}.

(** [t1] and [t2] are the two readings of [time.time()]. *)
Definition apply_mood_cycle (t1 t2 : float) (s : State) : option State :=
  match item CYCLE (cycle_index s) with
  | None => None
  | Some (_, duration) =>
      if ge (sub t1 (cycle_start s)) duration then
        let i := (cycle_index s + 1) mod Z.of_nat (List.length CYCLE) in
        match item CYCLE i with
        | None => None
        | Some (mood, _) =>
            Some {| mood := mood; cycle_index := i; cycle_start := t2 |}
        end
      else Some s
  end.

(** The calls of [apply_mood_cycle] of successive iterations of
  [main_loop]; [eyes.update] and [render_frame] assign none of the three
  variables. *)
Fixpoint main_loop (ts : list (float * float)) (s : State) : option State :=
  match ts with
  | [] => Some s
  | (t1, t2) :: ts' =>
      match apply_mood_cycle t1 t2 s with
      | None => None
      | Some s' => main_loop ts' s'
      end
  end.

End Clock.

Arguments mood {float} _.
Arguments cycle_index {float} _.
Arguments cycle_start {float} _.
Arguments start {float} _.
Arguments apply_mood_cycle {float} _ _ _ _ _ _.
Arguments main_loop {float} _ _ _ _ _.
Arguments CYCLE {float} _.

End Tft.
(** * Properties *)

(** ** Sequences *)

Section SequenceFacts.
Context {Owner : Type}.
Implicit Types (s : StepData.t Owner) (q : Sequence.t Owner) (o : Owner).

Lemma step_after_callback st ticks s :
  StepData.callback (step_after st ticks s) = StepData.callback s.
Proof.
  unfold step_after.
  destruct (StepData.done s); [reflexivity|].
  destruct (ticks - st <? StepData.ms_timing s); reflexivity.
Qed.

Lemma update_steps_fst st ticks l o :
  fst (Sequence.update_steps st ticks l o) = map (step_after st ticks) l.
Proof.
  revert o. induction l as [|s l IH]; intros o; simpl; [reflexivity|].
  unfold StepData.update, step_after at 1.
  destruct (StepData.done s); simpl.
  - specialize (IH o).
    destruct (Sequence.update_steps st ticks l o); simpl in *; congruence.
  - destruct (ticks - st <? StepData.ms_timing s).
    + specialize (IH o).
      destruct (Sequence.update_steps st ticks l o); simpl in *; congruence.
    + specialize (IH (StepData.callback s o)).
      destruct (Sequence.update_steps st ticks l (StepData.callback s o));
        simpl in *; congruence.
Qed.

Lemma Sequence_update_fst ticks q o :
  fst (Sequence.update ticks q o) = sequence_after ticks q.
Proof.
  unfold Sequence.update, sequence_after.
  destruct (Sequence._start q) as [st|]; [|reflexivity].
  pose proof (update_steps_fst st ticks (Sequence.steps q) o) as H.
  destruct (Sequence.update_steps st ticks (Sequence.steps q) o); simpl in *.
  now rewrite H.
Qed.

Lemma Sequences_update_fst ticks (l : list (Sequence.t Owner)) o :
  fst (Sequences.update ticks l o) = map (sequence_after ticks) l.
Proof.
  revert o. induction l as [|q l IH]; intros o; simpl; [reflexivity|].
  pose proof (Sequence_update_fst ticks q o) as Hq.
  destruct (Sequence.update ticks q o) as [q1 o1]; simpl in Hq.
  specialize (IH o1).
  destruct (Sequences.update ticks l o1); simpl in *; congruence.
Qed.

Lemma sequence_after_started ticks q st :
  Sequence._start q = Some st ->
  Sequence._start (sequence_after ticks q) = Some st
  /\ Sequence.steps (sequence_after ticks q)
     = map (step_after st ticks) (Sequence.steps q).
Proof.
  intros H. unfold sequence_after. rewrite H. simpl. split; reflexivity.
Qed.

(** A property of the owner kept by every callback is kept by an update. *)
Lemma update_steps_keeps (P : Owner -> Prop) st ticks l o :
  Forall (fun s => forall o', P o' -> P (StepData.callback s o')) l ->
  P o -> P (snd (Sequence.update_steps st ticks l o)).
Proof.
  revert o. induction l as [|s l IH]; intros o Hl Ho; simpl; [exact Ho|].
  inversion Hl as [|? ? Hs Hl']; subst.
  assert (P (snd (if negb (StepData.done s)
                  then StepData.update st ticks s o else (s, o)))) as H1.
  { unfold StepData.update. destruct (StepData.done s); simpl; [exact Ho|].
    destruct (ticks - st <? StepData.ms_timing s); simpl; auto. }
  destruct (if negb (StepData.done s)
            then StepData.update st ticks s o else (s, o)) as [s1 o1].
  specialize (IH o1 Hl' H1).
  destruct (Sequence.update_steps st ticks l o1); exact IH.
Qed.

Lemma Sequence_update_keeps (P : Owner -> Prop) ticks q o :
  Forall (fun s => forall o', P o' -> P (StepData.callback s o'))
         (Sequence.steps q) ->
  P o -> P (snd (Sequence.update ticks q o)).
Proof.
  intros Hq Ho. unfold Sequence.update.
  destruct (Sequence._start q) as [st|]; [|exact Ho].
  pose proof (update_steps_keeps P st ticks _ o Hq Ho) as H.
  destruct (Sequence.update_steps st ticks (Sequence.steps q) o); exact H.
Qed.

Lemma Sequences_update_keeps (P : Owner -> Prop) ticks
    (l : list (Sequence.t Owner)) o :
  Forall (fun q =>
    Forall (fun s => forall o', P o' -> P (StepData.callback s o'))
           (Sequence.steps q)) l ->
  P o -> P (snd (Sequences.update ticks l o)).
Proof.
  revert o. induction l as [|q l IH]; intros o Hl Ho; simpl; [exact Ho|].
  inversion Hl as [|? ? Hq Hl']; subst.
  pose proof (Sequence_update_keeps P ticks q o Hq Ho) as H1.
  destruct (Sequence.update ticks q o) as [q1 o1].
  specialize (IH o1 Hl' H1).
  destruct (Sequences.update ticks l o1); exact IH.
Qed.

End SequenceFacts.

(** *** Counting the calls of one step *)

Section StepCalls.
Context {Owner : Type} (cnt : Owner -> nat).
Implicit Types (s : StepData.t Owner) (q : Sequence.t Owner) (o : Owner).

Lemma others_silent_after st ticks i l :
  others_silent cnt i l ->
  others_silent cnt i (map (step_after st ticks) l).
Proof.
  intros H j s' Hj Hs' o.
  rewrite nth_error_map in Hs'.
  destruct (nth_error l j) as [s0|] eqn:E; simpl in Hs'; [|discriminate].
  injection Hs' as <-. rewrite step_after_callback. eauto.
Qed.

Lemma others_silent_tail i s l :
  others_silent cnt (S i) (s :: l) -> others_silent cnt i l.
Proof.
  intros H j s' Hj Hs'. apply (H (S j) s'); [lia|exact Hs'].
Qed.

Lemma silent_steps_cnt st ticks l o :
  (forall j s', nth_error l j = Some s' ->
     forall o', cnt (StepData.callback s' o') = cnt o') ->
  cnt (snd (Sequence.update_steps st ticks l o)) = cnt o.
Proof.
  intros H.
  apply (update_steps_keeps (fun o' => cnt o' = cnt o)); [|reflexivity].
  apply Forall_forall. intros s' Hin o' Ho'.
  destruct (In_nth_error _ _ Hin) as [j Hj].
  rewrite (H j s' Hj). exact Ho'.
Qed.

(** One update of the steps: the counter moves by one exactly when the
  [i]-th step is pending and due. *)
Lemma update_steps_cnt st ticks i l s o :
  nth_error l i = Some s ->
  (forall o', cnt (StepData.callback s o') = S (cnt o')) ->
  others_silent cnt i l ->
  cnt (snd (Sequence.update_steps st ticks l o))
  = (cnt o
     + if negb (StepData.done s) && (StepData.ms_timing s <=? ticks - st)%Z
       then 1 else 0)%nat.
Proof.
  revert i o. induction l as [|s0 l IH]; intros i o Hi Hs Hoth.
  - destruct i; discriminate.
  - destruct i as [|i]; simpl in Hi.
    + injection Hi as ->. simpl.
      assert (forall o1, cnt (snd (Sequence.update_steps st ticks l o1))
                         = cnt o1) as Hrest.
      { intros o1. apply silent_steps_cnt. intros j s' Hj o'.
        apply (Hoth (S j) s'); [lia|exact Hj]. }
      unfold StepData.update.
      destruct (StepData.done s); simpl.
      * specialize (Hrest o).
        destruct (Sequence.update_steps st ticks l o); simpl in *. lia.
      * destruct (Z.ltb_spec (ticks - st) (StepData.ms_timing s));
          destruct (Z.leb_spec (StepData.ms_timing s) (ticks - st));
          try lia.
        -- specialize (Hrest o).
           destruct (Sequence.update_steps st ticks l o); simpl in *. lia.
        -- specialize (Hrest (StepData.callback s o)).
           destruct (Sequence.update_steps st ticks l
                       (StepData.callback s o)); simpl in *.
           rewrite Hrest, Hs. lia.
    + simpl.
      assert (cnt (snd (if negb (StepData.done s0)
                        then StepData.update st ticks s0 o else (s0, o)))
              = cnt o) as H0.
      { unfold StepData.update. destruct (StepData.done s0); simpl; auto.
        destruct (ticks - st <? StepData.ms_timing s0)%Z; simpl; auto.
        apply (Hoth 0%nat s0); [lia|reflexivity]. }
      destruct (if negb (StepData.done s0)
                then StepData.update st ticks s0 o else (s0, o)) as [s1 o1].
      simpl in H0.
      specialize (IH i o1 Hi Hs (others_silent_tail _ _ _ Hoth)).
      destruct (Sequence.update_steps st ticks l o1); simpl in *.
      rewrite IH, H0. reflexivity.
Qed.

Lemma Sequence_update_cnt ticks q st i s o :
  Sequence._start q = Some st ->
  nth_error (Sequence.steps q) i = Some s ->
  (forall o', cnt (StepData.callback s o') = S (cnt o')) ->
  others_silent cnt i (Sequence.steps q) ->
  cnt (snd (Sequence.update ticks q o))
  = (cnt o
     + if negb (StepData.done s) && (StepData.ms_timing s <=? ticks - st)%Z
       then 1 else 0)%nat.
Proof.
  intros Hst Hi Hs Hoth. unfold Sequence.update. rewrite Hst.
  pose proof (update_steps_cnt st ticks i _ s o Hi Hs Hoth) as H.
  destruct (Sequence.update_steps st ticks (Sequence.steps q) o); exact H.
Qed.

Lemma run_app ts1 ts2 q o :
  Sequence.run (ts1 ++ ts2) q o
  = Sequence.run ts2 (fst (Sequence.run ts1 q o)) (snd (Sequence.run ts1 q o)).
Proof.
  revert q o. induction ts1 as [|t ts1 IH]; intros q o; simpl; [reflexivity|].
  destruct (Sequence.update t q o) as [q1 o1]. apply IH.
Qed.

(** While the step is not due it stays as it is and is not called. *)
Lemma run_pending ts q st i s o :
  Sequence._start q = Some st ->
  nth_error (Sequence.steps q) i = Some s ->
  StepData.done s = false ->
  (forall o', cnt (StepData.callback s o') = S (cnt o')) ->
  others_silent cnt i (Sequence.steps q) ->
  Forall (fun t' => (t' - st < StepData.ms_timing s)%Z) ts ->
  Sequence._start (fst (Sequence.run ts q o)) = Some st
  /\ nth_error (Sequence.steps (fst (Sequence.run ts q o))) i = Some s
  /\ others_silent cnt i (Sequence.steps (fst (Sequence.run ts q o)))
  /\ cnt (snd (Sequence.run ts q o)) = cnt o.
Proof.
  revert q o. induction ts as [|t ts IH]; intros q o Hst Hi Hd Hs Hoth Hts.
  - simpl. auto.
  - inversion Hts as [|? ? Ht Hts']; subst. simpl.
    pose proof (Sequence_update_fst t q o) as Hq.
    pose proof (Sequence_update_cnt t q st i s o Hst Hi Hs Hoth) as Hc.
    destruct (Sequence.update t q o) as [q1 o1]. simpl in Hq, Hc.
    assert (Sequence._start q1 = Some st) as Hst1.
    { subst q1. apply (sequence_after_started t q st Hst). }
    assert (Sequence.steps q1 = map (step_after st t) (Sequence.steps q))
      as Hsteps.
    { subst q1. apply (sequence_after_started t q st Hst). }
    assert (nth_error (Sequence.steps q1) i = Some s) as Hi1.
    { rewrite Hsteps, nth_error_map, Hi. simpl. f_equal.
      unfold step_after. rewrite Hd.
      destruct (Z.ltb_spec (t - st) (StepData.ms_timing s)); [reflexivity|lia]. }
    assert (others_silent cnt i (Sequence.steps q1)) as Hoth1.
    { rewrite Hsteps. apply others_silent_after. exact Hoth. }
    destruct (IH q1 o1 Hst1 Hi1 Hd Hs Hoth1 Hts') as (A & B & C & D).
    repeat split; auto.
    rewrite D, Hc, Hd. simpl.
    destruct (Z.leb_spec (StepData.ms_timing s) (t - st)); lia.
Qed.

(** Once the step is done, no update calls it or clears its flag. *)
Lemma run_done ts q st i s o :
  Sequence._start q = Some st ->
  nth_error (Sequence.steps q) i = Some s ->
  StepData.done s = true ->
  (forall o', cnt (StepData.callback s o') = S (cnt o')) ->
  others_silent cnt i (Sequence.steps q) ->
  step_done i (fst (Sequence.run ts q o)) = Some true
  /\ cnt (snd (Sequence.run ts q o)) = cnt o.
Proof.
  revert q o. induction ts as [|t ts IH]; intros q o Hst Hi Hd Hs Hoth.
  - simpl. unfold step_done. rewrite Hi. simpl. rewrite Hd. auto.
  - simpl.
    pose proof (Sequence_update_fst t q o) as Hq.
    pose proof (Sequence_update_cnt t q st i s o Hst Hi Hs Hoth) as Hc.
    destruct (Sequence.update t q o) as [q1 o1]. simpl in Hq, Hc.
    assert (Sequence._start q1 = Some st) as Hst1.
    { subst q1. apply (sequence_after_started t q st Hst). }
    assert (Sequence.steps q1 = map (step_after st t) (Sequence.steps q))
      as Hsteps.
    { subst q1. apply (sequence_after_started t q st Hst). }
    assert (nth_error (Sequence.steps q1) i = Some s) as Hi1.
    { rewrite Hsteps, nth_error_map, Hi. simpl. f_equal.
      unfold step_after. rewrite Hd. reflexivity. }
    assert (others_silent cnt i (Sequence.steps q1)) as Hoth1.
    { rewrite Hsteps. apply others_silent_after. exact Hoth. }
    destruct (IH q1 o1 Hst1 Hi1 Hd Hs Hoth1) as (A & B).
    split; [exact A|]. rewrite B, Hc, Hd. simpl. lia.
Qed.

End StepCalls.

(** C2.  In a started sequence, a pending step of offset [ms_timing] is
    left pending and uncalled by every update whose clock reading is less
    than [ms_timing] after the start; the first update at or after that
    offset calls its callback once and marks it done; no later update calls
    it again, whatever their number and their clock readings.  The calls are
    counted by a counter [cnt] of the owner that this step's callback
    increments and the other steps leave alone.  A sequence whose start time
    is unset (a new one, or one that was reset) is reported done, and its
    update calls nothing and changes nothing. *)
Theorem sequence_step_exactly_once
    {Owner : Type} (cnt : Owner -> nat)
    (q : Sequence.t Owner) (st : Z) (i : nat) (s : StepData.t Owner)
    (o : Owner) (pre post : list Z) (t : Z) :
  Sequence._start q = Some st ->
  nth_error (Sequence.steps q) i = Some s ->
  StepData.done s = false ->
  (forall o', cnt (StepData.callback s o') = S (cnt o')) ->
  others_silent cnt i (Sequence.steps q) ->
  Forall (fun t' => t' - st < StepData.ms_timing s) pre ->
  StepData.ms_timing s <= t - st ->
  (step_done i (fst (Sequence.run pre q o)) = Some false
   /\ cnt (snd (Sequence.run pre q o)) = cnt o)
  /\ (step_done i (fst (Sequence.run (pre ++ [t]) q o)) = Some true
      /\ cnt (snd (Sequence.run (pre ++ [t]) q o)) = S (cnt o))
  /\ (step_done i (fst (Sequence.run (pre ++ t :: post) q o)) = Some true
      /\ cnt (snd (Sequence.run (pre ++ t :: post) q o)) = S (cnt o))
  /\ (forall (q' : Sequence.t Owner) o' ticks,
        Sequence._start q' = None ->
        Sequence.done q' = true /\ Sequence.update ticks q' o' = (q', o'))
  /\ (forall nm, Sequence._start (@Sequence.init Owner nm) = None)
  /\ Sequence._start (Sequence.reset q) = None.
Proof.
  intros Hst Hi Hd Hs Hoth Hpre Ht.
  destruct (run_pending cnt pre q st i s o Hst Hi Hd Hs Hoth Hpre)
    as (Hst1 & Hi1 & Hoth1 & Hc1).
  set (q1 := fst (Sequence.run pre q o)) in *.
  set (o1 := snd (Sequence.run pre q o)) in *.
  (* the update at [t] *)
  pose proof (Sequence_update_fst t q1 o1) as Hq2.
  pose proof (Sequence_update_cnt cnt t q1 st i s o1 Hst1 Hi1 Hs Hoth1) as Hc2.
  rewrite Hd in Hc2. simpl in Hc2.
  destruct (Z.leb_spec (StepData.ms_timing s) (t - st)) as [_|]; [|lia].
  assert (Sequence._start (fst (Sequence.update t q1 o1)) = Some st) as Hst2.
  { rewrite Hq2. apply (sequence_after_started t q1 st Hst1). }
  assert (Sequence.steps (fst (Sequence.update t q1 o1))
          = map (step_after st t) (Sequence.steps q1)) as Hsteps.
  { rewrite Hq2. apply (sequence_after_started t q1 st Hst1). }
  assert (nth_error (Sequence.steps (fst (Sequence.update t q1 o1))) i
          = Some (StepData.set_done true s)) as Hi2.
  { rewrite Hsteps, nth_error_map, Hi1. simpl. f_equal.
    unfold step_after. rewrite Hd.
    destruct (Z.ltb_spec (t - st) (StepData.ms_timing s)); [lia|reflexivity]. }
  assert (others_silent cnt i
            (Sequence.steps (fst (Sequence.update t q1 o1)))) as Hoth2.
  { rewrite Hsteps. apply others_silent_after. exact Hoth1. }
  assert (forall ts,
    step_done i (fst (Sequence.run (pre ++ t :: ts) q o)) = Some true
    /\ cnt (snd (Sequence.run (pre ++ t :: ts) q o)) = S (cnt o)) as Hlater.
  { intros ts. rewrite run_app. fold q1 o1. simpl.
    destruct (Sequence.update t q1 o1) as [q2 o2] eqn:E. simpl in *.
    destruct (run_done cnt ts q2 st i (StepData.set_done true s) o2
                Hst2 Hi2 eq_refl Hs Hoth2) as (A & B).
    split; [exact A|]. rewrite B, Hc2, Hc1. lia. }
  split; [|split; [|split; [|split; [|split]]]].
  - split; [|exact Hc1]. unfold step_done. rewrite Hi1. simpl. now rewrite Hd.
  - apply (Hlater []).
  - apply Hlater.
  - intros q' o' ticks Hnone. unfold Sequence.done, Sequence.update.
    rewrite Hnone. split; reflexivity.
  - reflexivity.
  - reflexivity.
Qed.

(** A sequence of two steps at 120 ms and 300 ms, started at 1000, whose
    owner counts the calls of the first step. *)
Lemma sequence_step_exactly_once_witness :
  let q : Sequence.t nat :=
    Sequence.start 1000
      (Sequence.step 300 (fun n => n)
         (Sequence.step 120 S (Sequence.init "blink"))) in
  step_done 0 (fst (Sequence.run [1016; 1100] q 0%nat)) = Some false
  /\ snd (Sequence.run ([1016; 1100] ++ [1120]) q 0%nat) = 1%nat
  /\ snd (Sequence.run ([1016; 1100] ++ 1120 :: [1140; 1400; 5000]) q 0%nat)
     = 1%nat.
Proof.
  intros q.
  assert (others_silent (fun n : nat => n) 0 (Sequence.steps q)) as Hoth.
  { intros j s' Hj Hs' o'. destruct j as [|[|j]]; [congruence| |].
    - injection Hs' as <-. reflexivity.
    - simpl in Hs'. destruct j; discriminate. }
  assert (Forall (fun t' => t' - 1000 < 120) [1016; 1100]) as Hpre.
  { repeat constructor; lia. }
  destruct (sequence_step_exactly_once (fun n : nat => n) q 1000 0
              (StepData.init 120 S) 0%nat [1016; 1100] [1140; 1400; 5000] 1120
              eq_refl eq_refl eq_refl (fun o' => eq_refl) Hoth Hpre
              ltac:(simpl; lia))
    as ((A & _) & (_ & B) & (_ & C) & _).
  exact (conj A (conj B C)).
Defined.

(** ** Moods *)

(** C4.  For each of the eight moods, [set_mood] returns, the derived flags
    are the documented ones ([tired] for [TIRED] and [SCARY], and one flag
    each for [ANGRY], [HAPPY], [CURIOUS] and [SAD]), at most one of the five
    flags is set, and [mood] reads back the value. *)
Theorem set_mood_enumerated (value : Z) (self : RoboEyes) :
  In value moods ->
  let self' := set_mood value self in
  mood self' = value
  /\ (tired self' = true <-> value = TIRED \/ value = SCARY)
  /\ (angry self' = true <-> value = ANGRY)
  /\ (happy self' = true <-> value = HAPPY)
  /\ (curious self' = true <-> value = CURIOUS)
  /\ (sad self' = true <-> value = SAD)
  /\ (count_true (mood_flags self') <= 1)%nat.
Proof.
  intros Hin.
  assert (value = 0 \/ value = 1 \/ value = 2 \/ value = 3 \/ value = 4
          \/ value = 5 \/ value = 6 \/ value = 7) as Hv.
  { unfold moods, DEFAULT, TIRED, ANGRY, HAPPY, FROZEN, SCARY, CURIOUS, SAD
      in Hin. simpl in Hin. intuition congruence. }
  unfold TIRED, SCARY, ANGRY, HAPPY, CURIOUS, SAD.
  destruct Hv as [->|[->|[->|[->|[->|[->|[->| ->]]]]]]]; cbv;
    repeat split; intros; try discriminate; try lia; auto;
    repeat match goal with H : _ \/ _ |- _ => destruct H end;
    try discriminate.
Qed.

Lemma set_mood_enumerated_witness :
  let self' :=
    set_mood SCARY (init 400 200 60 (10, 10, 15) (0, 255, 255) 0 0) in
  In SCARY moods
  /\ mood self' = SCARY
  /\ tired self' = true
  /\ count_true (mood_flags self') = 1%nat.
Proof.
  intros self'.
  assert (In SCARY moods) as Hin by (unfold moods; simpl; tauto).
  destruct (set_mood_enumerated SCARY
              (init 400 200 60 (10, 10, 15) (0, 255, 255) 0 0) Hin)
    as (A & B & _).
  split; [exact Hin|]. split; [exact A|]. split; reflexivity.
Defined.

(** C10.  A mood value outside the enumeration is accepted: [set_mood]
    returns, [mood] reads the value back and the five derived flags are all
    cleared. *)
Theorem set_mood_outside_enumeration (value : Z) (self : RoboEyes) :
  ~ In value moods ->
  let self' := set_mood value self in
  mood self' = value
  /\ tired self' = false
  /\ angry self' = false
  /\ happy self' = false
  /\ curious self' = false
  /\ sad self' = false.
Proof.
  intros Hout.
  assert (value <> 1 /\ value <> 2 /\ value <> 3 /\ value <> 5
          /\ value <> 6 /\ value <> 7) as (H1 & H2 & H3 & H5 & H6 & H7).
  { unfold moods, DEFAULT, TIRED, ANGRY, HAPPY, FROZEN, SCARY, CURIOUS, SAD
      in Hout. simpl in Hout. repeat split; intros ->; apply Hout; tauto. }
  unfold set_mood, mood, curious, TIRED, SCARY, ANGRY, HAPPY, CURIOUS, SAD.
  simpl.
  repeat split; try reflexivity;
    repeat match goal with
    | |- context [?a =? ?b] => destruct (Z.eqb_spec a b); [congruence|]
    end; reflexivity.
Qed.

Lemma set_mood_outside_enumeration_witness :
  let self' := set_mood 42 (init 400 200 60 (10, 10, 15) (0, 255, 255) 0 0) in
  ~ In 42 moods
  /\ mood self' = 42
  /\ mood_flags self' = [false; false; false; false; false].
Proof.
  intros self'.
  assert (~ In 42 moods) as Hout.
  { unfold moods, DEFAULT, TIRED, ANGRY, HAPPY, FROZEN, SCARY, CURIOUS, SAD.
    simpl. intuition discriminate. }
  destruct (set_mood_outside_enumeration 42
              (init 400 200 60 (10, 10, 15) (0, 255, 255) 0 0) Hout)
    as (A & _).
  split; [exact Hout|]. split; [exact A|reflexivity].
Defined.

(** ** Wink *)

(** C3.  [wink] with neither side true ([False] or [None] for both) raises
    [ValueError] at once and leaves the object as it was. *)
Theorem wink_requires_a_side (left right : option bool) (now : Z)
    (self : RoboEyes) :
  truthy left = false -> truthy right = false ->
  wink left right now self
  = (Raise (ValueError "wink requires left or right True"), self).
Proof.
  intros Hl Hr. unfold wink. rewrite Hl, Hr. reflexivity.
Qed.

Lemma wink_requires_a_side_witness :
  let self := init 400 200 60 (10, 10, 15) (0, 255, 255) 0 0 in
  wink (Some false) (Some false) 5000 self
  = (Raise (ValueError "wink requires left or right True"), self).
Proof.
  exact (wink_requires_a_side (Some false) (Some false) 5000
           (init 400 200 60 (10, 10, 15) (0, 255, 255) 0 0)
           eq_refl eq_refl).
Defined.

(** ** Attributes a phase leaves alone *)

(** An attribute read through an eraser that does not blank it. *)
Lemma field_off {A : Type} (erase : Attrs -> Attrs) (f : Attrs -> A) :
  (forall a, f (erase a) = f a) ->
  forall a0 a1, erase a1 = erase a0 -> f a1 = f a0.
Proof.
  intros Hf a0 a1 H. rewrite <- (Hf a1), <- (Hf a0), H. reflexivity.
Qed.

(** A coarser eraser forgets what a finer one forgets. *)
Lemma erase_coarser (fine coarse : Attrs -> Attrs) :
  (forall a, coarse (fine a) = coarse a) ->
  forall a0 a1, fine a1 = fine a0 -> coarse a1 = coarse a0.
Proof.
  intros Hc a0 a1 H. rewrite <- (Hc a1), <- (Hc a0), H. reflexivity.
Qed.

Ltac off H :=
  match type of H with
  | ?erase ?a1 = ?erase ?a0 =>
      match goal with
      | |- ?f a1 = ?f a0 =>
          exact (field_off erase f (fun _ => eq_refl) a0 a1 H)
      end
  end.

Ltac split_ifs :=
  repeat match goal with
  | |- context [if ?c then _ else _] => destruct c eqn:?
  end.

(** ** The engine's own sequences *)

Lemma reopen_lids (left right : bool) (a : Attrs) :
  no_lids (reopen left right a) = no_lids a.
Proof.
  destruct a; unfold reopen; destruct left, right; simpl;
    try reflexivity;
    match goal with |- context [negb ?c] => destruct c end; reflexivity.
Qed.

Lemma sequences_update_sequences (ticks : Z) (self : RoboEyes) :
  sequences (sequences_update ticks self)
  = map (sequence_after ticks) (sequences self).
Proof.
  unfold sequences_update.
  pose proof (Sequences_update_fst ticks (sequences self) (attrs self)) as H.
  destruct (Sequences.update ticks (sequences self) (attrs self)); exact H.
Qed.

Lemma sequences_update_attrs (ticks : Z) (self : RoboEyes) :
  attrs (sequences_update ticks self)
  = snd (Sequences.update ticks (sequences self) (attrs self)).
Proof.
  unfold sequences_update.
  destruct (Sequences.update ticks (sequences self) (attrs self));
    reflexivity.
Qed.

(** A property of the attributes kept by every [reopen] is kept by the
    scheduler of the engine's own sequences. *)
Lemma sequences_update_keeps (P : Attrs -> Prop) (ticks : Z)
    (self : RoboEyes) :
  engine_sequences self ->
  (forall left right a, P a -> P (reopen left right a)) ->
  P (attrs self) -> P (attrs (sequences_update ticks self)).
Proof.
  intros He HP H0. rewrite sequences_update_attrs.
  apply (Sequences_update_keeps P); [|exact H0].
  unfold engine_sequences in He.
  eapply Forall_impl; [|exact He]. intros q Hq.
  eapply Forall_impl; [|exact Hq]. intros s (l & r & ->) a Ha.
  apply HP, Ha.
Qed.

(** It changes height targets and open flags only. *)
Lemma sequences_update_lids (ticks : Z) (self : RoboEyes) :
  engine_sequences self ->
  no_lids (attrs (sequences_update ticks self)) = no_lids (attrs self).
Proof.
  intros He.
  apply (sequences_update_keeps
           (fun a => no_lids a = no_lids (attrs self))); auto.
  intros l r a Ha. rewrite reopen_lids. exact Ha.
Qed.

Lemma engine_step_after (st ticks : Z) (s : StepData.t Attrs) :
  engine_step s -> engine_step (step_after st ticks s).
Proof.
  unfold engine_step. rewrite step_after_callback. auto.
Qed.

Lemma engine_sequence_after (ticks : Z) (q : Sequence.t Attrs) :
  Forall engine_step (Sequence.steps q) ->
  Forall engine_step (Sequence.steps (sequence_after ticks q)).
Proof.
  intros H. unfold sequence_after.
  destruct (Sequence._start q); [|exact H]. simpl.
  apply Forall_map. eapply Forall_impl; [|exact H].
  intros s. apply engine_step_after.
Qed.

Lemma sequences_update_engine (ticks : Z) (self : RoboEyes) :
  engine_sequences self -> engine_sequences (sequences_update ticks self).
Proof.
  unfold engine_sequences. rewrite sequences_update_sequences.
  intros H. apply Forall_map. eapply Forall_impl; [|exact H].
  intros q. apply engine_sequence_after.
Qed.

Lemma on_last {Owner : Type} (m : Sequence.t Owner -> Sequence.t Owner)
    (l : list (Sequence.t Owner)) (q : Sequence.t Owner) :
  Sequences.on (List.length l) m (l ++ [q]) = l ++ [m q].
Proof.
  induction l as [|q0 l IH]; simpl; [reflexivity|]. now rewrite IH.
Qed.

(** What [_schedule_open] does to the object: one more sequence, started
    at [now], whose only step reopens after 120 ms. *)
Lemma _schedule_open_eq (left right : bool) (now : Z) (self : RoboEyes) :
  _schedule_open left right now self
  = with_sequences
      (sequences self
       ++ [ {| Sequence.name := "blink";
               Sequence._start := Some now;
               Sequence.steps := [StepData.init 120 (reopen left right)] |} ])
      self.
Proof.
  unfold _schedule_open, Sequences.add.
  rewrite on_last, on_last. reflexivity.
Qed.

Lemma _schedule_open_attrs (left right : bool) (now : Z) (self : RoboEyes) :
  attrs (_schedule_open left right now self) = attrs self.
Proof. rewrite _schedule_open_eq. reflexivity. Qed.

Lemma _schedule_open_engine (left right : bool) (now : Z) (self : RoboEyes) :
  engine_sequences self ->
  engine_sequences (_schedule_open left right now self).
Proof.
  intros H. rewrite _schedule_open_eq. unfold engine_sequences. simpl.
  apply Forall_app. split; [exact H|].
  repeat constructor. exists left, right. reflexivity.
Qed.

Lemma blink_engine (left right : option bool) (now : Z) (self : RoboEyes) :
  engine_sequences self -> engine_sequences (blink left right now self).
Proof.
  intros H. unfold blink.
  destruct left as [[|]|], right as [[|]|]; cbv beta iota zeta;
    apply _schedule_open_engine; split_ifs; exact H.
Qed.

Lemma blink_lids (left right : option bool) (t : Z) (self : RoboEyes) :
  no_lids (attrs (blink left right t self)) = no_lids (attrs self).
Proof.
  unfold blink.
  destruct left as [[|]|], right as [[|]|]; cbv beta iota zeta;
    rewrite _schedule_open_attrs;
    destruct self as [a l]; destruct a; simpl; split_ifs; reflexivity.
Qed.

(** ** The shape of one [update] *)

Lemma update_eq (e : Tick) (self : RoboEyes) :
  update e self
  = if coalesced e (sequences_update (seq_ticks e) self)
    then (Return tt, sequences_update (seq_ticks e) self)
    else frame e (sequences_update (seq_ticks e) self).
Proof.
  unfold update, bind, call, get, ret.
  destruct (coalesced e (sequences_update (seq_ticks e) self)); reflexivity.
Qed.

Lemma coalesced_after_sequences (e : Tick) (ticks : Z) (self : RoboEyes) :
  engine_sequences self ->
  coalesced e (sequences_update ticks self) = coalesced e self.
Proof.
  intros H. unfold coalesced.
  pose proof (sequences_update_lids ticks self H) as E.
  f_equal; [f_equal|]; off E.
Qed.
(** Normal forms that keep the arithmetic folded. *)
Ltac norm :=
  cbv -[lerp shake Z.add Z.sub Z.mul Z.div Z.modulo Z.opp Z.max
        Z.ltb Z.gtb Z.geb Z.leb Z.eqb].

(** Running a composed call. *)
Ltac run_m :=
  cbv beta iota zeta delta [after bind get call ret raise randint fst snd].

(** *** Auto-blink *)

(** When auto-blink is due the object blinks both eyes, and the next
    auto-blink is scheduled unless the draw of the jitter raises. *)
Lemma auto_blink_cases (e : Tick) (self : RoboEyes) :
  (auto_blink_due e self = false /\ auto_blink e self = (Return tt, self))
  \/ (auto_blink_due e self = true
      /\ ((exists x, auto_blink e self
             = (Raise x, blink None None (blink_start e) self))
          \/ (exists v, auto_blink e self
                = (Return tt,
                   assign (with__next_blink v)
                     (blink None None (blink_start e) self))))).
Proof.
  unfold auto_blink, auto_blink_due, bind, get, call, ret.
  destruct (autoblinker self && (now e >=? _next_blink self)).
  - right. split; [reflexivity|]. unfold randint.
    destruct (blink_interval_variation
                (blink None None (blink_start e) self) <? 0).
    + left. eexists. reflexivity.
    + right. eexists. reflexivity.
  - left. split; reflexivity.
Qed.

Lemma auto_blink_blink (e : Tick) (self : RoboEyes) :
  no_blink (attrs (after (auto_blink e) self)) = no_blink (attrs self).
Proof.
  pose proof (blink_lids None None (blink_start e) self) as E.
  unfold after.
  destruct (auto_blink_cases e self) as [[_ ->]|[_ [[x ->]|[v ->]]]];
    cbn [snd].
  - reflexivity.
  - exact (erase_coarser no_lids no_blink (fun _ => eq_refl) _ _ E).
  - exact (erase_coarser no_lids no_blink (fun _ => eq_refl) _ _ E).
Qed.

Lemma auto_blink_engine (e : Tick) (self : RoboEyes) :
  engine_sequences self -> engine_sequences (after (auto_blink e) self).
Proof.
  intros H. unfold after.
  destruct (auto_blink_cases e self) as [[_ ->]|[_ [[x ->]|[v ->]]]];
    cbn [snd].
  - exact H.
  - apply blink_engine, H.
  - apply (blink_engine None None (blink_start e) self H).
Qed.

(** *** Idle reposition *)

(** It sets the position target of the left eye and its own timer. *)
Lemma idle_reposition_target (e : Tick) (self : RoboEyes) :
  no_idle_target (attrs (after (idle_reposition e) self))
  = no_idle_target (attrs self)
  /\ sequences (after (idle_reposition e) self) = sequences self.
Proof.
  unfold idle_reposition. run_m.
  destruct (idle self && (now e >=? _next_idle self)); run_m;
    [|split; reflexivity].
  repeat (match goal with
          | |- context [if ?c then _ else _] => destruct c
          end; run_m);
    split; reflexivity.
Qed.

Lemma idle_reposition_off (e : Tick) (self : RoboEyes) :
  idle self = false -> idle_reposition e self = (Return tt, self).
Proof.
  intros H. unfold idle_reposition, bind, get, ret. rewrite H. reflexivity.
Qed.

(** *** Interpolation *)

Lemma interpolate_geometry (self : RoboEyes) :
  no_geometry (attrs (interpolate self)) = no_geometry (attrs self)
  /\ sequences (interpolate self) = sequences self.
Proof. split; reflexivity. Qed.

(** The values it assigns, in terms of the object before. *)
Lemma interpolate_values (self : RoboEyes) :
  let self' := interpolate self in
  eye_l_width_current self'
    = lerp (eye_l_width_current self) (eye_l_width_next self)
  /\ eye_r_width_current self'
    = lerp (eye_r_width_current self) (eye_r_width_next self)
  /\ eye_l_height_current self'
    = lerp (eye_l_height_current self) (eye_l_height_next self)
  /\ eye_r_height_current self'
    = lerp (eye_r_height_current self) (eye_r_height_next self)
  /\ eye_l_radius_current self'
    = lerp (eye_l_radius_current self) (eye_l_radius_next self)
  /\ eye_r_radius_current self'
    = lerp (eye_r_radius_current self) (eye_r_radius_next self)
  /\ space_between_current self'
    = lerp (space_between_current self) (space_between_next self)
  /\ eye_l_x self' = lerp (eye_l_x self) (eye_l_x_next self)
  /\ eye_l_y self' = lerp (eye_l_y self) (eye_l_y_next self)
  /\ eye_r_x_next self'
    = eye_l_x_next self' + eye_l_width_current self'
      + space_between_current self'
  /\ eye_r_y_next self' = eye_l_y_next self'
  /\ eye_r_x self' = lerp (eye_r_x self) (eye_r_x_next self')
  /\ eye_r_y self' = lerp (eye_r_y self) (eye_r_y_next self').
Proof. norm. repeat split; reflexivity. Qed.

(** *** The end of a frame *)

Lemma wink_restore_overlays (now : Z) (self : RoboEyes) :
  no_overlays (attrs (wink_restore now self)) = no_overlays (attrs self)
  /\ sequences (wink_restore now self) = sequences self.
Proof.
  unfold wink_restore.
  destruct ((_wink_left self || _wink_right self)
            && (now - wink_timer self >? wink_duration self));
    [|split; reflexivity].
  destruct (_wink_left self); cbn;
    destruct (_wink_right self && negb (_cyclops self));
    split; reflexivity.
Qed.

Lemma confuse_jitter_overlays (now : Z) (self : RoboEyes) :
  no_overlays (attrs (confuse_jitter now self)) = no_overlays (attrs self)
  /\ sequences (confuse_jitter now self) = sequences self.
Proof.
  unfold confuse_jitter. split_ifs; split; reflexivity.
Qed.

Lemma laugh_jitter_overlays (now : Z) (self : RoboEyes) :
  no_overlays (attrs (laugh_jitter now self)) = no_overlays (attrs self)
  /\ sequences (laugh_jitter now self) = sequences self.
Proof.
  unfold laugh_jitter. split_ifs; split; reflexivity.
Qed.

Lemma overlays_overlays (now : Z) (self : RoboEyes) :
  no_overlays (attrs (overlays now self)) = no_overlays (attrs self)
  /\ sequences (overlays now self) = sequences self.
Proof.
  unfold overlays.
  destruct (wink_restore_overlays now self) as [A1 B1].
  destruct (confuse_jitter_overlays now (wink_restore now self)) as [A2 B2].
  destruct (laugh_jitter_overlays now
              (confuse_jitter now (wink_restore now self))) as [A3 B3].
  split; congruence.
Qed.
(** *** The whole call *)

(** A call of [update] ends in one of three ways: coalesced, after the
    sequences; with an exception of a draw, in the triggers; or after the
    end of the frame. *)
Lemma update_cases (e : Tick) (self : RoboEyes) :
  (coalesced e (sequences_update (seq_ticks e) self) = true
   /\ update e self = (Return tt, sequences_update (seq_ticks e) self))
  \/ (coalesced e (sequences_update (seq_ticks e) self) = false
      /\ ((exists x,
             update e self
             = (Raise x,
                after (auto_blink e)
                  (assign (with_fps_timer (now e))
                     (sequences_update (seq_ticks e) self))))
          \/ (exists x, update e self = (Raise x, triggered e self))
          \/ update e self
             = (Return tt, overlays (now e) (interpolate (triggered e self))))).
Proof.
  rewrite update_eq.
  destruct (coalesced e (sequences_update (seq_ticks e) self));
    [left; split; reflexivity|right; split; [reflexivity|]].
  unfold triggered, frame, bind, call, after, overlays. cbv beta iota.
  destruct (auto_blink e
              (assign (with_fps_timer (now e))
                 (sequences_update (seq_ticks e) self))) as [[u|x] s3];
    cbn [snd]; [|left; exists x; reflexivity].
  destruct (idle_reposition e s3) as [[u'|x] s4]; cbn [snd].
  - right. right. reflexivity.
  - right. left. exists x. reflexivity.
Qed.

(** The triggers keep the sequences the engine's own. *)
Lemma triggered_engine (e : Tick) (self : RoboEyes) :
  engine_sequences self -> engine_sequences (triggered e self).
Proof.
  intros H. unfold triggered, engine_sequences.
  destruct (idle_reposition_target e
              (after (auto_blink e)
                 (assign (with_fps_timer (now e))
                    (sequences_update (seq_ticks e) self)))) as [_ ->].
  apply auto_blink_engine.
  apply (sequences_update_engine (seq_ticks e) self H).
Qed.

Lemma update_engine (e : Tick) (self : RoboEyes) :
  engine_sequences self -> engine_sequences (after (update e) self).
Proof.
  intros H. unfold after.
  destruct (update_cases e self) as [[_ ->]|[_ [[x ->]|[[x ->]| ->]]]];
    cbn [snd].
  - apply sequences_update_engine, H.
  - apply auto_blink_engine.
    apply (sequences_update_engine (seq_ticks e) self H).
  - apply triggered_engine, H.
  - unfold engine_sequences.
    destruct (overlays_overlays (now e) (interpolate (triggered e self)))
      as [_ ->].
    apply (triggered_engine e self H).
Qed.

(** An attribute that neither the lids, the timers nor the position target
    of the left eye is the same when the triggers are through. *)
Lemma triggered_field {A : Type} (f : Attrs -> A) (e : Tick)
    (self : RoboEyes) :
  engine_sequences self ->
  (forall a, f (no_lids a) = f a) ->
  (forall v a, f (with_fps_timer v a) = f a) ->
  (forall a, f (no_blink a) = f a) ->
  (forall a, f (no_idle_target a) = f a) ->
  f (attrs (triggered e self)) = f (attrs self).
Proof.
  intros He H1 H2 H3 H4. unfold triggered.
  set (s1 := sequences_update (seq_ticks e) self).
  set (s2 := assign (with_fps_timer (now e)) s1).
  set (s3 := after (auto_blink e) s2).
  destruct (idle_reposition_target e s3) as [E4 _].
  transitivity (f (attrs s3));
    [exact (field_off no_idle_target f H4 _ _ E4)|].
  transitivity (f (attrs s2));
    [exact (field_off no_blink f H3 _ _ (auto_blink_blink e s2))|].
  transitivity (f (attrs s1)); [exact (H2 (now e) (attrs s1))|].
  exact (field_off no_lids f H1 _ _ (sequences_update_lids _ self He)).
Qed.

Lemma overlays_field {A : Type} (f : Attrs -> A) (now : Z)
    (self : RoboEyes) :
  (forall a, f (no_overlays a) = f a) ->
  f (attrs (overlays now self)) = f (attrs self).
Proof.
  intros H. destruct (overlays_overlays now self) as [E _].
  exact (field_off no_overlays f H _ _ E).
Qed.

Lemma interpolate_field {A : Type} (f : Attrs -> A) (self : RoboEyes) :
  (forall a, f (no_geometry a) = f a) ->
  f (attrs (interpolate self)) = f (attrs self).
Proof.
  intros H. destruct (interpolate_geometry self) as [E _].
  exact (field_off no_geometry f H _ _ E).
Qed.
(** A sequence that is done is left as it is, and so is the owner. *)
Lemma update_steps_done {Owner : Type} (st ticks : Z)
    (l : list (StepData.t Owner)) (o : Owner) :
  forallb StepData.done l = true ->
  Sequence.update_steps st ticks l o = (l, o).
Proof.
  induction l as [|s l IH]; intros H; simpl; [reflexivity|].
  simpl in H. apply andb_prop in H as [Hs Hl].
  rewrite Hs. simpl. rewrite (IH Hl). reflexivity.
Qed.

Lemma Sequence_update_done {Owner : Type} (ticks : Z)
    (q : Sequence.t Owner) (o : Owner) :
  Sequence.done q = true -> Sequence.update ticks q o = (q, o).
Proof.
  unfold Sequence.done, Sequence.update. destruct q as [nm [st|] l]; simpl;
    [|reflexivity].
  intros H. rewrite (update_steps_done st ticks l o H). reflexivity.
Qed.


Lemma update_processed (e : Tick) (self : RoboEyes) :
  coalesced e (sequences_update (seq_ticks e) self) = false ->
  fst (update e self) = Return tt ->
  update e self
  = (Return tt, overlays (now e) (interpolate (triggered e self))).
Proof.
  intros Hc Hr.
  destruct (update_cases e self) as [[Hc' _]|[_ [[x E]|[[x E]|E]]]].
  - congruence.
  - rewrite E in Hr. discriminate.
  - rewrite E in Hr. discriminate.
  - exact E.
Qed.

(** ** The frame limiter *)



(** ** Attributes the other operations leave alone *)

Lemma wink_lids (left right : option bool) (t : Z) (self : RoboEyes) :
  no_wink (attrs (after (wink left right t) self)) = no_wink (attrs self)
  /\ sequences (after (wink left right t) self) = sequences self.
Proof.
  unfold after, wink, raise, ret.
  destruct (negb (truthy left || truthy right)); cbn [snd];
    [split; reflexivity|].
  destruct (truthy left); cbn;
    destruct (truthy right && negb (_cyclops self)); split; reflexivity.
Qed.

(** No operation but [update] assigns the position target of the right
    eye. *)
Lemma perform_right_target (op : Op) (self : RoboEyes) :
  (forall e, op <> Update e) ->
  eye_r_x_next (after (perform op) self) = eye_r_x_next self
  /\ eye_r_y_next (after (perform op) self) = eye_r_y_next self.
Proof.
  intros Hop.
  destruct op as [fps|l r|l r|l r|sp|v|v|v|a i v t|a i v t|en|sc pu ou|d
                 |l r t|l r t|t|t|t|t|e0];
    cbn [perform]; try (unfold after, call; cbn [snd]).
  - split; reflexivity.
  - unfold eyes_width. destruct l, r; split; reflexivity.
  - unfold eyes_height. destruct l, r; split; reflexivity.
  - unfold eyes_radius. destruct l, r; split; reflexivity.
  - split; reflexivity.
  - split; reflexivity.
  - split; reflexivity.
  - split; reflexivity.
  - unfold set_auto_blinker. destruct i, v; split; reflexivity.
  - unfold set_idle_mode. destruct i, v; split; reflexivity.
  - split; reflexivity.
  - unfold set_eye_palette. destruct sc, pu, ou; split; reflexivity.
  - unfold set_position. split_ifs; split; reflexivity.
  - pose proof (blink_lids l r t self) as E. split; off E.
  - destruct (wink_lids l r t self) as [E _]. split.
    + exact (field_off no_wink (fun a => eye_r_x_next a)
               (fun _ => eq_refl) _ _ E).
    + exact (field_off no_wink (fun a => eye_r_y_next a)
               (fun _ => eq_refl) _ _ E).
  - unfold wink_left. destruct (_cyclops self).
    + unfold after, call; cbn [snd].
      pose proof (blink_lids (Some true) None t self) as E. split; off E.
    + destruct (wink_lids (Some true) (Some false) t self) as [E _]. split.
      * exact (field_off no_wink (fun a => eye_r_x_next a)
                 (fun _ => eq_refl) _ _ E).
      * exact (field_off no_wink (fun a => eye_r_y_next a)
                 (fun _ => eq_refl) _ _ E).
  - unfold wink_right. destruct (_cyclops self).
    + unfold after, call; cbn [snd].
      pose proof (blink_lids None (Some true) t self) as E. split; off E.
    + destruct (wink_lids (Some false) (Some true) t self) as [E _]. split.
      * exact (field_off no_wink (fun a => eye_r_x_next a)
                 (fun _ => eq_refl) _ _ E).
      * exact (field_off no_wink (fun a => eye_r_y_next a)
                 (fun _ => eq_refl) _ _ E).
  - split; reflexivity.
  - split; reflexivity.
  - exfalso. apply (Hop e0). reflexivity.
Qed.

(** ** The right eye follows the left *)

(** C9.  After every call of [update] that gets past the frame limiter and
    returns, the position target of the right eye is the one derived from
    the left eye: [eye_r_x_next = eye_l_x_next + eye_l_width_current +
    space_between_current] and [eye_r_y_next = eye_l_y_next]; and no other
    public operation assigns the position target of the right eye. *)
Theorem right_eye_target_derived (e : Tick) (self : RoboEyes) :
  coalesced e (sequences_update (seq_ticks e) self) = false ->
  fst (update e self) = Return tt ->
  let self' := after (update e) self in
  eye_r_x_next self'
  = eye_l_x_next self' + eye_l_width_current self'
    + space_between_current self'
  /\ eye_r_y_next self' = eye_l_y_next self'
  /\ (forall op r, (forall e', op <> Update e') ->
        eye_r_x_next (after (perform op) r) = eye_r_x_next r
        /\ eye_r_y_next (after (perform op) r) = eye_r_y_next r).
Proof.
  intros Hc Hr self'. unfold self', after.
  rewrite (update_processed e self Hc Hr). cbn [snd].
  set (t := interpolate (triggered e self)).
  rewrite (overlays_field (fun a => eye_r_x_next a) (now e) t
             (fun _ => eq_refl)).
  rewrite (overlays_field (fun a => eye_l_x_next a) (now e) t
             (fun _ => eq_refl)).
  rewrite (overlays_field (fun a => eye_l_width_current a) (now e) t
             (fun _ => eq_refl)).
  rewrite (overlays_field (fun a => space_between_current a) (now e) t
             (fun _ => eq_refl)).
  rewrite (overlays_field (fun a => eye_r_y_next a) (now e) t
             (fun _ => eq_refl)).
  rewrite (overlays_field (fun a => eye_l_y_next a) (now e) t
             (fun _ => eq_refl)).
  destruct (interpolate_values (triggered e self))
    as (_ & _ & _ & _ & _ & _ & _ & _ & _ & A & B & _).
  split; [exact A|]. split; [exact B|].
  intros op r. apply perform_right_target.
Qed.

Lemma right_eye_target_derived_witness :
  let self :=
    eyes_width (Some 40) None
      (init 400 200 60 (10, 10, 15) (0, 255, 255) 0 0) in
  let e := BuildTick 1000 1000 1000 0 0 0 0 in
  eye_r_x_next self = 230
  /\ eye_l_width_current (after (update e) self) = 60
  /\ eye_r_x_next (after (update e) self) = 90 + 60 + 60.
Proof.
  intros self e.
  destruct (right_eye_target_derived e self eq_refl eq_refl) as (A & _).
  split; [reflexivity|]. split; [reflexivity|].
  rewrite A. reflexivity.
Defined.
(** ** Halfway interpolation *)

Lemma lerp_between (c n : Z) :
  (c <= n -> c <= lerp c n <= n) /\ (n <= c -> n <= lerp c n <= c).
Proof.
  unfold lerp. split; intros H; Z.to_euclidean_division_equations; lia.
Qed.

Lemma lerp_from_above (c n : Z) : n <= c -> 2 * (lerp c n - n) <= c - n.
Proof. unfold lerp. intros H. Z.to_euclidean_division_equations. lia. Qed.

Lemma lerp_from_below (c n : Z) :
  c < n -> lerp c n < n /\ 2 * (n - lerp c n) <= n - c + 1.
Proof. unfold lerp. intros H. Z.to_euclidean_division_equations. lia. Qed.

Lemma lerp_ticks_between (k : nat) (c n : Z) :
  (c <= n -> c <= lerp_ticks k c n <= n)
  /\ (n <= c -> n <= lerp_ticks k c n <= c).
Proof.
  revert c. induction k as [|k IH]; intros c; simpl; [lia|].
  destruct (lerp_between c n) as [A B].
  destruct (IH (lerp c n)) as [A' B']. split; intros H.
  - specialize (A H). specialize (A' ltac:(lia)). lia.
  - specialize (B H). specialize (B' ltac:(lia)). lia.
Qed.

Lemma lerp_ticks_from_above (k : nat) (c n : Z) :
  n <= c -> c - n < 2 ^ Z.of_nat k -> lerp_ticks k c n = n.
Proof.
  revert c. induction k as [|k IH]; intros c Hge Hlt.
  - simpl in *. lia.
  - simpl. rewrite Nat2Z.inj_succ, Z.pow_succ_r in Hlt by lia.
    pose proof (lerp_from_above c n Hge).
    destruct (lerp_between c n) as [_ B]. specialize (B Hge).
    apply IH; lia.
Qed.

Lemma lerp_ticks_from_below (k : nat) (c n : Z) :
  c < n ->
  lerp_ticks k c n < n
  /\ (n - c <= 2 ^ Z.of_nat k -> lerp_ticks k c n = n - 1).
Proof.
  revert c. induction k as [|k IH]; intros c Hlt.
  - simpl. split; [exact Hlt|]. lia.
  - cbn [lerp_ticks]. destruct (lerp_from_below c n Hlt) as [A B].
    destruct (IH (lerp c n) A) as [C D]. split; [exact C|].
    intros Hk. rewrite Nat2Z.inj_succ, Z.pow_succ_r in Hk by lia.
    apply D. lia.
Qed.

Lemma update_processed_engine (e : Tick) (self : RoboEyes) :
  engine_sequences self ->
  coalesced e self = false ->
  fst (update e self) = Return tt ->
  after (update e) self = overlays (now e) (interpolate (triggered e self)).
Proof.
  intros He Hc Hr. unfold after.
  rewrite (update_processed e self); [reflexivity| |exact Hr].
  rewrite coalesced_after_sequences; assumption.
Qed.

(** A size with its target, an attribute pair that the triggers, the
    interpolation of the other attributes and the end of the frame leave
    alone. *)
Lemma update_size (cur nxt : Attrs -> Z) (e : Tick) (self : RoboEyes) :
  (forall a, cur (no_lids a) = cur a) ->
  (forall v a, cur (with_fps_timer v a) = cur a) ->
  (forall a, cur (no_blink a) = cur a) ->
  (forall a, cur (no_idle_target a) = cur a) ->
  (forall a, cur (no_overlays a) = cur a) ->
  (forall a, nxt (no_lids a) = nxt a) ->
  (forall v a, nxt (with_fps_timer v a) = nxt a) ->
  (forall a, nxt (no_blink a) = nxt a) ->
  (forall a, nxt (no_idle_target a) = nxt a) ->
  (forall a, nxt (no_geometry a) = nxt a) ->
  (forall a, nxt (no_overlays a) = nxt a) ->
  (forall r : RoboEyes,
     cur (attrs (interpolate r)) = lerp (cur (attrs r)) (nxt (attrs r))) ->
  engine_sequences self ->
  coalesced e self = false ->
  fst (update e self) = Return tt ->
  cur (attrs (after (update e) self))
  = lerp (cur (attrs self)) (nxt (attrs self))
  /\ nxt (attrs (after (update e) self)) = nxt (attrs self).
Proof.
  intros C1 C2 C3 C4 C5 N1 N2 N3 N4 N5 N6 Hi He Hc Hr.
  rewrite (update_processed_engine e self He Hc Hr).
  rewrite (overlays_field cur _ _ C5), (overlays_field nxt _ _ N6).
  rewrite Hi, (interpolate_field nxt _ N5).
  rewrite (triggered_field cur e self He C1 C2 C3 C4).
  rewrite (triggered_field nxt e self He N1 N2 N3 N4).
  split; reflexivity.
Qed.

Ltac size_pair cur nxt e self He Hc Hr :=
  apply (update_size cur nxt e self
           (fun _ => eq_refl) (fun _ _ => eq_refl) (fun _ => eq_refl)
           (fun _ => eq_refl) (fun _ => eq_refl)
           (fun _ => eq_refl) (fun _ _ => eq_refl) (fun _ => eq_refl)
           (fun _ => eq_refl) (fun _ => eq_refl) (fun _ => eq_refl)
           (fun _ => eq_refl) He Hc Hr).

Lemma update_eye_l_width (e : Tick) (self : RoboEyes) :
  engine_sequences self ->
  coalesced e self = false ->
  fst (update e self) = Return tt ->
  eye_l_width_current (after (update e) self)
  = lerp (eye_l_width_current self) (eye_l_width_next self)
  /\ eye_l_width_next (after (update e) self) = eye_l_width_next self.
Proof.
  intros He Hc Hr.
  size_pair eye_l_width_current eye_l_width_next e self He Hc Hr.
Qed.

Lemma updates_eye_l_width (es : list Tick) (self : RoboEyes) :
  engine_sequences self ->
  all_processed es self ->
  eye_l_width_current (updates es self)
  = lerp_ticks (List.length es)
      (eye_l_width_current self) (eye_l_width_next self)
  /\ eye_l_width_next (updates es self) = eye_l_width_next self.
Proof.
  revert self. induction es as [|e es IH]; intros self He Hp.
  - simpl. split; reflexivity.
  - simpl in Hp. destruct Hp as (Hc & Hr & Hp). simpl.
    destruct (update_eye_l_width e self He Hc Hr) as [A B].
    destruct (IH (after (update e) self) (update_engine e self He) Hp)
      as [C D].
    rewrite C, D, A, B. split; reflexivity.
Qed.
Lemma wink_restore_wink (now : Z) (self : RoboEyes) :
  no_wink (attrs (wink_restore now self)) = no_wink (attrs self).
Proof.
  unfold wink_restore.
  destruct ((_wink_left self || _wink_right self)
            && (now - wink_timer self >? wink_duration self));
    [|reflexivity].
  destruct (_wink_left self); cbn;
    destruct (_wink_right self && negb (_cyclops self)); reflexivity.
Qed.

Lemma confuse_jitter_off (now : Z) (self : RoboEyes) :
  _confused self = false -> confuse_jitter now self = self.
Proof. intros H. unfold confuse_jitter. rewrite H. reflexivity. Qed.

Lemma laugh_jitter_off (now : Z) (self : RoboEyes) :
  _laugh self = false -> laugh_jitter now self = self.
Proof. intros H. unfold laugh_jitter. rewrite H. reflexivity. Qed.

Lemma laugh_jitter_x (now : Z) (self : RoboEyes) :
  eye_l_x (laugh_jitter now self) = eye_l_x self
  /\ eye_r_x (laugh_jitter now self) = eye_r_x self.
Proof. unfold laugh_jitter. split_ifs; split; reflexivity. Qed.

Lemma confuse_jitter_y (now : Z) (self : RoboEyes) :
  eye_l_y (confuse_jitter now self) = eye_l_y self
  /\ eye_r_y (confuse_jitter now self) = eye_r_y self
  /\ _laugh (confuse_jitter now self) = _laugh self.
Proof. unfold confuse_jitter. split_ifs; repeat split; reflexivity. Qed.

(** Without confusion the end of the frame keeps the horizontal positions,
    and without laughter the vertical ones. *)
Lemma overlays_x (now : Z) (self : RoboEyes) :
  _confused self = false ->
  eye_l_x (overlays now self) = eye_l_x self
  /\ eye_r_x (overlays now self) = eye_r_x self.
Proof.
  intros Hc. pose proof (wink_restore_wink now self) as E.
  assert (_confused (wink_restore now self) = false) as Hc'.
  { rewrite <- Hc. off E. }
  unfold overlays.
  destruct (laugh_jitter_x now (confuse_jitter now (wink_restore now self)))
    as [-> ->].
  rewrite (confuse_jitter_off now _ Hc'). split; off E.
Qed.

Lemma overlays_y (now : Z) (self : RoboEyes) :
  _laugh self = false ->
  eye_l_y (overlays now self) = eye_l_y self
  /\ eye_r_y (overlays now self) = eye_r_y self.
Proof.
  intros Hl. pose proof (wink_restore_wink now self) as E.
  assert (_laugh (wink_restore now self) = false) as Hl'.
  { rewrite <- Hl. off E. }
  destruct (confuse_jitter_y now (wink_restore now self)) as (Y1 & Y2 & Y3).
  unfold overlays.
  rewrite (laugh_jitter_off now _ (eq_trans Y3 Hl')), Y1, Y2.
  split; off E.
Qed.

(** C1, as the code has it.  A call of [update] that gets past the frame
    limiter and returns replaces each current size by [lerp] of it and its
    target, the floor of their mean: so for the widths, the radii and the
    spacing, whose targets the call leaves alone; so for the heights, with
    the target as the sequences and auto-blink of that call leave it; so for
    the positions when no confuse or laugh jitter is added, with the target
    of the left eye as idle reposition leaves it and the target of the
    right eye as this call derives it.  Over [k] such calls with the target
    fixed the current value is [lerp_ticks k]: it stays between where it
    started and the target; from above or at the target it equals the target
    as soon as [2 ^ k] exceeds the distance; from below it never equals the
    target, and is one less than the target once [2 ^ k] reaches the
    distance. *)
Theorem halfway_interpolation :
  (forall e self,
     engine_sequences self ->
     coalesced e self = false ->
     fst (update e self) = Return tt ->
     let self' := after (update e) self in
     let t := triggered e self in
     (eye_l_width_current self'
        = lerp (eye_l_width_current self) (eye_l_width_next self)
      /\ eye_l_width_next self' = eye_l_width_next self)
     /\ (eye_r_width_current self'
           = lerp (eye_r_width_current self) (eye_r_width_next self)
         /\ eye_r_width_next self' = eye_r_width_next self)
     /\ (eye_l_radius_current self'
           = lerp (eye_l_radius_current self) (eye_l_radius_next self)
         /\ eye_l_radius_next self' = eye_l_radius_next self)
     /\ (eye_r_radius_current self'
           = lerp (eye_r_radius_current self) (eye_r_radius_next self)
         /\ eye_r_radius_next self' = eye_r_radius_next self)
     /\ (space_between_current self'
           = lerp (space_between_current self) (space_between_next self)
         /\ space_between_next self' = space_between_next self)
     /\ eye_l_height_current self'
        = lerp (eye_l_height_current self) (eye_l_height_next t)
     /\ eye_r_height_current self'
        = lerp (eye_r_height_current self) (eye_r_height_next t)
     /\ (_confused self = false ->
         eye_l_x self' = lerp (eye_l_x self) (eye_l_x_next t)
         /\ eye_r_x self' = lerp (eye_r_x self) (eye_r_x_next self'))
     /\ (_laugh self = false ->
         eye_l_y self' = lerp (eye_l_y self) (eye_l_y_next t)
         /\ eye_r_y self' = lerp (eye_r_y self) (eye_r_y_next self')))
  /\ (forall es self,
        engine_sequences self ->
        all_processed es self ->
        eye_l_width_current (updates es self)
        = lerp_ticks (List.length es)
            (eye_l_width_current self) (eye_l_width_next self)
        /\ eye_l_width_next (updates es self) = eye_l_width_next self)
  /\ (forall k c n,
        (c <= n -> c <= lerp_ticks k c n <= n)
        /\ (n <= c -> n <= lerp_ticks k c n <= c))
  /\ (forall k c n,
        n <= c -> c - n < 2 ^ Z.of_nat k -> lerp_ticks k c n = n)
  /\ (forall k c n,
        c < n ->
        lerp_ticks k c n < n
        /\ (n - c <= 2 ^ Z.of_nat k -> lerp_ticks k c n = n - 1)).
Proof.
  split; [|split; [|split; [|split]]].
  - intros e self He Hc Hr self' t.
    pose proof (update_processed_engine e self He Hc Hr) as E.
    fold self' in E. fold t in E.
    destruct (interpolate_values t)
      as (_ & _ & V3 & V4 & _ & _ & _ & V8 & V9 & _ & _ & V12 & V13).
    cbv zeta in V3, V4, V8, V9, V12, V13.
    assert (forall f : Attrs -> Z,
              (forall a, f (no_lids a) = f a) ->
              (forall v a, f (with_fps_timer v a) = f a) ->
              (forall a, f (no_blink a) = f a) ->
              (forall a, f (no_idle_target a) = f a) ->
              f (attrs t) = f (attrs self)) as Ht.
    { intros f F1 F2 F3 F4. apply (triggered_field f e self He F1 F2 F3 F4). }
    split; [size_pair eye_l_width_current eye_l_width_next e self He Hc Hr|].
    split; [size_pair eye_r_width_current eye_r_width_next e self He Hc Hr|].
    split; [size_pair eye_l_radius_current eye_l_radius_next e self He Hc Hr|].
    split; [size_pair eye_r_radius_current eye_r_radius_next e self He Hc Hr|].
    split;
      [size_pair space_between_current space_between_next e self He Hc Hr|].
    split; [|split; [|split]].
    + rewrite E.
      rewrite (overlays_field (fun a => eye_l_height_current a) _ _
                 (fun _ => eq_refl)), V3.
      rewrite (Ht (fun a => eye_l_height_current a) (fun _ => eq_refl)
                 (fun _ _ => eq_refl) (fun _ => eq_refl) (fun _ => eq_refl)).
      reflexivity.
    + rewrite E.
      rewrite (overlays_field (fun a => eye_r_height_current a) _ _
                 (fun _ => eq_refl)), V4.
      rewrite (Ht (fun a => eye_r_height_current a) (fun _ => eq_refl)
                 (fun _ _ => eq_refl) (fun _ => eq_refl) (fun _ => eq_refl)).
      reflexivity.
    + intros Hq.
      assert (_confused (interpolate t) = false) as Hq'.
      { rewrite <- Hq.
        rewrite (interpolate_field (fun a => _confused a) t
                   (fun _ => eq_refl)).
        apply (triggered_field (fun a => _confused a) e self He
                 (fun _ => eq_refl) (fun _ _ => eq_refl) (fun _ => eq_refl)
                 (fun _ => eq_refl)). }
      destruct (overlays_x (now e) (interpolate t) Hq') as [X1 X2].
      rewrite E, X1, X2, V8, V12.
      rewrite (overlays_field (fun a => eye_r_x_next a) _ _
                 (fun _ => eq_refl)).
      rewrite (Ht (fun a => eye_l_x a) (fun _ => eq_refl)
                 (fun _ _ => eq_refl) (fun _ => eq_refl) (fun _ => eq_refl)).
      rewrite (Ht (fun a => eye_r_x a) (fun _ => eq_refl)
                 (fun _ _ => eq_refl) (fun _ => eq_refl) (fun _ => eq_refl)).
      split; reflexivity.
    + intros Hq.
      assert (_laugh (interpolate t) = false) as Hq'.
      { rewrite <- Hq.
        rewrite (interpolate_field (fun a => _laugh a) t
                   (fun _ => eq_refl)).
        apply (triggered_field (fun a => _laugh a) e self He
                 (fun _ => eq_refl) (fun _ _ => eq_refl) (fun _ => eq_refl)
                 (fun _ => eq_refl)). }
      destruct (overlays_y (now e) (interpolate t) Hq') as [X1 X2].
      rewrite E, X1, X2, V9, V13.
      rewrite (overlays_field (fun a => eye_r_y_next a) _ _
                 (fun _ => eq_refl)).
      rewrite (Ht (fun a => eye_l_y a) (fun _ => eq_refl)
                 (fun _ _ => eq_refl) (fun _ => eq_refl) (fun _ => eq_refl)).
      rewrite (Ht (fun a => eye_r_y a) (fun _ => eq_refl)
                 (fun _ _ => eq_refl) (fun _ => eq_refl) (fun _ => eq_refl)).
      split; reflexivity.
  - apply updates_eye_l_width.
  - apply lerp_ticks_between.
  - apply lerp_ticks_from_above.
  - apply lerp_ticks_from_below.
Qed.
Lemma halfway_interpolation_witness :
  let self :=
    eyes_width (Some 40) None
      (init 400 200 60 (10, 10, 15) (0, 255, 255) 0 0) in
  let e := BuildTick 1000 1000 1000 0 0 0 0 in
  (eye_l_width_current self = 80 /\ eye_l_width_next self = 40)
  /\ eye_l_width_current (after (update e) self) = 60
  /\ lerp_ticks 6 80 40 = 40
  /\ lerp_ticks 6 40 80 = 79.
Proof.
  intros self e.
  destruct halfway_interpolation as (A & _ & _ & C & D).
  assert (engine_sequences self) as He by constructor.
  destruct (A e self He eq_refl eq_refl) as ((A1 & _) & _).
  split; [split; reflexivity|]. split; [rewrite A1; reflexivity|].
  split.
  - apply (C 6%nat 80 40); [lia|reflexivity].
  - apply (D 6%nat 40 80); [lia|]. intros H; discriminate H.
Defined.

(** C1, as stated, fails.  After [eyes_width(84)] on a new object the
    width is 80 and its target 84: no number of processed calls of [update]
    makes the width equal to the target (it goes 82, 83, 83, ...).  After
    [eyes_width(76)] the distance is 4 and its logarithm 2, but two processed
    calls leave the width at 77.  And the division floors: the mean of -3
    and 0 is -2, where truncation gives -1. *)
Lemma width_does_not_reach_target :
  let r0 := init 400 200 60 (10, 10, 15) (0, 255, 255) 0 0 in
  let up := eyes_width (Some 84) None r0 in
  let down := eyes_width (Some 76) None r0 in
  let two :=
    [BuildTick 1000 1000 1000 0 0 0 0; BuildTick 1016 1016 1016 0 0 0 0] in
  (eye_l_width_current up = 80 /\ eye_l_width_next up = 84)
  /\ ~ (exists es,
          all_processed es up
          /\ eye_l_width_current (updates es up)
             = eye_l_width_next (updates es up))
  /\ (eye_l_width_current down = 80 /\ eye_l_width_next down = 76)
  /\ all_processed two down
  /\ eye_l_width_current (updates two down) = 77
  /\ lerp (-3) 0 = -2
  /\ Z.quot (-3 + 0) 2 = -1.
Proof.
  intros r0 up down two.
  split; [split; reflexivity|]. split.
  - intros (es & Hp & Heq).
    assert (engine_sequences up) as He by constructor.
    destruct (updates_eye_l_width es up He Hp) as [A B].
    rewrite A, B in Heq.
    change (eye_l_width_current up) with 80 in Heq.
    change (eye_l_width_next up) with 84 in Heq.
    destruct (lerp_ticks_from_below (List.length es) 80 84 ltac:(lia))
      as [C _].
    lia.
  - split; [split; reflexivity|]. split.
    + cbn [all_processed two].
      repeat split; vm_compute; reflexivity.
    + repeat split; vm_compute; reflexivity.
Qed.
(** ** Properties kept by a whole call of [update] *)

Lemma jitter_jitter (now : Z) (self : RoboEyes) :
  no_jitter (attrs (confuse_jitter now self)) = no_jitter (attrs self)
  /\ no_jitter (attrs (laugh_jitter now self)) = no_jitter (attrs self).
Proof.
  unfold confuse_jitter, laugh_jitter. split; split_ifs; reflexivity.
Qed.

Lemma auto_blink_due_after_sequences (e : Tick) (self : RoboEyes) :
  engine_sequences self ->
  auto_blink_due e
    (assign (with_fps_timer (now e)) (sequences_update (seq_ticks e) self))
  = auto_blink_due e self.
Proof.
  intros He. pose proof (sequences_update_lids (seq_ticks e) self He) as E.
  unfold auto_blink_due.
  change (autoblinker (sequences_update (seq_ticks e) self)
          && (now e >=? _next_blink (sequences_update (seq_ticks e) self))
          = autoblinker self && (now e >=? _next_blink self)).
  f_equal; [|f_equal]; off E.
Qed.

(** A property of the attributes is kept by [update] when every phase keeps
    it; the blink of auto-blink has to keep it only if auto-blink is due. *)
Lemma update_keeps (P : Attrs -> Prop) (e : Tick) (self : RoboEyes) :
  engine_sequences self ->
  (forall left right a, P a -> P (reopen left right a)) ->
  (forall v a, P a -> P (with_fps_timer v a)) ->
  (auto_blink_due e self = false
   \/ forall t s, P (attrs s) -> P (attrs (blink None None t s))) ->
  (forall v a, P a -> P (with__next_blink v a)) ->
  (forall a0 a1, no_idle_target a1 = no_idle_target a0 -> P a0 -> P a1) ->
  (forall s, P (attrs s) -> P (attrs (interpolate s))) ->
  (forall t s, P (attrs s) -> P (attrs (wink_restore t s))) ->
  (forall a0 a1, no_jitter a1 = no_jitter a0 -> P a0 -> P a1) ->
  P (attrs (sequences_update (seq_ticks e) self)) ->
  P (attrs (after (update e) self)).
Proof.
  intros He Hreopen Hfps Hblink Hnext Hidle Hinterp Hwink Hjit H1.
  set (s1 := sequences_update (seq_ticks e) self) in *.
  set (s2 := assign (with_fps_timer (now e)) s1).
  assert (P (attrs s2)) as H2 by (apply Hfps, H1).
  assert (P (attrs (after (auto_blink e) s2))) as H3.
  { pose proof (auto_blink_due_after_sequences e self He) as Hdue.
    fold s1 in Hdue. fold s2 in Hdue. unfold after.
    destruct (auto_blink_cases e s2) as [[_ ->]|[D [[x ->]|[v ->]]]];
      cbn [snd]; [exact H2| |].
    - destruct Hblink as [Hoff|Hb]; [congruence|]. apply Hb, H2.
    - destruct Hblink as [Hoff|Hb]; [congruence|].
      apply Hnext. apply Hb, H2. }
  assert (P (attrs (triggered e self))) as H4.
  { unfold triggered. fold s1. fold s2.
    destruct (idle_reposition_target e (after (auto_blink e) s2)) as [E _].
    exact (Hidle _ _ E H3). }
  unfold after.
  destruct (update_cases e self) as [[_ ->]|[_ [[x ->]|[[x ->]| ->]]]];
    cbn [snd]; [exact H1|exact H3|exact H4|].
  unfold overlays.
  destruct (jitter_jitter (now e)
              (confuse_jitter (now e)
                 (wink_restore (now e) (interpolate (triggered e self)))))
    as [_ E2].
  apply (Hjit _ _ E2).
  destruct (jitter_jitter (now e)
              (wink_restore (now e) (interpolate (triggered e self))))
    as [E1 _].
  apply (Hjit _ _ E1). apply Hwink, Hinterp, H4.
Qed.

Lemma no_blink_no_lids (a : Attrs) : no_blink (no_lids a) = no_blink a.
Proof. destruct a; cbv; reflexivity. Qed.

Lemma no_blink_next_blink (v : Z) (a : Attrs) :
  no_blink (with__next_blink v a) = no_blink a.
Proof. destruct a; cbv; reflexivity. Qed.

(** An attribute that no phase assigns is kept. *)
Lemma update_field {A : Type} (f : Attrs -> A) (e : Tick)
    (self : RoboEyes) :
  engine_sequences self ->
  (forall a, f (no_blink a) = f a) ->
  (forall v a, f (with_fps_timer v a) = f a) ->
  (forall a, f (no_idle_target a) = f a) ->
  (forall a, f (no_geometry a) = f a) ->
  (forall a, f (no_wink a) = f a) ->
  (forall a, f (no_jitter a) = f a) ->
  f (attrs (after (update e) self)) = f (attrs self).
Proof.
  intros He F1 F2 F3 F4 F5 F6.
  assert (forall a, f (no_lids a) = f a) as F0.
  { intros a. rewrite <- (F1 a), <- (F1 (no_lids a)), no_blink_no_lids.
    reflexivity. }
  apply (update_keeps (fun a => f a = f (attrs self)) e self He).
  - intros l r a Ha. rewrite <- Ha.
    exact (field_off no_lids f F0 _ _ (reopen_lids l r a)).
  - intros v a Ha. rewrite F2. exact Ha.
  - right. intros t s Hs. rewrite <- Hs.
    exact (field_off no_lids f F0 _ _ (blink_lids None None t s)).
  - intros v a Ha.
    rewrite <- Ha, <- (F1 a), <- (F1 (with__next_blink v a)),
      no_blink_next_blink.
    reflexivity.
  - intros a0 a1 E Ha. rewrite <- Ha.
    exact (field_off no_idle_target f F3 _ _ E).
  - intros s Hs. rewrite <- Hs. apply (interpolate_field f s F4).
  - intros t s Hs. rewrite <- Hs.
    exact (field_off no_wink f F5 _ _ (wink_restore_wink t s)).
  - intros a0 a1 E Ha. rewrite <- Ha. exact (field_off no_jitter f F6 _ _ E).
  - exact (field_off no_lids f F0 _ _ (sequences_update_lids _ self He)).
Qed.
(** With the auto-blinker and the idle mode off no draw is made, and
    [update] returns. *)
Lemma update_returns (e : Tick) (self : RoboEyes) :
  engine_sequences self ->
  autoblinker self = false ->
  idle self = false ->
  fst (update e self) = Return tt.
Proof.
  intros He Hb Hi.
  set (s1 := sequences_update (seq_ticks e) self).
  set (s2 := assign (with_fps_timer (now e)) s1).
  pose proof (sequences_update_lids (seq_ticks e) self He) as E. fold s1 in E.
  assert (auto_blink e s2 = (Return tt, s2)) as E2.
  { destruct (auto_blink_cases e s2) as [[_ K]|[D _]]; [exact K|].
    pose proof (auto_blink_due_after_sequences e self He) as K.
    fold s1 in K. fold s2 in K. rewrite K in D.
    unfold auto_blink_due in D. rewrite Hb in D. discriminate D. }
  assert (idle s2 = false) as Hi2.
  { rewrite <- Hi. change (idle s1 = idle self). off E. }
  rewrite update_eq. fold s1.
  destruct (coalesced e s1); [reflexivity|].
  unfold frame, bind, call. fold s2. rewrite E2.
  rewrite (idle_reposition_off e s2 Hi2). reflexivity.
Qed.

(** ** Heights *)

Lemma heights_ok_heights (a0 a1 : Attrs) :
  heights a1 = heights a0 -> heights_ok a0 -> heights_ok a1.
Proof.
  unfold heights, heights_ok. intros E H.
  injection E as -> -> -> -> -> ->. exact H.
Qed.

Lemma heights_ok_off (erase : Attrs -> Attrs) (a0 a1 : Attrs) :
  (forall a, heights (erase a) = heights a) ->
  erase a1 = erase a0 -> heights_ok a0 -> heights_ok a1.
Proof.
  intros Hh E. apply heights_ok_heights.
  exact (field_off erase heights Hh _ _ E).
Qed.

Lemma lerp_at_least (m c n : Z) : m <= c -> m <= n -> m <= lerp c n.
Proof.
  intros Hc Hn. destruct (lerp_between c n) as [A B].
  destruct (Z.le_gt_cases c n) as [H|H]; [specialize (A H)|
    specialize (B ltac:(lia))]; lia.
Qed.

Lemma reopen_heights_ok (left right : bool) (a : Attrs) :
  heights_ok a -> heights_ok (reopen left right a).
Proof.
  destruct a. unfold heights_ok, reopen.
  destruct left, right; cbn; try (intros H; exact H);
    try match goal with |- context [negb ?c] => destruct c end; cbn; lia.
Qed.

Lemma blink_heights_ok (left right : option bool) (t : Z) (s : RoboEyes) :
  heights_ok (attrs s) -> heights_ok (attrs (blink left right t s)).
Proof.
  unfold blink.
  destruct left as [[|]|], right as [[|]|]; cbv beta iota zeta;
    rewrite _schedule_open_attrs;
    destruct s as [a l]; destruct a; unfold heights_ok; cbn;
    try match goal with |- context [negb ?c] => destruct c end; cbn; lia.
Qed.

Lemma interpolate_heights_ok (s : RoboEyes) :
  heights_ok (attrs s) -> heights_ok (attrs (interpolate s)).
Proof.
  intros (H1 & H2 & H3 & H4 & H5 & H6).
  destruct (interpolate_values s) as (_ & _ & V3 & V4 & _).
  cbv zeta in V3, V4. unfold heights_ok. rewrite V3, V4.
  rewrite (interpolate_field (fun a => eye_l_height_next a) s
             (fun _ => eq_refl)).
  rewrite (interpolate_field (fun a => eye_l_height_default a) s
             (fun _ => eq_refl)).
  rewrite (interpolate_field (fun a => eye_r_height_next a) s
             (fun _ => eq_refl)).
  rewrite (interpolate_field (fun a => eye_r_height_default a) s
             (fun _ => eq_refl)).
  repeat split; try assumption; apply lerp_at_least; assumption.
Qed.

Lemma wink_restore_heights_ok (t : Z) (s : RoboEyes) :
  heights_ok (attrs s) -> heights_ok (attrs (wink_restore t s)).
Proof.
  unfold wink_restore.
  destruct ((_wink_left s || _wink_right s)
            && (t - wink_timer s >? wink_duration s));
    [|intros H; exact H].
  destruct s as [a l]; destruct a; unfold heights_ok; cbn.
  split_ifs; cbn; lia.
Qed.

Lemma wink_heights_ok (left right : option bool) (t : Z) (s : RoboEyes) :
  heights_ok (attrs s) -> heights_ok (attrs (after (wink left right t) s)).
Proof.
  unfold after, wink, raise, ret.
  destruct (negb (truthy left || truthy right)); cbn [snd];
    [intros H; exact H|].
  destruct s as [a l]; destruct a; unfold heights_ok; cbn.
  split_ifs; cbn; lia.
Qed.

Lemma wink_engine (left right : option bool) (t : Z) (s : RoboEyes) :
  engine_sequences s -> engine_sequences (after (wink left right t) s).
Proof.
  intros H. unfold engine_sequences.
  destruct (wink_lids left right t s) as [_ ->]. exact H.
Qed.

Lemma update_heights_ok (e : Tick) (s : RoboEyes) :
  engine_sequences s ->
  heights_ok (attrs s) -> heights_ok (attrs (after (update e) s)).
Proof.
  intros He H.
  apply (update_keeps heights_ok e s He).
  - intros l r a. apply reopen_heights_ok.
  - intros v a. apply heights_ok_heights. reflexivity.
  - right. intros t s'. apply blink_heights_ok.
  - intros v a. apply heights_ok_heights. reflexivity.
  - intros a0 a1. apply heights_ok_off. reflexivity.
  - apply interpolate_heights_ok.
  - apply wink_restore_heights_ok.
  - intros a0 a1. apply heights_ok_off. reflexivity.
  - apply sequences_update_keeps; [exact He| |exact H].
    intros l r a. apply reopen_heights_ok.
Qed.

(** The sequences stay the engine's own under every public operation: they
    are so in every state that construction and operations produce. *)
Lemma perform_engine (op : Op) (self : RoboEyes) :
  engine_sequences self -> engine_sequences (after (perform op) self).
Proof.
  intros He.
  destruct op as [fps|l r|l r|l r|sp|v|v|v|a i v t|a i v t|en|sc pu ou|d
                 |l r t|l r t|t|t|t|t|e0];
    cbn [perform]; try (unfold after, call; cbn [snd]).
  - exact He.
  - unfold eyes_width. destruct l, r; exact He.
  - unfold eyes_height. destruct l, r; exact He.
  - unfold eyes_radius. destruct l, r; exact He.
  - exact He.
  - exact He.
  - exact He.
  - exact He.
  - unfold set_auto_blinker. destruct i, v; exact He.
  - unfold set_idle_mode. destruct i, v; exact He.
  - exact He.
  - unfold set_eye_palette. destruct sc, pu, ou; exact He.
  - unfold set_position. split_ifs; exact He.
  - apply blink_engine, He.
  - apply wink_engine, He.
  - unfold wink_left. destruct (_cyclops self).
    + unfold after, call; cbn [snd]. apply blink_engine, He.
    + apply wink_engine, He.
  - unfold wink_right. destruct (_cyclops self).
    + unfold after, call; cbn [snd]. apply blink_engine, He.
    + apply wink_engine, He.
  - exact He.
  - exact He.
  - apply update_engine, He.
Qed.

Lemma reachable_engine_sequences (ok : Op -> Prop) (self : RoboEyes) :
  reachable ok self -> engine_sequences self.
Proof.
  induction 1 as [w h fps bg fg t1 t2|op self Hr IH Hop].
  - constructor.
  - apply perform_engine, IH.
Qed.

(** Every public operation with heights of at least 1 keeps the heights in
    range and the sequences the engine's own. *)
Lemma perform_keeps (op : Op) (self : RoboEyes) :
  heights_positive op ->
  engine_sequences self /\ heights_ok (attrs self) ->
  engine_sequences (after (perform op) self)
  /\ heights_ok (attrs (after (perform op) self)).
Proof.
  intros Hop [He H].
  destruct op as [fps|l r|l r|l r|sp|v|v|v|a i v t|a i v t|en|sc pu ou|d
                 |l r t|l r t|t|t|t|t|e0];
    cbn [perform]; try (unfold after, call; cbn [snd]).
  - split; [exact He|exact H].
  - unfold eyes_width. destruct l, r; (split; [exact He|exact H]).
  - cbn in Hop. destruct Hop as [Hl Hr].
    unfold eyes_height, heights_ok in *.
    destruct l as [vl|], r as [vr|]; cbn;
      try specialize (Hl _ eq_refl); try specialize (Hr _ eq_refl);
      (split; [exact He|lia]).
  - unfold eyes_radius. destruct l, r; (split; [exact He|exact H]).
  - split; [exact He|exact H].
  - split; [exact He|exact H].
  - split; [exact He|exact H].
  - split; [exact He|exact H].
  - unfold set_auto_blinker. destruct i, v; (split; [exact He|exact H]).
  - unfold set_idle_mode. destruct i, v; (split; [exact He|exact H]).
  - split; [exact He|exact H].
  - unfold set_eye_palette.
    destruct sc, pu, ou; (split; [exact He|exact H]).
  - unfold set_position. split_ifs; (split; [exact He|exact H]).
  - split; [apply blink_engine, He|apply blink_heights_ok, H].
  - split; [apply wink_engine, He|apply wink_heights_ok, H].
  - unfold wink_left. destruct (_cyclops self).
    + unfold after, call; cbn [snd].
      split; [apply blink_engine, He|apply blink_heights_ok, H].
    + split; [apply wink_engine, He|apply wink_heights_ok, H].
  - unfold wink_right. destruct (_cyclops self).
    + unfold after, call; cbn [snd].
      split; [apply blink_engine, He|apply blink_heights_ok, H].
    + split; [apply wink_engine, He|apply wink_heights_ok, H].
  - split; [exact He|exact H].
  - split; [exact He|exact H].
  - split; [apply update_engine, He|apply update_heights_ok; assumption].
Qed.

Lemma reachable_keeps (self : RoboEyes) :
  reachable heights_positive self ->
  engine_sequences self /\ heights_ok (attrs self).
Proof.
  induction 1 as [w h fps bg fg t1 t2|op self Hr IH Hop].
  - split; [constructor|]. unfold heights_ok. cbn. lia.
  - apply perform_keeps; assumption.
Qed.

(** The same with two eyes: when cyclops mode is off every height is at
    least 1, and every operation that does not switch it on keeps them
    so. *)
Lemma two_eyes_ok_heights (a0 a1 : Attrs) :
  (_cyclops a1, heights a1) = (_cyclops a0, heights a0) ->
  two_eyes_ok a0 -> two_eyes_ok a1.
Proof.
  unfold heights, two_eyes_ok. intros E H.
  injection E as -> -> -> -> -> -> ->. exact H.
Qed.

Lemma two_eyes_ok_off (erase : Attrs -> Attrs) (a0 a1 : Attrs) :
  (forall a, (_cyclops (erase a), heights (erase a))
             = (_cyclops a, heights a)) ->
  erase a1 = erase a0 -> two_eyes_ok a0 -> two_eyes_ok a1.
Proof.
  intros Hh E. apply two_eyes_ok_heights.
  exact (field_off erase (fun a => (_cyclops a, heights a)) Hh _ _ E).
Qed.

Lemma reopen_two_eyes_ok (left right : bool) (a : Attrs) :
  two_eyes_ok a -> two_eyes_ok (reopen left right a).
Proof.
  destruct a. unfold two_eyes_ok, reopen.
  destruct left, right; cbn; intros (Hc & H); subst; cbn;
    (split; [reflexivity|lia]).
Qed.

Lemma blink_two_eyes_ok (left right : option bool) (t : Z) (s : RoboEyes) :
  two_eyes_ok (attrs s) -> two_eyes_ok (attrs (blink left right t s)).
Proof.
  unfold blink.
  destruct left as [[|]|], right as [[|]|]; cbv beta iota zeta;
    rewrite _schedule_open_attrs;
    destruct s as [a l]; destruct a; unfold two_eyes_ok; cbn;
    intros (Hc & H); subst; cbn; (split; [reflexivity|lia]).
Qed.

Lemma interpolate_two_eyes_ok (s : RoboEyes) :
  two_eyes_ok (attrs s) -> two_eyes_ok (attrs (interpolate s)).
Proof.
  intros (H0 & H1 & H2 & H3 & H4 & H5 & H6).
  destruct (interpolate_values s) as (_ & _ & V3 & V4 & _).
  cbv zeta in V3, V4. unfold two_eyes_ok. rewrite V3, V4.
  rewrite (interpolate_field (fun a => _cyclops a) s (fun _ => eq_refl)).
  rewrite (interpolate_field (fun a => eye_l_height_next a) s
             (fun _ => eq_refl)).
  rewrite (interpolate_field (fun a => eye_l_height_default a) s
             (fun _ => eq_refl)).
  rewrite (interpolate_field (fun a => eye_r_height_next a) s
             (fun _ => eq_refl)).
  rewrite (interpolate_field (fun a => eye_r_height_default a) s
             (fun _ => eq_refl)).
  repeat split; try assumption; apply lerp_at_least; assumption.
Qed.

Lemma wink_restore_two_eyes_ok (t : Z) (s : RoboEyes) :
  two_eyes_ok (attrs s) -> two_eyes_ok (attrs (wink_restore t s)).
Proof.
  unfold wink_restore.
  destruct ((_wink_left s || _wink_right s)
            && (t - wink_timer s >? wink_duration s));
    [|intros H; exact H].
  destruct s as [a l]; destruct a; unfold two_eyes_ok; cbn.
  intros (Hc & H); subst; cbn. split_ifs; cbn; (split; [reflexivity|lia]).
Qed.

Lemma wink_two_eyes_ok (left right : option bool) (t : Z) (s : RoboEyes) :
  two_eyes_ok (attrs s) -> two_eyes_ok (attrs (after (wink left right t) s)).
Proof.
  unfold after, wink, raise, ret.
  destruct (negb (truthy left || truthy right)); cbn [snd];
    [intros H; exact H|].
  destruct s as [a l]; destruct a; unfold two_eyes_ok; cbn.
  intros (Hc & H); subst; cbn. split_ifs; cbn; (split; [reflexivity|lia]).
Qed.

Lemma update_two_eyes_ok (e : Tick) (s : RoboEyes) :
  engine_sequences s ->
  two_eyes_ok (attrs s) -> two_eyes_ok (attrs (after (update e) s)).
Proof.
  intros He H.
  apply (update_keeps two_eyes_ok e s He).
  - intros l r a. apply reopen_two_eyes_ok.
  - intros v a. apply two_eyes_ok_heights. reflexivity.
  - right. intros t s'. apply blink_two_eyes_ok.
  - intros v a. apply two_eyes_ok_heights. reflexivity.
  - intros a0 a1. apply two_eyes_ok_off. reflexivity.
  - apply interpolate_two_eyes_ok.
  - apply wink_restore_two_eyes_ok.
  - intros a0 a1. apply two_eyes_ok_off. reflexivity.
  - apply sequences_update_keeps; [exact He| |exact H].
    intros l r a. apply reopen_two_eyes_ok.
Qed.

Lemma perform_keeps_two_eyes (op : Op) (self : RoboEyes) :
  heights_positive op -> two_eyes op ->
  engine_sequences self /\ two_eyes_ok (attrs self) ->
  engine_sequences (after (perform op) self)
  /\ two_eyes_ok (attrs (after (perform op) self)).
Proof.
  intros Hop Htwo [He H].
  split; [apply perform_engine, He|].
  destruct op as [fps|l r|l r|l r|sp|v|v|v|a i v t|a i v t|en|sc pu ou|d
                 |l r t|l r t|t|t|t|t|e0];
    cbn [perform]; try (unfold after, call; cbn [snd]).
  - exact H.
  - unfold eyes_width. destruct l, r; exact H.
  - cbn in Hop. destruct Hop as [Hl Hr].
    unfold eyes_height, two_eyes_ok in *.
    destruct l as [vl|], r as [vr|]; cbn;
      try specialize (Hl _ eq_refl); try specialize (Hr _ eq_refl);
      (split; [apply H|lia]).
  - unfold eyes_radius. destruct l, r; exact H.
  - exact H.
  - exact H.
  - cbn in Htwo. subst v.
    destruct H as (Hc & H). split; [reflexivity|exact H].
  - exact H.
  - unfold set_auto_blinker. destruct i, v; exact H.
  - unfold set_idle_mode. destruct i, v; exact H.
  - exact H.
  - unfold set_eye_palette. destruct sc, pu, ou; exact H.
  - unfold set_position. split_ifs; exact H.
  - apply blink_two_eyes_ok, H.
  - apply wink_two_eyes_ok, H.
  - unfold wink_left. destruct (_cyclops self).
    + unfold after, call; cbn [snd]. apply blink_two_eyes_ok, H.
    + apply wink_two_eyes_ok, H.
  - unfold wink_right. destruct (_cyclops self).
    + unfold after, call; cbn [snd]. apply blink_two_eyes_ok, H.
    + apply wink_two_eyes_ok, H.
  - exact H.
  - exact H.
  - apply update_two_eyes_ok; assumption.
Qed.

Lemma reachable_two_eyes (self : RoboEyes) :
  reachable (fun op => heights_positive op /\ two_eyes op) self ->
  engine_sequences self /\ two_eyes_ok (attrs self).
Proof.
  induction 1 as [w h fps bg fg t1 t2|op self Hr IH [Hop Htwo]].
  - split; [constructor|]. unfold two_eyes_ok. cbn. lia.
  - apply perform_keeps_two_eyes; assumption.
Qed.

Lemma reachable_updates (ok : Op -> Prop) (es : list Tick)
    (self : RoboEyes) :
  (forall e, ok (Update e)) ->
  reachable ok self -> reachable ok (updates es self).
Proof.
  intros Hok. revert self.
  induction es as [|e es IH]; intros self H; simpl; [exact H|].
  apply IH. apply (reachable_perform ok (Update e) self H (Hok e)).
Qed.

(** The same whether cyclops mode is on or off, as long as [blink()]
    without arguments does not run while it is on. *)
Lemma heights_full_heights (a0 a1 : Attrs) :
  heights a1 = heights a0 -> heights_full a0 -> heights_full a1.
Proof.
  unfold heights, heights_full. intros E H.
  injection E as -> -> -> -> -> ->. exact H.
Qed.

Lemma heights_full_off (erase : Attrs -> Attrs) (a0 a1 : Attrs) :
  (forall a, heights (erase a) = heights a) ->
  erase a1 = erase a0 -> heights_full a0 -> heights_full a1.
Proof.
  intros Hh E. apply heights_full_heights.
  exact (field_off erase heights Hh _ _ E).
Qed.

Lemma two_eyes_ok_full (a : Attrs) :
  two_eyes_ok a <-> _cyclops a = false /\ heights_full a.
Proof. unfold two_eyes_ok, heights_full. tauto. Qed.

Lemma reopen_heights_full (left right : bool) (a : Attrs) :
  heights_full a -> heights_full (reopen left right a).
Proof.
  destruct a. unfold heights_full, reopen.
  destruct left, right; cbn; try (intros H; exact H);
    try match goal with |- context [negb ?c] => destruct c end; cbn; lia.
Qed.

Lemma blink_heights_full (left right : option bool) (t : Z) (s : RoboEyes) :
  left <> None \/ right <> None \/ _cyclops s = false ->
  heights_full (attrs s) -> heights_full (attrs (blink left right t s)).
Proof.
  intros Hb. unfold blink.
  destruct left as [[|]|], right as [[|]|]; cbv beta iota zeta;
    rewrite _schedule_open_attrs;
    destruct s as [a l]; destruct a; unfold heights_full; cbn in *;
    try match goal with |- context [negb ?c] => destruct c end; cbn;
    try lia.
  destruct Hb as [Hb|[Hb|Hb]]; congruence.
Qed.

Lemma interpolate_heights_full (s : RoboEyes) :
  heights_full (attrs s) -> heights_full (attrs (interpolate s)).
Proof.
  intros (H1 & H2 & H3 & H4 & H5 & H6).
  destruct (interpolate_values s) as (_ & _ & V3 & V4 & _).
  cbv zeta in V3, V4. unfold heights_full. rewrite V3, V4.
  rewrite (interpolate_field (fun a => eye_l_height_next a) s
             (fun _ => eq_refl)).
  rewrite (interpolate_field (fun a => eye_l_height_default a) s
             (fun _ => eq_refl)).
  rewrite (interpolate_field (fun a => eye_r_height_next a) s
             (fun _ => eq_refl)).
  rewrite (interpolate_field (fun a => eye_r_height_default a) s
             (fun _ => eq_refl)).
  repeat split; try assumption; apply lerp_at_least; assumption.
Qed.

Lemma wink_restore_heights_full (t : Z) (s : RoboEyes) :
  heights_full (attrs s) -> heights_full (attrs (wink_restore t s)).
Proof.
  unfold wink_restore.
  destruct ((_wink_left s || _wink_right s)
            && (t - wink_timer s >? wink_duration s));
    [|intros H; exact H].
  destruct s as [a l]; destruct a; unfold heights_full; cbn.
  split_ifs; cbn; lia.
Qed.

Lemma wink_heights_full (left right : option bool) (t : Z) (s : RoboEyes) :
  heights_full (attrs s) ->
  heights_full (attrs (after (wink left right t) s)).
Proof.
  unfold after, wink, raise, ret.
  destruct (negb (truthy left || truthy right)); cbn [snd];
    [intros H; exact H|].
  destruct s as [a l]; destruct a; unfold heights_full; cbn.
  split_ifs; cbn; lia.
Qed.

Lemma update_heights_full (e : Tick) (s : RoboEyes) :
  engine_sequences s ->
  _cyclops s = false \/ auto_blink_fires e s = false ->
  heights_full (attrs s) -> heights_full (attrs (after (update e) s)).
Proof.
  intros He Hb H.
  assert (heights_full (attrs (sequences_update (seq_ticks e) s))) as H1.
  { apply sequences_update_keeps; [exact He| |exact H].
    intros l r a. apply reopen_heights_full. }
  destruct (_cyclops s) eqn:Hc.
  - destruct Hb as [Hb|Hb]; [discriminate|].
    unfold auto_blink_fires in Hb.
    destruct (coalesced e s) eqn:Hco.
    + unfold after.
      rewrite update_eq, (coalesced_after_sequences e _ s He), Hco.
      exact H1.
    + cbn [negb andb] in Hb.
      apply (update_keeps heights_full e s He).
      * intros l r a. apply reopen_heights_full.
      * intros v a. apply heights_full_heights. reflexivity.
      * left. exact Hb.
      * intros v a. apply heights_full_heights. reflexivity.
      * intros a0 a1. apply heights_full_off. reflexivity.
      * apply interpolate_heights_full.
      * apply wink_restore_heights_full.
      * intros a0 a1. apply heights_full_off. reflexivity.
      * exact H1.
  - apply two_eyes_ok_full. apply update_two_eyes_ok; [exact He|].
    apply two_eyes_ok_full. split; [exact Hc|exact H].
Qed.

Lemma perform_heights_full (op : Op) (self : RoboEyes) :
  heights_positive op -> no_cyclops_blink op self ->
  engine_sequences self ->
  heights_full (attrs self) ->
  heights_full (attrs (after (perform op) self)).
Proof.
  intros Hop Hno He H.
  destruct op as [fps|l r|l r|l r|sp|v|v|v|a i v t|a i v t|en|sc pu ou|d
                 |l r t|l r t|t|t|t|t|e0];
    cbn [perform]; try (unfold after, call; cbn [snd]).
  - exact H.
  - unfold eyes_width. destruct l, r; exact H.
  - cbn in Hop. destruct Hop as [Hl Hr].
    unfold eyes_height, heights_full in *.
    destruct l as [vl|], r as [vr|]; cbn;
      try specialize (Hl _ eq_refl); try specialize (Hr _ eq_refl); lia.
  - unfold eyes_radius. destruct l, r; exact H.
  - exact H.
  - exact H.
  - exact H.
  - exact H.
  - unfold set_auto_blinker. destruct i, v; exact H.
  - unfold set_idle_mode. destruct i, v; exact H.
  - exact H.
  - unfold set_eye_palette. destruct sc, pu, ou; exact H.
  - unfold set_position. split_ifs; exact H.
  - apply blink_heights_full; [|exact H].
    unfold no_cyclops_blink in Hno.
    destruct l; [left; discriminate|].
    destruct r; [right; left; discriminate|].
    right. right. destruct (_cyclops self); [destruct (Hno eq_refl)|].
    reflexivity.
  - apply wink_heights_full, H.
  - unfold wink_left. destruct (_cyclops self).
    + unfold after, call; cbn [snd].
      apply blink_heights_full; [left; discriminate|exact H].
    + apply wink_heights_full, H.
  - unfold wink_right. destruct (_cyclops self).
    + unfold after, call; cbn [snd].
      apply blink_heights_full; [right; left; discriminate|exact H].
    + apply wink_heights_full, H.
  - exact H.
  - exact H.
  - apply update_heights_full; [exact He| |exact H].
    unfold no_cyclops_blink in Hno.
    destruct (_cyclops self); [right; exact (Hno eq_refl)|left; reflexivity].
Qed.

Lemma reachable_when_engine (ok : Op -> RoboEyes -> Prop) (self : RoboEyes) :
  reachable_when ok self -> engine_sequences self.
Proof.
  induction 1 as [w h fps bg fg t1 t2|op self Hr IH Hop].
  - constructor.
  - apply perform_engine, IH.
Qed.

Lemma reachable_when_heights_full (self : RoboEyes) :
  reachable_when
    (fun op s => heights_positive op /\ no_cyclops_blink op s) self ->
  heights_full (attrs self).
Proof.
  induction 1 as [w h fps bg fg t1 t2|op self Hr IH [Hop Hno]].
  - unfold heights_full. cbn. lia.
  - apply perform_heights_full; try assumption.
    apply (reachable_when_engine _ self Hr).
Qed.

Lemma reachable_reachable_when (ok : Op -> Prop) (self : RoboEyes) :
  reachable ok self -> reachable_when (fun op _ => ok op) self.
Proof.
  induction 1 as [w h fps bg fg t1 t2|op self Hr IH Hop].
  - apply reachable_when_init.
  - apply reachable_when_perform; assumption.
Qed.

Lemma reachable_when_updates (es : list Tick) (s : RoboEyes) :
  autoblinker s = false ->
  reachable_when
    (fun op s' => heights_positive op /\ no_cyclops_blink op s') s ->
  reachable_when
    (fun op s' => heights_positive op /\ no_cyclops_blink op s')
    (updates es s).
Proof.
  revert s. induction es as [|e es IH]; intros s Hab Hr; [exact Hr|].
  pose proof (reachable_when_engine _ s Hr) as He.
  cbn [updates]. apply IH.
  - rewrite <- Hab.
    apply (update_field (fun a => autoblinker a) e s He); intros; reflexivity.
  - apply (reachable_when_perform _ (Update e) s Hr).
    split; [exact I|]. intros _.
    unfold auto_blink_fires, auto_blink_due. rewrite Hab.
    apply andb_false_r.
Qed.

(** C6, as the code has it.  The stored current height of both eyes is at
    least 1 in every state reached from construction by public operations
    that configure heights of at least 1, as long as [blink()] without
    arguments, called directly or by auto-blink, does not run while cyclops
    mode is on; so it is in every state reached without switching cyclops
    mode on.  Without that proviso the current height of the left eye is
    still at least 1 and that of the right eye at least 0.  Where the eyes
    are drawn, [draw_eye] takes the maximum with 1: the height of the
    rectangle is at least 1 whatever height and extra it is given, and it is
    their sum when the height is at least 1 and the extra is not
    negative. *)
Theorem current_height_at_least_one (self : RoboEyes) :
  (reachable_when
     (fun op s => heights_positive op /\ no_cyclops_blink op s) self ->
   1 <= eye_l_height_current self /\ 1 <= eye_r_height_current self)
  /\ (reachable (fun op => heights_positive op /\ two_eyes op) self ->
      _cyclops self = false
      /\ 1 <= eye_l_height_current self /\ 1 <= eye_r_height_current self)
  /\ (reachable heights_positive self ->
      1 <= eye_l_height_current self /\ 0 <= eye_r_height_current self)
  /\ (forall h extra_height, 1 <= current_h h extra_height)
  /\ (forall h extra_height,
        1 <= h -> 0 <= extra_height ->
        current_h h extra_height = h + extra_height).
Proof.
  split; [|split; [|split; [|split]]].
  - intros Hr. pose proof (reachable_when_heights_full self Hr) as H.
    unfold heights_full in H. lia.
  - intros Hr. destruct (reachable_two_eyes self Hr) as [_ H].
    unfold two_eyes_ok in H. repeat split; apply H.
  - intros Hr. destruct (reachable_keeps self Hr) as [_ H].
    unfold heights_ok in H. lia.
  - intros h x. unfold current_h. lia.
  - intros h x Hh Hx. unfold current_h. lia.
Qed.

(** In cyclops mode, a blink of the left eye by name and seven frames bring
    its current height from 80 down to 1, where it stays: the bound is
    reached.  The right eye keeps its height. *)
Lemma current_height_at_least_one_witness :
  let frames :=
    map (fun t => BuildTick t t t 0 0 0 0) [16; 32; 48; 64; 80; 96; 112] in
  let self :=
    updates frames
      (after (perform (Blink (Some true) None 0))
         (after (perform (SetCyclops true))
            (init 400 200 60 (10, 10, 15) (0, 255, 255) 0 0))) in
  reachable_when
    (fun op s => heights_positive op /\ no_cyclops_blink op s) self
  /\ _cyclops self = true
  /\ (eye_l_height_current self, eye_r_height_current self) = (1, 80)
  /\ 1 <= eye_l_height_current self
  /\ 1 <= eye_r_height_current self.
Proof.
  intros frames self.
  assert (reachable_when
            (fun op s => heights_positive op /\ no_cyclops_blink op s) self)
    as Hr.
  { unfold self. apply reachable_when_updates; [reflexivity|].
    apply reachable_when_perform; [|split; [exact I|intros _; exact I]].
    apply reachable_when_perform; [|split; [exact I|intros _; exact I]].
    apply reachable_when_init. }
  destruct (current_height_at_least_one self) as [A _].
  destruct (A Hr) as [A1 A2].
  split; [exact Hr|]. split; [vm_compute; reflexivity|].
  split; [vm_compute; reflexivity|]. split; [exact A1|exact A2].
Defined.

(** C6, as stated, fails.  In cyclops mode [blink()] sets the height target
    of the right eye to 0, and seven frames bring its current height from 80
    to 0; [eyes_height(0)] does the same to the left eye. *)
Lemma current_height_reaches_zero :
  let r0 := init 400 200 60 (10, 10, 15) (0, 255, 255) 0 0 in
  let frames :=
    map (fun t => BuildTick t t t 0 0 0 0) [16; 32; 48; 64; 80; 96; 112] in
  let cyc := blink None None 0 (set_cyclops true r0) in
  let flat := eyes_height (Some 0) None r0 in
  eye_r_height_next cyc = 0
  /\ reachable (fun _ => True) (updates frames cyc)
  /\ eye_r_height_current (updates frames cyc) = 0
  /\ reachable (fun _ => True) (updates frames flat)
  /\ eye_l_height_current (updates frames flat) = 0.
Proof.
  intros r0 frames cyc flat.
  assert (reachable (fun _ => True) r0) as H0 by apply reachable_init.
  split; [reflexivity|]. split; [|split; [|split]].
  - apply reachable_updates; [intros e; exact I|].
    apply (reachable_perform (fun _ => True) (Blink None None 0)
             (set_cyclops true r0)); [|exact I].
    apply (reachable_perform (fun _ => True) (SetCyclops true) r0 H0 I).
  - vm_compute. reflexivity.
  - apply reachable_updates; [intros e; exact I|].
    apply (reachable_perform (fun _ => True) (EyesHeight (Some 0) None) r0
             H0 I).
  - vm_compute. reflexivity.
Qed.
(** ** Blink *)

Section Fires.
Context {Owner : Type} (P : Owner -> Prop).

(** A pending step that is due establishes what its callback establishes,
    when the callbacks that run after it keep it. *)
Lemma update_steps_fires st ticks (l : list (StepData.t Owner)) o j s :
  nth_error l j = Some s ->
  StepData.done s = false ->
  StepData.ms_timing s <= ticks - st ->
  (forall o', P (StepData.callback s o')) ->
  Forall (fun s' => forall o', P o' -> P (StepData.callback s' o')) l ->
  P (snd (Sequence.update_steps st ticks l o)).
Proof.
  revert j o. induction l as [|s0 l IH]; intros j o Hj Hd Hdue Hs Hl.
  - destruct j; discriminate.
  - inversion Hl as [|? ? H0 Hl']; subst. destruct j as [|j]; simpl in Hj.
    + injection Hj as ->. simpl. unfold StepData.update. rewrite Hd. simpl.
      destruct (Z.ltb_spec (ticks - st) (StepData.ms_timing s)); [lia|].
      pose proof (update_steps_keeps P st ticks l (StepData.callback s o)
                    Hl' (Hs o)) as K.
      destruct (Sequence.update_steps st ticks l (StepData.callback s o));
        exact K.
    + simpl.
      destruct (if negb (StepData.done s0)
                then StepData.update st ticks s0 o else (s0, o)) as [s1 o1].
      specialize (IH j o1 Hj Hd Hdue Hs Hl').
      destruct (Sequence.update_steps st ticks l o1); exact IH.
Qed.

Lemma Sequences_update_fires ticks (l : list (Sequence.t Owner)) o
    i q st j s :
  nth_error l i = Some q ->
  Sequence._start q = Some st ->
  nth_error (Sequence.steps q) j = Some s ->
  StepData.done s = false ->
  StepData.ms_timing s <= ticks - st ->
  (forall o', P (StepData.callback s o')) ->
  Forall (fun q' =>
    Forall (fun s' => forall o', P o' -> P (StepData.callback s' o'))
           (Sequence.steps q')) l ->
  P (snd (Sequences.update ticks l o)).
Proof.
  revert i o. induction l as [|q0 l IH]; intros i o Hi Hst Hj Hd Hdue Hs Hl.
  - destruct i; discriminate.
  - inversion Hl as [|? ? H0 Hl']; subst. destruct i as [|i]; simpl in Hi.
    + injection Hi as ->. simpl.
      assert (P (snd (Sequence.update ticks q o))) as K.
      { unfold Sequence.update. rewrite Hst.
        pose proof (update_steps_fires st ticks _ o j s Hj Hd Hdue Hs H0)
          as K.
        destruct (Sequence.update_steps st ticks (Sequence.steps q) o);
          exact K. }
      destruct (Sequence.update ticks q o) as [q1 o1]. simpl in K.
      pose proof (Sequences_update_keeps P ticks l o1 Hl' K) as K'.
      destruct (Sequences.update ticks l o1); exact K'.
    + simpl. destruct (Sequence.update ticks q0 o) as [q1 o1].
      specialize (IH i o1 Hi Hst Hj Hd Hdue Hs Hl').
      destruct (Sequences.update ticks l o1); exact IH.
Qed.

End Fires.

(** What a blink does at once. *)
Lemma blink_sequences (left right : option bool) (t : Z) (self : RoboEyes) :
  sequences (blink left right t self)
  = sequences self
    ++ [blink_sequence (blinks_left left right) (blinks_right left right) t].
Proof.
  unfold blink.
  destruct left as [[|]|], right as [[|]|];
    cbv beta iota zeta delta [truthy andb];
    rewrite _schedule_open_eq; cbn [sequences with_sequences];
    split_ifs; reflexivity.
Qed.

Lemma blink_left (left right : option bool) (t : Z) (self : RoboEyes) :
  (blinks_left left right = true ->
   eye_l_height_next (blink left right t self) = 1
   /\ eye_l_open (blink left right t self) = false)
  /\ (blinks_left left right = false ->
      eye_l_height_next (blink left right t self) = eye_l_height_next self
      /\ eye_l_open (blink left right t self) = eye_l_open self).
Proof.
  unfold blink.
  destruct left as [[|]|], right as [[|]|];
    cbv beta iota zeta delta [truthy andb];
    rewrite _schedule_open_attrs; cbn;
    split; intros H; try discriminate H; split_ifs; split; reflexivity.
Qed.

Lemma blink_right (left right : option bool) (t : Z) (self : RoboEyes) :
  (blinks_right left right = true -> _cyclops self = false ->
   eye_r_height_next (blink left right t self) = 1
   /\ (right = Some true -> eye_r_open (blink left right t self) = false))
  /\ (blinks_right left right = false ->
      eye_r_height_next (blink left right t self) = eye_r_height_next self
      /\ eye_r_open (blink left right t self) = eye_r_open self)
  /\ (_cyclops self = true -> left <> None \/ right <> None ->
      eye_r_height_next (blink left right t self) = eye_r_height_next self
      /\ eye_r_open (blink left right t self) = eye_r_open self)
  /\ (_cyclops self = true -> left = None -> right = None ->
      eye_r_height_next (blink left right t self) = 0).
Proof.
  unfold blink.
  destruct left as [[|]|], right as [[|]|];
    cbv beta iota zeta delta [truthy andb];
    rewrite _schedule_open_attrs;
    destruct (_cyclops self) eqn:Hc; cbn; rewrite ?Hc; cbn;
    repeat split; intros; try discriminate; try reflexivity;
    try congruence;
    match goal with H : _ \/ _ |- _ => destruct H; congruence end.
Qed.

(** What the reopen step does. *)
Lemma reopen_untargeted (left right : bool) (a : Attrs) :
  (left = false ->
   eye_l_height_next (reopen left right a) = eye_l_height_next a
   /\ eye_l_open (reopen left right a) = eye_l_open a)
  /\ (right = false ->
      eye_r_height_next (reopen left right a) = eye_r_height_next a
      /\ eye_r_open (reopen left right a) = eye_r_open a).
Proof.
  unfold reopen.
  split; intros ->; destruct left + destruct right; cbn;
    split_ifs; split; reflexivity.
Qed.

Lemma reopen_left_restored (left right : bool) (a : Attrs) :
  (left = true -> left_restored (reopen left right a))
  /\ (left_restored a -> left_restored (reopen left right a)).
Proof.
  unfold left_restored, reopen.
  split; [intros ->|intros H]; destruct left + idtac; destruct right; cbn;
    split_ifs; cbn; try split; try reflexivity; try tauto.
Qed.

Lemma reopen_right_restored (left right : bool) (a : Attrs) :
  (right = true ->
   _cyclops (reopen left right a) = false ->
   right_restored (reopen left right a))
  /\ ((_cyclops a = false -> right_restored a) ->
      _cyclops (reopen left right a) = false ->
      right_restored (reopen left right a)).
Proof.
  unfold right_restored, reopen.
  destruct left, right; cbn; destruct (_cyclops a) eqn:Hc; cbn;
    rewrite ?Hc; split; intros; try discriminate; try tauto;
    try (split; reflexivity); auto.
Qed.
(** The sequences over a call of [update]: each one is updated in place,
    and auto-blink may add one at the end. *)
Lemma auto_blink_sequences (e : Tick) (self : RoboEyes) :
  exists extra,
    sequences (after (auto_blink e) self) = sequences self ++ extra.
Proof.
  unfold after.
  destruct (auto_blink_cases e self) as [[_ ->]|[_ [[x ->]|[v ->]]]];
    cbn [snd].
  - exists []. symmetry. apply app_nil_r.
  - eexists. apply blink_sequences.
  - eexists. apply (blink_sequences None None (blink_start e) self).
Qed.

Lemma update_sequences (e : Tick) (self : RoboEyes) :
  exists extra,
    sequences (after (update e) self)
    = map (sequence_after (seq_ticks e)) (sequences self) ++ extra.
Proof.
  set (s1 := sequences_update (seq_ticks e) self).
  set (s2 := assign (with_fps_timer (now e)) s1).
  assert (sequences s2 = map (sequence_after (seq_ticks e)) (sequences self))
    as E2 by apply sequences_update_sequences.
  destruct (auto_blink_sequences e s2) as [extra E3]. rewrite E2 in E3.
  assert (sequences (triggered e self)
          = map (sequence_after (seq_ticks e)) (sequences self) ++ extra)
    as E4.
  { unfold triggered. fold s1. fold s2.
    destruct (idle_reposition_target e (after (auto_blink e) s2)) as [_ ->].
    exact E3. }
  unfold after.
  destruct (update_cases e self) as [[_ ->]|[_ [[x ->]|[[x ->]| ->]]]];
    cbn [snd].
  - exists []. rewrite app_nil_r. apply sequences_update_sequences.
  - exists extra. exact E3.
  - exists extra. exact E4.
  - exists extra.
    destruct (overlays_overlays (now e) (interpolate (triggered e self)))
      as [_ ->].
    exact E4.
Qed.

Lemma update_nth_sequence (e : Tick) (self : RoboEyes) (i : nat)
    (q : Sequence.t Attrs) :
  nth_error (sequences self) i = Some q ->
  nth_error (sequences (after (update e) self)) i
  = Some (sequence_after (seq_ticks e) q).
Proof.
  intros Hi. destruct (update_sequences e self) as [extra ->].
  rewrite nth_error_app1.
  - rewrite nth_error_map, Hi. reflexivity.
  - rewrite length_map. apply nth_error_Some. congruence.
Qed.

Lemma blink_sequence_pending (ticks t0 : Z) (left right : bool) :
  ticks - t0 < 120 ->
  sequence_after ticks (blink_sequence left right t0)
  = blink_sequence left right t0.
Proof.
  intros H. unfold sequence_after, blink_sequence, step_after. cbn.
  destruct (Z.ltb_spec (ticks - t0) 120); [reflexivity|lia].
Qed.

(** Until the delay has elapsed the reopen step stays pending. *)
Lemma updates_pending (pre : list Tick) (self : RoboEyes) (i : nat)
    (left right : bool) (t0 : Z) :
  engine_sequences self ->
  nth_error (sequences self) i = Some (blink_sequence left right t0) ->
  Forall (fun e' => seq_ticks e' - t0 < 120) pre ->
  engine_sequences (updates pre self)
  /\ nth_error (sequences (updates pre self)) i
     = Some (blink_sequence left right t0).
Proof.
  revert self. induction pre as [|e pre IH]; intros self He Hi Hpre.
  - simpl. auto.
  - inversion Hpre as [|? ? Ht Hpre']; subst. simpl.
    apply IH; [apply update_engine, He| |exact Hpre'].
    rewrite (update_nth_sequence e self i _ Hi).
    rewrite blink_sequence_pending by exact Ht. reflexivity.
Qed.

Lemma updates_field {A : Type} (f : Attrs -> A) (es : list Tick)
    (self : RoboEyes) :
  engine_sequences self ->
  (forall a, f (no_blink a) = f a) ->
  (forall v a, f (with_fps_timer v a) = f a) ->
  (forall a, f (no_idle_target a) = f a) ->
  (forall a, f (no_geometry a) = f a) ->
  (forall a, f (no_wink a) = f a) ->
  (forall a, f (no_jitter a) = f a) ->
  f (attrs (updates es self)) = f (attrs self).
Proof.
  intros He F1 F2 F3 F4 F5 F6. revert self He.
  induction es as [|e es IH]; intros self He; simpl; [reflexivity|].
  rewrite (IH _ (update_engine e self He)).
  apply (update_field f e self He F1 F2 F3 F4 F5 F6).
Qed.

Lemma wink_restore_left_restored (t : Z) (s : RoboEyes) :
  left_restored (attrs s) -> left_restored (attrs (wink_restore t s)).
Proof.
  unfold wink_restore, left_restored.
  destruct ((_wink_left s || _wink_right s)
            && (t - wink_timer s >? wink_duration s));
    [|intros H; exact H].
  destruct (_wink_left s); cbn;
    destruct (_wink_right s && negb (_cyclops s)); cbn; tauto.
Qed.

Lemma wink_restore_right_restored (t : Z) (s : RoboEyes) :
  (_cyclops s = false -> right_restored (attrs s)) ->
  _cyclops (wink_restore t s) = false ->
  right_restored (attrs (wink_restore t s)).
Proof.
  unfold wink_restore, right_restored.
  destruct ((_wink_left s || _wink_right s)
            && (t - wink_timer s >? wink_duration s));
    [|intros H; exact H].
  destruct (_wink_left s); cbn;
    destruct (_wink_right s && negb (_cyclops s)); cbn; tauto.
Qed.

(** The call of [update] in which the reopen step is due, auto-blink not
    being due in it, ends with what the step establishes, when the other
    phases keep it. *)
Lemma reopen_tick (P : Attrs -> Prop) (e : Tick) (self : RoboEyes)
    (i : nat) (left right : bool) (t0 : Z) :
  engine_sequences self ->
  nth_error (sequences self) i = Some (blink_sequence left right t0) ->
  120 <= seq_ticks e - t0 ->
  auto_blink_fires e self = false ->
  (forall a, P (reopen left right a)) ->
  (forall l r a, P a -> P (reopen l r a)) ->
  (forall v a, P a -> P (with_fps_timer v a)) ->
  (forall v a, P a -> P (with__next_blink v a)) ->
  (forall a0 a1, no_idle_target a1 = no_idle_target a0 -> P a0 -> P a1) ->
  (forall s, P (attrs s) -> P (attrs (interpolate s))) ->
  (forall t s, P (attrs s) -> P (attrs (wink_restore t s))) ->
  (forall a0 a1, no_jitter a1 = no_jitter a0 -> P a0 -> P a1) ->
  P (attrs (after (update e) self)).
Proof.
  intros He Hi Hdue Hoff Hset Hkeep Hfps Hnext Hidle Hinterp Hwink Hjit.
  assert (P (attrs (sequences_update (seq_ticks e) self))) as H1.
  { rewrite sequences_update_attrs.
    apply (Sequences_update_fires P (seq_ticks e) (sequences self)
             (attrs self) i (blink_sequence left right t0) t0 0%nat
             (StepData.init 120 (reopen left right)) Hi eq_refl eq_refl
             eq_refl Hdue Hset).
    pose proof He as He'. unfold engine_sequences in He'.
    eapply Forall_impl; [|exact He']. intros q Hq.
    eapply Forall_impl; [|exact Hq]. intros s (l & r & ->) a Ha.
    apply Hkeep, Ha. }
  unfold auto_blink_fires in Hoff.
  destruct (coalesced e self) eqn:Hco.
  - unfold after. rewrite update_eq, (coalesced_after_sequences e _ self He).
    rewrite Hco. exact H1.
  - cbn [negb andb] in Hoff.
    exact (update_keeps P e self He Hkeep Hfps (or_introl Hoff) Hnext Hidle
             Hinterp Hwink Hjit H1).
Qed.
Lemma left_restored_ext (a0 a1 : Attrs) :
  (eye_l_height_next a1, eye_l_height_default a1, eye_l_open a1)
  = (eye_l_height_next a0, eye_l_height_default a0, eye_l_open a0) ->
  left_restored a0 -> left_restored a1.
Proof.
  unfold left_restored. intros E H. injection E as -> -> ->. exact H.
Qed.

Lemma right_restored_ext (a0 a1 : Attrs) :
  (_cyclops a1, eye_r_height_next a1, eye_r_height_default a1, eye_r_open a1)
  = (_cyclops a0, eye_r_height_next a0, eye_r_height_default a0,
     eye_r_open a0) ->
  (_cyclops a0 = false -> right_restored a0) ->
  _cyclops a1 = false -> right_restored a1.
Proof.
  unfold right_restored. intros E H. injection E as -> -> -> ->. exact H.
Qed.

(** The round trip of a blink: after the calls of [update] that come less
    than 120 ms after the blink, the first one that comes later restores the
    eyes that the blink closed, unless auto-blink blinks again in it.  The
    defaults and the cyclops mode are as before the blink. *)
Lemma blink_reopens (left right : option bool) (t0 : Z) (self : RoboEyes)
    (pre : list Tick) (e : Tick) :
  engine_sequences self ->
  Forall (fun e' => seq_ticks e' - t0 < 120) pre ->
  120 <= seq_ticks e - t0 ->
  auto_blink_fires e (updates pre (blink left right t0 self)) = false ->
  let reopened := after (update e) (updates pre (blink left right t0 self)) in
  (blinks_left left right = true -> left_restored reopened)
  /\ (blinks_right left right = true -> _cyclops self = false ->
      right_restored reopened)
  /\ eye_l_height_default reopened = eye_l_height_default self
  /\ eye_r_height_default reopened = eye_r_height_default self
  /\ _cyclops reopened = _cyclops self.
Proof.
  intros He Hpre Hdue Hoff reopened.
  set (closed := blink left right t0 self) in *.
  set (bl := blinks_left left right). set (br := blinks_right left right).
  assert (engine_sequences closed) as Hec by apply blink_engine, He.
  assert (nth_error (sequences closed) (List.length (sequences self))
          = Some (blink_sequence bl br t0)) as Hi.
  { unfold closed. rewrite blink_sequences.
    rewrite nth_error_app2 by lia. rewrite Nat.sub_diag. reflexivity. }
  destruct (updates_pending pre closed _ bl br t0 Hec Hi Hpre) as [Heb Hib].
  set (before := updates pre closed) in *.
  pose proof (blink_lids left right t0 self) as Elids. fold closed in Elids.
  assert (forall f : Attrs -> Z,
            (forall a, f (no_blink a) = f a) ->
            (forall a, f (no_lids a) = f a) ->
            (forall v a, f (with_fps_timer v a) = f a) ->
            (forall a, f (no_idle_target a) = f a) ->
            (forall a, f (no_geometry a) = f a) ->
            (forall a, f (no_wink a) = f a) ->
            (forall a, f (no_jitter a) = f a) ->
            f (attrs reopened) = f (attrs self)) as Hz.
  { intros f F1 F0 F2 F3 F4 F5 F6. unfold reopened.
    rewrite (update_field f e before Heb F1 F2 F3 F4 F5 F6).
    unfold before.
    rewrite (updates_field f pre closed Hec F1 F2 F3 F4 F5 F6).
    exact (field_off no_lids f F0 _ _ Elids). }
  assert (_cyclops reopened = _cyclops self) as Hcyc.
  { unfold reopened.
    rewrite (update_field (fun a => _cyclops a) e before Heb
               (fun _ => eq_refl) (fun _ _ => eq_refl) (fun _ => eq_refl)
               (fun _ => eq_refl) (fun _ => eq_refl) (fun _ => eq_refl)).
    unfold before.
    rewrite (updates_field (fun a => _cyclops a) pre closed Hec
               (fun _ => eq_refl) (fun _ _ => eq_refl) (fun _ => eq_refl)
               (fun _ => eq_refl) (fun _ => eq_refl) (fun _ => eq_refl)).
    off Elids. }
  split; [|split; [|split; [|split]]].
  - intros Hbl. unfold reopened.
    apply (reopen_tick left_restored e before _ bl br t0 Heb Hib Hdue Hoff).
    + intros a. apply (proj1 (reopen_left_restored bl br a) Hbl).
    + intros l r a. apply (proj2 (reopen_left_restored l r a)).
    + intros v a. apply left_restored_ext. reflexivity.
    + intros v a. apply left_restored_ext. reflexivity.
    + intros a0 a1 E. apply left_restored_ext.
      exact (field_off no_idle_target
               (fun a => (eye_l_height_next a, eye_l_height_default a,
                          eye_l_open a)) (fun _ => eq_refl) _ _ E).
    + intros s. apply left_restored_ext.
      apply (interpolate_field
               (fun a => (eye_l_height_next a, eye_l_height_default a,
                          eye_l_open a)) s (fun _ => eq_refl)).
    + apply wink_restore_left_restored.
    + intros a0 a1 E. apply left_restored_ext.
      exact (field_off no_jitter
               (fun a => (eye_l_height_next a, eye_l_height_default a,
                          eye_l_open a)) (fun _ => eq_refl) _ _ E).
  - intros Hbr Hc.
    assert (_cyclops reopened = false -> right_restored reopened) as K.
    { unfold reopened.
      apply (reopen_tick (fun a => _cyclops a = false -> right_restored a)
               e before _ bl br t0 Heb Hib Hdue Hoff).
      + intros a. apply (proj1 (reopen_right_restored bl br a) Hbr).
      + intros l r a. apply (proj2 (reopen_right_restored l r a)).
      + intros v a. apply right_restored_ext. reflexivity.
      + intros v a. apply right_restored_ext. reflexivity.
      + intros a0 a1 E. apply right_restored_ext.
        exact (field_off no_idle_target
                 (fun a => (_cyclops a, eye_r_height_next a,
                            eye_r_height_default a, eye_r_open a))
                 (fun _ => eq_refl) _ _ E).
      + intros s. apply right_restored_ext.
        apply (interpolate_field
                 (fun a => (_cyclops a, eye_r_height_next a,
                            eye_r_height_default a, eye_r_open a))
                 s (fun _ => eq_refl)).
      + intros t s. apply wink_restore_right_restored.
      + intros a0 a1 E. apply right_restored_ext.
        exact (field_off no_jitter
                 (fun a => (_cyclops a, eye_r_height_next a,
                            eye_r_height_default a, eye_r_open a))
                 (fun _ => eq_refl) _ _ E). }
    apply K. rewrite Hcyc. exact Hc.
  - apply (Hz (fun a => eye_l_height_default a)); intros; reflexivity.
  - apply (Hz (fun a => eye_r_height_default a)); intros; reflexivity.
  - exact Hcyc.
Qed.
(** In cyclops mode nothing that [update] does touches the height target of
    the right eye once [blink()] has set it to 0: the reopen steps and the
    wink restore skip the right eye, and auto-blink sets it to 0 again. *)
Lemma update_right_stays_shut (e : Tick) (s : RoboEyes) :
  engine_sequences s ->
  _cyclops s = true /\ eye_r_height_next s = 0 ->
  _cyclops (after (update e) s) = true
  /\ eye_r_height_next (after (update e) s) = 0.
Proof.
  intros He H.
  set (f := fun a : Attrs => (_cyclops a, eye_r_height_next a)).
  assert (forall a0 a1 : Attrs, f a1 = f a0 ->
            _cyclops a0 = true /\ eye_r_height_next a0 = 0 ->
            _cyclops a1 = true /\ eye_r_height_next a1 = 0) as Hf.
  { unfold f. intros a0 a1 E K. injection E as -> ->. exact K. }
  assert (forall l r a,
            _cyclops a = true /\ eye_r_height_next a = 0 ->
            _cyclops (reopen l r a) = true
            /\ eye_r_height_next (reopen l r a) = 0) as Hreopen.
  { intros l r a. destruct a. unfold reopen.
    destruct l, r; cbn; intros (Hc & K); subst; cbn; split; reflexivity. }
  apply (update_keeps
           (fun a => _cyclops a = true /\ eye_r_height_next a = 0) e s He).
  - exact Hreopen.
  - intros v a. apply Hf. reflexivity.
  - right. intros t s' (Hc & K). unfold blink.
    rewrite _schedule_open_attrs.
    destruct s' as [a l]; destruct a; cbn in *; subst; cbn.
    split; reflexivity.
  - intros v a. apply Hf. reflexivity.
  - intros a0 a1 E. apply Hf.
    exact (field_off no_idle_target f (fun _ => eq_refl) _ _ E).
  - intros s'. apply Hf.
    apply (interpolate_field f s' (fun _ => eq_refl)).
  - intros t s'. unfold wink_restore.
    destruct ((_wink_left s' || _wink_right s')
              && (t - wink_timer s' >? wink_duration s'));
      [|intros K; exact K].
    destruct s' as [a l]; destruct a; cbn.
    intros (Hc & K); subst.
    destruct _wink_left0, _wink_right0; cbn; split; reflexivity.
  - intros a0 a1 E. apply Hf.
    exact (field_off no_jitter f (fun _ => eq_refl) _ _ E).
  - apply sequences_update_keeps; [exact He|exact Hreopen|exact H].
Qed.

Lemma updates_right_stays_shut (es : list Tick) (s : RoboEyes) :
  engine_sequences s ->
  _cyclops s = true /\ eye_r_height_next s = 0 ->
  _cyclops (updates es s) = true /\ eye_r_height_next (updates es s) = 0.
Proof.
  revert s. induction es as [|e es IH]; intros s He H; [exact H|].
  cbn [updates]. apply IH; [apply update_engine, He|].
  apply update_right_stays_shut; assumption.
Qed.

(** C5, as the code has it.  [blink(left, right)] closes the left eye when
    it is asked for (by name, or with no argument at all) and the right eye
    when it is asked for and cyclops mode is off: the height target becomes
    1 at once, the left eye is marked closed, and so is the right eye when
    it is asked for by name.  An eye that is not asked for keeps its height
    target and its open flag, and so does the right eye under a blink by
    name in cyclops mode; a blink with no argument in cyclops mode sets the
    height target of the right eye to 0, where it stays: in cyclops mode
    no reopen step touches the right eye, and no call of [update]
    afterwards moves its height target from 0.  The blink adds one sequence,
    started at the clock reading of the blink, whose only step is [reopen]
    at 120 ms, and [reopen] leaves alone an eye that was not asked for.
    After the calls of [update] that come less than 120 ms after the blink,
    the first one that comes later ends with every closed eye restored
    (height target equal to the default height, marked open), the defaults
    being those before the blink, unless auto-blink blinks again in that
    call (the call gets past the frame limiter with auto-blink due). *)
Theorem blink_round_trip (left right : option bool) (t0 : Z)
    (self : RoboEyes) (pre : list Tick) (e : Tick) :
  engine_sequences self ->
  Forall (fun e' => seq_ticks e' - t0 < 120) pre ->
  120 <= seq_ticks e - t0 ->
  let closed := blink left right t0 self in
  let reopened := after (update e) (updates pre closed) in
  let bl := blinks_left left right in
  let br := blinks_right left right in
  auto_blink_fires e (updates pre closed) = false ->
  (bl = true ->
   eye_l_height_next closed = 1 /\ eye_l_open closed = false)
  /\ (br = true -> _cyclops self = false ->
      eye_r_height_next closed = 1
      /\ (right = Some true -> eye_r_open closed = false))
  /\ (bl = false ->
      eye_l_height_next closed = eye_l_height_next self
      /\ eye_l_open closed = eye_l_open self)
  /\ (br = false ->
      eye_r_height_next closed = eye_r_height_next self
      /\ eye_r_open closed = eye_r_open self)
  /\ (_cyclops self = true -> left <> None \/ right <> None ->
      eye_r_height_next closed = eye_r_height_next self
      /\ eye_r_open closed = eye_r_open self)
  /\ (_cyclops self = true -> left = None -> right = None ->
      eye_r_height_next closed = 0
      /\ forall es, eye_r_height_next (updates es closed) = 0)
  /\ (forall l r a, _cyclops a = true ->
        eye_r_height_next (reopen l r a) = eye_r_height_next a
        /\ eye_r_open (reopen l r a) = eye_r_open a)
  /\ sequences closed = sequences self ++ [blink_sequence bl br t0]
  /\ (forall a,
        (bl = false ->
         eye_l_height_next (reopen bl br a) = eye_l_height_next a
         /\ eye_l_open (reopen bl br a) = eye_l_open a)
        /\ (br = false ->
            eye_r_height_next (reopen bl br a) = eye_r_height_next a
            /\ eye_r_open (reopen bl br a) = eye_r_open a))
  /\ (bl = true ->
      eye_l_height_next reopened = eye_l_height_default self
      /\ eye_l_open reopened = true)
  /\ (br = true -> _cyclops self = false ->
      eye_r_height_next reopened = eye_r_height_default self
      /\ eye_r_open reopened = true).
Proof.
  intros He Hpre Hdue closed reopened bl br Hoff.
  destruct (blink_left left right t0 self) as [L1 L2].
  destruct (blink_right left right t0 self) as (R1 & R2 & R3 & R4).
  destruct (blink_reopens left right t0 self pre e He Hpre Hdue Hoff)
    as (B1 & B2 & B3 & B4 & _).
  fold closed in L1, L2, R1, R2, R3, R4, B1, B2, B3, B4.
  fold reopened in B1, B2, B3, B4. fold bl in L1, L2, B1. fold br in R1, R2, B2.
  split; [exact L1|]. split; [exact R1|]. split; [exact L2|].
  split; [exact R2|]. split; [exact R3|].
  split.
  { intros Hc Hl Hrt. pose proof (R4 Hc Hl Hrt) as K.
    split; [exact K|]. intros es.
    apply (updates_right_stays_shut es closed).
    - apply blink_engine, He.
    - split; [|exact K]. rewrite <- Hc.
      exact (field_off no_lids (fun a => _cyclops a) (fun _ => eq_refl)
               _ _ (blink_lids left right t0 self)). }
  split.
  { intros l r a Hc. destruct a. unfold reopen.
    cbn in Hc. subst. destruct l, r; cbn; split; reflexivity. }
  split; [apply blink_sequences|]. split; [apply reopen_untargeted|].
  split.
  - intros H. destruct (B1 H) as [A1 A2]. rewrite <- B3. split; assumption.
  - intros H Hc. destruct (B2 H Hc) as [A1 A2]. rewrite <- B4.
    split; assumption.
Qed.

(** The round trip on a new object of default height 80: the target is 1
    right after the blink at 1000, still 1 in the frames at 1016 and 1100,
    and 80 again in the frame at 1120.  With the auto-blinker due from 1120
    and a frame at 1115, the call at 1125 is coalesced: its reopen step
    runs, auto-blink does not blink, and the target is 80 again. *)
Lemma blink_round_trip_witness :
  let self := init 400 200 60 (10, 10, 15) (0, 255, 255) 0 0 in
  let tick t := BuildTick t t t 0 0 0 0 in
  let closed := blink None None 1000 self in
  let auto :=
    blink None None 1000 (set_auto_blinker ON (Some 1) None 120 self) in
  eye_l_height_default self = 80
  /\ eye_l_height_next closed = 1
  /\ eye_l_height_next (updates [tick 1016; tick 1100] closed) = 1
  /\ eye_l_height_next
       (after (update (tick 1120)) (updates [tick 1016; tick 1100] closed))
     = 80
  /\ eye_r_height_next
       (after (update (tick 1120)) (updates [tick 1016; tick 1100] closed))
     = 80
  /\ (coalesced (tick 1125) (updates [tick 1115] auto),
      auto_blink_due (tick 1125) (updates [tick 1115] auto)) = (true, true)
  /\ eye_l_height_next (updates [tick 1115] auto) = 1
  /\ eye_l_height_next (after (update (tick 1125)) (updates [tick 1115] auto))
     = 80.
Proof.
  intros self tick closed auto.
  assert (engine_sequences self) as He by constructor.
  assert (Forall (fun e' => seq_ticks e' - 1000 < 120)
            [tick 1016; tick 1100]) as Hpre.
  { repeat constructor; cbn; lia. }
  assert (120 <= seq_ticks (tick 1120) - 1000) as Hdue by (cbn; lia).
  assert (auto_blink_fires (tick 1120)
            (updates [tick 1016; tick 1100] (blink None None 1000 self))
          = false) as Hoff by (vm_compute; reflexivity).
  destruct (blink_round_trip None None 1000 self [tick 1016; tick 1100]
              (tick 1120) He Hpre Hdue Hoff)
    as (A & _ & _ & _ & _ & _ & _ & _ & _ & B & C).
  destruct (A eq_refl) as [A1 _].
  destruct (B eq_refl) as [B1 _]. destruct (C eq_refl eq_refl) as [C1 _].
  assert (engine_sequences (set_auto_blinker ON (Some 1) None 120 self))
    as He' by constructor.
  assert (Forall (fun e' => seq_ticks e' - 1000 < 120) [tick 1115]) as Hpre'.
  { repeat constructor; cbn; lia. }
  assert (auto_blink_fires (tick 1125)
            (updates [tick 1115]
               (blink None None 1000
                  (set_auto_blinker ON (Some 1) None 120 self)))
          = false) as Hoff' by (vm_compute; reflexivity).
  destruct (blink_round_trip None None 1000
              (set_auto_blinker ON (Some 1) None 120 self) [tick 1115]
              (tick 1125) He' Hpre' ltac:(cbn; lia) Hoff')
    as (_ & _ & _ & _ & _ & _ & _ & _ & _ & D & _).
  destruct (D eq_refl) as [D1 _].
  split; [reflexivity|]. split; [exact A1|].
  split; [vm_compute; reflexivity|]. split; [exact B1|].
  split; [exact C1|]. split; [vm_compute; reflexivity|].
  split; [vm_compute; reflexivity|exact D1].
Defined.

(** C5, as stated, fails where the code is written to do otherwise.  In
    cyclops mode [blink()] sets the height target of the right eye to 0, not
    to 1, and the reopen step does not restore it.  And with the auto-blinker
    on and due, the call of [update] in which the reopen step runs blinks
    again: at its end the left eye is closed, not restored. *)
Lemma blink_not_restored :
  let r0 := init 400 200 60 (10, 10, 15) (0, 255, 255) 0 0 in
  let tick t := BuildTick t t t 0 0 0 0 in
  let cyc := blink None None 1000 (set_cyclops true r0) in
  let auto := blink None None 900 (set_auto_blinker ON None None 0 r0) in
  eye_r_height_next cyc = 0
  /\ eye_r_height_next (after (update (tick 1120)) cyc) = 0
  /\ eye_r_height_default (after (update (tick 1120)) cyc) = 80
  /\ _next_blink auto = 1000
  /\ eye_l_height_next auto = 1
  /\ eye_l_height_next (sequences_update 1020 auto) = 80
  /\ eye_l_height_next (after (update (tick 1020)) auto) = 1
  /\ eye_l_open (after (update (tick 1020)) auto) = false.
Proof.
  intros r0 tick cyc auto. repeat split; vm_compute; reflexivity.
Qed.

(** The slip beside it: with cyclops mode off, [blink()] marks the right
    eye open while it closes it, where [blink(True, True)] marks it
    closed. *)
Example blink_marks_right_eye_open :
  let r0 := init 400 200 60 (10, 10, 15) (0, 255, 255) 0 0 in
  eye_r_height_next (blink None None 1000 r0) = 1
  /\ eye_r_open (blink None None 1000 r0) = true
  /\ eye_r_open (blink (Some true) (Some true) 1000 r0) = false.
Proof. repeat split; vm_compute; reflexivity. Qed.
(** ** Cyclops mode *)

Lemma blink_right_only_cyclops (left : option bool) (t : Z)
    (self : RoboEyes) :
  _cyclops self = true -> truthy left = false ->
  attrs (blink left (Some true) t self) = attrs self.
Proof.
  intros Hc Hl. unfold blink.
  destruct left as [[|]|]; try discriminate Hl;
    cbv beta iota zeta delta [truthy andb];
    rewrite _schedule_open_attrs; rewrite Hc; reflexivity.
Qed.

Lemma reopen_right_only_cyclops (a : Attrs) :
  _cyclops a = true -> reopen false true a = a.
Proof. intros H. unfold reopen. cbn. rewrite H. reflexivity. Qed.

Lemma wink_right_only_cyclops (left : option bool) (t : Z)
    (self : RoboEyes) :
  _cyclops self = true -> truthy left = false ->
  wink left (Some true) t self
  = (Return tt,
     self |> assign (with__wink_left false)
          |> assign (with__wink_right true)
          |> assign (with_wink_timer t)).
Proof.
  intros Hc Hl. unfold wink, ret. rewrite Hl. cbn. rewrite Hc. reflexivity.
Qed.

Lemma wink_left_only (right : option bool) (t : Z) (self : RoboEyes) :
  let self' := after (wink (Some true) right t) self in
  fst (wink (Some true) right t self) = Return tt
  /\ sequences self' = sequences self
  /\ _wink_left self' = true
  /\ wink_timer self' = t
  /\ eye_l_height_next self' = 1
  /\ eye_l_open self' = false.
Proof.
  unfold after, wink, ret. cbn.
  destruct (truthy right && negb (_cyclops self)); cbn;
    repeat split; reflexivity.
Qed.

(** C7, as the code has it.  In cyclops mode [wink_left] is
    [blink(left=True)]: the single eye is closed at once and restored by the
    reopen step, in the first call of [update] that comes 120 ms after it or
    later (unless auto-blink blinks again in that call: the call gets past
    the frame limiter with auto-blink due).  [wink_right] is
    [blink(right=True)], which in cyclops mode closes no eye: it changes no
    attribute and adds a sequence whose reopen step changes nothing; a blink
    or a wink that names the right eye alone leaves the height targets and
    the open flags of both eyes as they are, the wink only recording its
    flags and its timer.  [wink] itself is the same in cyclops mode as out of
    it for the left eye: it closes the eye, starts the wink timer and adds no
    sequence. *)
Theorem cyclops_wink (t0 : Z) (self : RoboEyes) (pre : list Tick)
    (e : Tick) :
  _cyclops self = true ->
  engine_sequences self ->
  Forall (fun e' => seq_ticks e' - t0 < 120) pre ->
  120 <= seq_ticks e - t0 ->
  auto_blink_fires e (updates pre (after (wink_left t0) self)) = false ->
  (wink_left t0 self = (Return tt, blink (Some true) None t0 self)
   /\ eye_l_height_next (after (wink_left t0) self) = 1
   /\ eye_l_open (after (wink_left t0) self) = false
   /\ left_restored
        (after (update e) (updates pre (after (wink_left t0) self))))
  /\ (wink_right t0 self = (Return tt, blink None (Some true) t0 self)
      /\ attrs (after (wink_right t0) self) = attrs self
      /\ sequences (after (wink_right t0) self)
         = sequences self ++ [blink_sequence false true t0]
      /\ forall a, _cyclops a = true -> reopen false true a = a)
  /\ (forall left, truthy left = false ->
        attrs (blink left (Some true) t0 self) = attrs self)
  /\ (forall left, truthy left = false ->
        let self' := after (wink left (Some true) t0) self in
        fst (wink left (Some true) t0 self) = Return tt
        /\ no_wink (attrs self') = no_wink (attrs self)
        /\ eye_l_height_next self' = eye_l_height_next self
        /\ eye_l_open self' = eye_l_open self
        /\ eye_r_height_next self' = eye_r_height_next self
        /\ eye_r_open self' = eye_r_open self
        /\ sequences self' = sequences self)
  /\ (forall right,
        let self' := after (wink (Some true) right t0) self in
        fst (wink (Some true) right t0 self) = Return tt
        /\ sequences self' = sequences self
        /\ _wink_left self' = true
        /\ wink_timer self' = t0
        /\ eye_l_height_next self' = 1
        /\ eye_l_open self' = false).
Proof.
  intros Hc He Hpre Hdue Hoff.
  assert (wink_left t0 self = (Return tt, blink (Some true) None t0 self))
    as EL by (unfold wink_left; rewrite Hc; reflexivity).
  assert (wink_right t0 self = (Return tt, blink None (Some true) t0 self))
    as ER by (unfold wink_right; rewrite Hc; reflexivity).
  unfold after in *. rewrite EL in *. rewrite ER. cbn [snd] in *.
  split; [|split; [|split; [|split]]].
  - split; [reflexivity|].
    destruct (blink_left (Some true) None t0 self) as [L _].
    destruct (L eq_refl) as [L1 L2].
    split; [exact L1|]. split; [exact L2|].
    destruct (blink_reopens (Some true) None t0 self pre e He Hpre Hdue Hoff)
      as (B & _).
    exact (B eq_refl).
  - split; [reflexivity|].
    split; [apply (blink_right_only_cyclops None t0 self Hc eq_refl)|].
    split; [apply (blink_sequences None (Some true) t0 self)|].
    apply reopen_right_only_cyclops.
  - intros left Hl. apply blink_right_only_cyclops; assumption.
  - intros left Hl.
    rewrite (wink_right_only_cyclops left t0 self Hc Hl). cbn [fst snd].
    repeat split; reflexivity.
  - intros right. apply (wink_left_only right t0 self).
Qed.

(** In cyclops mode on a new object: [wink_left] at 1000 closes the eye,
    the frame at 1120 restores it, and [wink_right] changes nothing.  With
    the auto-blinker due from 1120 and a frame at 1115, the coalesced call
    at 1125 restores the eye as well. *)
Lemma cyclops_wink_witness :
  let self := set_cyclops true (init 400 200 60 (10, 10, 15) (0, 255, 255) 0 0) in
  let auto := set_auto_blinker ON (Some 1) None 120 self in
  let tick t := BuildTick t t t 0 0 0 0 in
  eye_l_height_next (after (wink_left 1000) self) = 1
  /\ eye_l_height_next
       (after (update (tick 1120))
          (updates [tick 1016; tick 1100] (after (wink_left 1000) self)))
     = 80
  /\ attrs (after (wink_right 1000) self) = attrs self
  /\ (coalesced (tick 1125)
        (updates [tick 1115] (after (wink_left 1000) auto)),
      auto_blink_due (tick 1125)
        (updates [tick 1115] (after (wink_left 1000) auto))) = (true, true)
  /\ eye_l_height_next
       (after (update (tick 1125))
          (updates [tick 1115] (after (wink_left 1000) auto)))
     = 80.
Proof.
  intros self auto tick.
  assert (engine_sequences self) as He by constructor.
  assert (Forall (fun e' => seq_ticks e' - 1000 < 120)
            [tick 1016; tick 1100]) as Hpre.
  { repeat constructor; cbn; lia. }
  assert (120 <= seq_ticks (tick 1120) - 1000) as Hdue by (cbn; lia).
  assert (auto_blink_fires (tick 1120)
            (updates [tick 1016; tick 1100] (after (wink_left 1000) self))
          = false) as Hoff by (vm_compute; reflexivity).
  destruct (cyclops_wink 1000 self [tick 1016; tick 1100] (tick 1120)
              eq_refl He Hpre Hdue Hoff)
    as ((_ & A & _ & B) & (_ & C & _) & _).
  assert (engine_sequences auto) as He' by constructor.
  assert (Forall (fun e' => seq_ticks e' - 1000 < 120) [tick 1115]) as Hpre'.
  { repeat constructor; cbn; lia. }
  assert (auto_blink_fires (tick 1125)
            (updates [tick 1115] (after (wink_left 1000) auto))
          = false) as Hoff' by (vm_compute; reflexivity).
  destruct (cyclops_wink 1000 auto [tick 1115] (tick 1125)
              eq_refl He' Hpre' ltac:(cbn; lia) Hoff')
    as ((_ & _ & _ & D) & _).
  split; [exact A|]. split; [|split; [exact C|]].
  - destruct B as [B1 _]. rewrite B1. vm_compute. reflexivity.
  - split; [vm_compute; reflexivity|].
    destruct D as [D1 _]. rewrite D1. vm_compute. reflexivity.
Defined.

(** C7, as stated, fails.  In cyclops mode [wink_right] does not close the
    single eye: its height target stays 80 and it stays marked open.  And a
    wink of the left eye through [wink] is not turned into a blink: it adds
    no sequence, the eye is still closed 150 ms later, past the reopen delay
    of a blink, and is restored by the wink timer after 300 ms. *)
Lemma cyclops_wink_right_closes_nothing :
  let self := set_cyclops true (init 400 200 60 (10, 10, 15) (0, 255, 255) 0 0) in
  let tick t := BuildTick t t t 0 0 0 0 in
  let winked := after (wink (Some true) None 1000) self in
  fst (wink_right 1000 self) = Return tt
  /\ eye_l_height_next (after (wink_right 1000) self) = 80
  /\ eye_l_open (after (wink_right 1000) self) = true
  /\ sequences winked = []
  /\ eye_l_height_next (after (update (tick 1150)) winked) = 1
  /\ eye_l_height_next (after (update (tick 1301)) winked) = 80.
Proof.
  intros self tick winked. repeat split; vm_compute; reflexivity.
Qed.
(** * Further properties of the engine *)

(** ** The triggers of a frame, one by one *)

(** The frame behind the limiter, by the outcome of its two draws. *)
Lemma frame_outcomes (e : Tick) (s : RoboEyes) :
  let s2 := assign (with_fps_timer (now e)) s in
  let s3 := after (auto_blink e) s2 in
  let s4 := after (idle_reposition e) s3 in
  (exists x, fst (auto_blink e s2) = Raise x /\ frame e s = (Raise x, s3))
  \/ (fst (auto_blink e s2) = Return tt
      /\ exists x, fst (idle_reposition e s3) = Raise x
                   /\ frame e s = (Raise x, s4))
  \/ (fst (auto_blink e s2) = Return tt
      /\ fst (idle_reposition e s3) = Return tt
      /\ frame e s = (Return tt, overlays (now e) (interpolate s4))).
Proof.
  intros s2 s3 s4. unfold s4, s3, frame, bind, call, after, overlays.
  cbv beta iota. fold s2.
  destruct (auto_blink e s2) as [[[]|x] t3]; cbn [fst snd].
  - destruct (idle_reposition e t3) as [[[]|x] t4]; cbn [fst snd].
    + right. right. repeat split.
    + right. left. split; [reflexivity|]. exists x. split; reflexivity.
  - left. exists x. split; reflexivity.
Qed.

(** An attribute that neither the lids nor the timers of frame and blink is
    the same when auto-blink is through. *)
Lemma blinked_field {A : Type} (f : Attrs -> A) (e : Tick)
    (self : RoboEyes) :
  engine_sequences self ->
  (forall a, f (no_lids a) = f a) ->
  (forall v a, f (with_fps_timer v a) = f a) ->
  (forall a, f (no_blink a) = f a) ->
  f (attrs (after (auto_blink e)
              (assign (with_fps_timer (now e))
                 (sequences_update (seq_ticks e) self))))
  = f (attrs self).
Proof.
  intros He H1 H2 H3.
  set (s1 := sequences_update (seq_ticks e) self).
  set (s2 := assign (with_fps_timer (now e)) s1).
  transitivity (f (attrs s2));
    [exact (field_off no_blink f H3 _ _ (auto_blink_blink e s2))|].
  transitivity (f (attrs s1)); [exact (H2 (now e) (attrs s1))|].
  exact (field_off no_lids f H1 _ _ (sequences_update_lids _ self He)).
Qed.

Lemma randint_range (raw a b : Z) (s : RoboEyes) :
  a <= b ->
  exists v, a <= v <= b /\ randint raw a b s = (Return v, s).
Proof.
  intros H. unfold randint, ret.
  destruct (Z.ltb_spec b a); [lia|].
  exists (a + raw mod (b - a + 1)). split; [|reflexivity].
  pose proof (Z.mod_pos_bound raw (b - a + 1) ltac:(lia)). lia.
Qed.

Lemma randint_empty (raw a b : Z) (s : RoboEyes) :
  b < a -> exists x, randint raw a b s = (Raise x, s).
Proof.
  intros H. unfold randint, raise.
  destruct (Z.ltb_spec b a); [|lia]. eexists. reflexivity.
Qed.

(** Idle reposition when it is due: it returns exactly when its three
    ranges are not empty, and then the target and the timer are drawn from
    them. *)
Lemma idle_reposition_due (e : Tick) (s : RoboEyes) :
  idle s = true -> _next_idle s <= now e ->
  ((max_x s < 0 \/ max_y s < 0 \/ idle_interval_variation s < 0) ->
   exists x, fst (idle_reposition e s) = Raise x)
  /\ (0 <= max_x s -> 0 <= max_y s -> 0 <= idle_interval_variation s ->
      exists x y j,
        0 <= x <= max_x s /\ 0 <= y <= max_y s
        /\ 0 <= j <= idle_interval_variation s
        /\ idle_reposition e s
           = (Return tt,
              s |> assign (with_eye_l_x_next x)
                |> assign (with_eye_l_y_next y)
                |> assign (with__next_idle (now e + idle_interval s + j)))).
Proof.
  intros Hi Hdue.
  assert (idle s && (now e >=? _next_idle s) = true) as Hc.
  { rewrite Hi. simpl. apply Z.geb_le. exact Hdue. }
  unfold idle_reposition, bind, get, call. rewrite Hc. split.
  - intros H.
    destruct (Z.lt_ge_cases (max_x s) 0) as [Hx|Hx].
    { destruct (randint_empty (idle_x_draw e) 0 (max_x s) s Hx) as [x ->].
      exists x. reflexivity. }
    destruct (randint_range (idle_x_draw e) 0 (max_x s) s Hx)
      as (x & _ & ->).
    destruct (Z.lt_ge_cases (max_y s) 0) as [Hy|Hy].
    { destruct (randint_empty (idle_y_draw e) 0 (max_y s)
                  (assign (with_eye_l_x_next x) s) Hy) as [x' ->].
      exists x'. reflexivity. }
    destruct (randint_range (idle_y_draw e) 0 (max_y s)
                (assign (with_eye_l_x_next x) s) Hy) as (y & _ & ->).
    assert (idle_interval_variation s < 0) as Hv by lia.
    destruct (randint_empty (idle_draw e) 0 (idle_interval_variation s)
                (assign (with_eye_l_y_next y)
                   (assign (with_eye_l_x_next x) s)) Hv) as [x' E].
    exists x'. cbv beta iota.
    change (idle_interval_variation
              (assign (with_eye_l_y_next y) (assign (with_eye_l_x_next x) s)))
      with (idle_interval_variation s).
    rewrite E. reflexivity.
  - intros Hx Hy Hv.
    destruct (randint_range (idle_x_draw e) 0 (max_x s) s Hx)
      as (x & Bx & ->).
    destruct (randint_range (idle_y_draw e) 0 (max_y s)
                (assign (with_eye_l_x_next x) s) Hy) as (y & By & ->).
    destruct (randint_range (idle_draw e) 0 (idle_interval_variation s)
                (assign (with_eye_l_y_next y)
                   (assign (with_eye_l_x_next x) s)) Hv) as (j & Bj & E).
    exists x, y, j. split; [exact Bx|]. split; [exact By|].
    split; [exact Bj|]. cbv beta iota.
    change (idle_interval_variation
              (assign (with_eye_l_y_next y) (assign (with_eye_l_x_next x) s)))
      with (idle_interval_variation s).
    rewrite E. reflexivity.
Qed.
Lemma update_frame (e : Tick) (self : RoboEyes) :
  engine_sequences self ->
  coalesced e self = false ->
  update e self = frame e (sequences_update (seq_ticks e) self).
Proof.
  intros He Hc.
  rewrite update_eq, (coalesced_after_sequences e _ self He), Hc.
  reflexivity.
Qed.

(** X1.  Idle reposition.  In a frame in which the idle move is due, [update]
    raises when the eyes do not fit the screen ([max_x] or [max_y] negative)
    or the idle variation is negative; when it returns, the new position
    target of the left eye lies in [0 .. max_x] x [0 .. max_y], the bounds
    being those of the sizes before the frame, and the next idle move is
    scheduled between [idle_interval] and [idle_interval +
    idle_interval_variation] after [now]. *)
Theorem idle_target_in_bounds (e : Tick) (self : RoboEyes) :
  engine_sequences self ->
  coalesced e self = false ->
  idle self = true ->
  _next_idle self <= now e ->
  let self' := after (update e) self in
  (max_x self < 0 \/ max_y self < 0 \/ idle_interval_variation self < 0 ->
   exists x, fst (update e self) = Raise x)
  /\ (fst (update e self) = Return tt ->
      0 <= eye_l_x_next self' <= max_x self
      /\ 0 <= eye_l_y_next self' <= max_y self
      /\ now e + idle_interval self <= _next_idle self'
         <= now e + idle_interval self + idle_interval_variation self).
Proof.
  intros He Hc Hi Hdue self'.
  set (s1 := sequences_update (seq_ticks e) self).
  set (s2 := assign (with_fps_timer (now e)) s1).
  set (s3 := after (auto_blink e) s2).
  pose (fx := fun a : Attrs =>
          screen_width a
          - (eye_l_width_current a + space_between_current a
             + (if _cyclops a then 0 else eye_r_width_current a))).
  pose (fy := fun a : Attrs => screen_height a - eye_l_height_current a).
  assert (forall A (f : Attrs -> A),
            (forall a, f (no_lids a) = f a) ->
            (forall v a, f (with_fps_timer v a) = f a) ->
            (forall a, f (no_blink a) = f a) ->
            f (attrs s3) = f (attrs self)) as F.
  { intros A f. apply (blinked_field f e self He). }
  assert (max_x s3 = max_x self) as Ex
    by (apply (F _ fx); intros; reflexivity).
  assert (max_y s3 = max_y self) as Ey
    by (apply (F _ fy); intros; reflexivity).
  assert (idle s3 = true) as Hi3.
  { rewrite <- Hi. apply (F _ (fun a => idle a)); intros; reflexivity. }
  assert (_next_idle s3 = _next_idle self) as En
    by (apply (F _ (fun a => _next_idle a)); intros; reflexivity).
  assert (idle_interval s3 = idle_interval self) as Eint
    by (apply (F _ (fun a => idle_interval a)); intros; reflexivity).
  assert (idle_interval_variation s3 = idle_interval_variation self) as Ev
    by (apply (F _ (fun a => idle_interval_variation a));
        intros; reflexivity).
  destruct (idle_reposition_due e s3 Hi3 ltac:(lia)) as [Hraise Hret].
  rewrite Ex, Ey, Ev in Hraise, Hret.
  unfold self', after. rewrite (update_frame e self He Hc). fold s1.
  pose proof (frame_outcomes e s1) as FO. cbv zeta in FO.
  fold s2 in FO. fold s3 in FO.
  destruct FO as [(x & _ & ->)|[(_ & x & _ & ->)|(_ & Hidle & ->)]];
    cbn [fst snd].
  - split; [intros _; exists x; reflexivity|intros H; discriminate H].
  - split; [intros _; exists x; reflexivity|intros H; discriminate H].
  - split.
    + intros Hbad. destruct (Hraise Hbad) as [x Hx].
      rewrite Hx in Hidle. discriminate Hidle.
    + intros _.
      destruct (Z.lt_ge_cases (max_x self) 0) as [Hx|Hx].
      { destruct (Hraise (or_introl Hx)) as [x Hx'].
        rewrite Hx' in Hidle. discriminate Hidle. }
      destruct (Z.lt_ge_cases (max_y self) 0) as [Hy|Hy].
      { destruct (Hraise (or_intror (or_introl Hy))) as [x Hx'].
        rewrite Hx' in Hidle. discriminate Hidle. }
      destruct (Z.lt_ge_cases (idle_interval_variation self) 0) as [Hv|Hv].
      { destruct (Hraise (or_intror (or_intror Hv))) as [x Hx'].
        rewrite Hx' in Hidle. discriminate Hidle. }
      destruct (Hret Hx Hy Hv) as (x & y & j & Bx & By & Bj & E).
      unfold after. rewrite E. cbn [snd].
      rewrite (overlays_field (fun a => eye_l_x_next a) _ _
                 (fun _ => eq_refl)).
      rewrite (overlays_field (fun a => eye_l_y_next a) _ _
                 (fun _ => eq_refl)).
      rewrite (overlays_field (fun a => _next_idle a) _ _
                 (fun _ => eq_refl)).
      rewrite (interpolate_field (fun a => eye_l_x_next a) _
                 (fun _ => eq_refl)).
      rewrite (interpolate_field (fun a => eye_l_y_next a) _
                 (fun _ => eq_refl)).
      rewrite (interpolate_field (fun a => _next_idle a) _
                 (fun _ => eq_refl)).
      cbn. rewrite Eint. lia.
Qed.

Lemma idle_target_in_bounds_witness :
  let self :=
    set_idle_mode ON (Some 2) (Some 2) 0
      (init 400 200 60 (10, 10, 15) (0, 255, 255) 0 0) in
  let e := BuildTick 2000 2000 2000 0 12345 678 91011 in
  (max_x self, max_y self) = (180, 120)
  /\ eye_l_x_next (after (update e) self) = 12345 mod 181
  /\ 0 <= eye_l_x_next (after (update e) self) <= 180
  /\ 0 <= eye_l_y_next (after (update e) self) <= 120
  /\ 4000 <= _next_idle (after (update e) self) <= 6000.
Proof.
  intros self e.
  assert (engine_sequences self) as He by constructor.
  destruct (idle_target_in_bounds e self He eq_refl eq_refl
              ltac:(vm_compute; discriminate)) as [_ B].
  destruct (B eq_refl) as (Bx & By & Bn).
  split; [reflexivity|]. split; [reflexivity|].
  split; [exact Bx|]. split; [exact By|exact Bn].
Defined.
(** Auto-blink when it is due. *)
Lemma auto_blink_when_due (e : Tick) (s : RoboEyes) :
  auto_blink_due e s = true ->
  (blink_interval_variation s < 0 ->
   exists x,
     auto_blink e s = (Raise x, blink None None (blink_start e) s))
  /\ (0 <= blink_interval_variation s ->
      exists j,
        0 <= j <= blink_interval_variation s
        /\ auto_blink e s
           = (Return tt,
              assign (with__next_blink (now e + blink_interval s + j))
                (blink None None (blink_start e) s))).
Proof.
  intros Hdue. unfold auto_blink_due in Hdue.
  unfold auto_blink, bind, get, call. rewrite Hdue. cbv beta iota.
  set (b := blink None None (blink_start e) s).
  assert (blink_interval_variation b = blink_interval_variation s) as Ev.
  { pose proof (blink_lids None None (blink_start e) s) as E.
    unfold b. off E. }
  assert (blink_interval b = blink_interval s) as Ei.
  { pose proof (blink_lids None None (blink_start e) s) as E.
    unfold b. off E. }
  rewrite Ev, Ei. split.
  - intros Hv.
    destruct (randint_empty (blink_draw e) 0 (blink_interval_variation s) b
                Hv) as [x ->].
    exists x. reflexivity.
  - intros Hv.
    destruct (randint_range (blink_draw e) 0 (blink_interval_variation s) b
                Hv) as (j & Bj & ->).
    exists j. split; [exact Bj|reflexivity].
Qed.

(** X2.  Auto-blink.  In a frame in which auto-blink is due, [update] raises
    when the blink variation is negative, leaving the auto-blink timer where
    it was and the auto-blinker on (so auto-blink stays due); when [update]
    returns, one
    blink sequence for both eyes has been added after the existing ones, and
    the next auto-blink is scheduled between [blink_interval] and
    [blink_interval + blink_interval_variation] after [now]. *)
Theorem auto_blink_reschedules (e : Tick) (self : RoboEyes) :
  engine_sequences self ->
  coalesced e self = false ->
  auto_blink_due e self = true ->
  let self' := after (update e) self in
  (blink_interval_variation self < 0 ->
   (exists x, fst (update e self) = Raise x)
   /\ _next_blink self' = _next_blink self
   /\ autoblinker self' = true)
  /\ (fst (update e self) = Return tt ->
      now e + blink_interval self <= _next_blink self'
        <= now e + blink_interval self + blink_interval_variation self
      /\ sequences self'
         = map (sequence_after (seq_ticks e)) (sequences self)
           ++ [blink_sequence true true (blink_start e)]).
Proof.
  intros He Hc Hdue self'.
  set (s1 := sequences_update (seq_ticks e) self).
  set (s2 := assign (with_fps_timer (now e)) s1).
  pose proof (sequences_update_lids (seq_ticks e) self He) as E1.
  fold s1 in E1.
  assert (auto_blink_due e s2 = true) as Hdue2.
  { rewrite <- Hdue. apply (auto_blink_due_after_sequences e self He). }
  assert (blink_interval_variation s2 = blink_interval_variation self) as Ev.
  { change (blink_interval_variation s1 = blink_interval_variation self).
    off E1. }
  assert (blink_interval s2 = blink_interval self) as Ei.
  { change (blink_interval s1 = blink_interval self). off E1. }
  assert (_next_blink s2 = _next_blink self) as En.
  { change (_next_blink s1 = _next_blink self). off E1. }
  assert (autoblinker s2 = true) as Ha.
  { unfold auto_blink_due in Hdue2.
    apply andb_prop in Hdue2 as [H _]. exact H. }
  destruct (auto_blink_when_due e s2 Hdue2) as [Hraise Hret].
  rewrite Ev, Ei in *.
  pose proof (blink_lids None None (blink_start e) s2) as Eb.
  unfold self', after. rewrite (update_frame e self He Hc). fold s1.
  pose proof (frame_outcomes e s1) as FO. cbv zeta in FO. fold s2 in FO.
  split.
  - intros Hv. destruct (Hraise Hv) as [x Ex].
    unfold after in FO. rewrite Ex in FO. cbn [fst snd] in FO.
    destruct FO as [(x' & _ & ->)|[(K & _)|(K & _)]]; try discriminate K.
    cbn [fst snd]. split; [exists x'; reflexivity|].
    split.
    + rewrite <- En. off Eb.
    + rewrite <- Ha. off Eb.
  - intros Hr.
    destruct (Z.lt_ge_cases (blink_interval_variation self) 0) as [Hv|Hv].
    { destruct (Hraise Hv) as [x Ex].
      unfold after in FO. rewrite Ex in FO. cbn [fst snd] in FO.
      destruct FO as [(x' & _ & K)|[(K & _)|(K & _)]]; try discriminate K.
      rewrite K in Hr. discriminate Hr. }
    destruct (Hret Hv) as (j & Bj & Ex).
    unfold after in FO. rewrite Ex in FO. cbn [fst snd] in FO.
    set (s3 := assign (with__next_blink (now e + blink_interval self + j))
                 (blink None None (blink_start e) s2)) in *.
    destruct (idle_reposition_target e s3) as [Eidle Eseq].
    unfold after in Eidle, Eseq.
    destruct FO as [(x' & K & _)|[(_ & x' & _ & K)|(_ & _ & K)]];
      try discriminate K.
    { rewrite K in Hr. discriminate Hr. }
    rewrite K. cbn [snd].
    rewrite (overlays_field (fun a => _next_blink a) _ _ (fun _ => eq_refl)).
    rewrite (interpolate_field (fun a => _next_blink a) _
               (fun _ => eq_refl)).
    assert (_next_blink (snd (idle_reposition e s3))
            = now e + blink_interval self + j) as ->.
    { exact (field_off no_idle_target (fun a => _next_blink a)
               (fun _ => eq_refl) _ _ Eidle). }
    split; [lia|].
    destruct (overlays_overlays (now e)
                (interpolate (snd (idle_reposition e s3)))) as [_ ->].
    destruct (interpolate_geometry (snd (idle_reposition e s3)))
      as [_ ->].
    rewrite Eseq. unfold s3.
    change (sequences (blink None None (blink_start e) s2)
            = map (sequence_after (seq_ticks e)) (sequences self)
              ++ [blink_sequence true true (blink_start e)]).
    rewrite (blink_sequences None None (blink_start e) s2).
    change (sequences s2) with (sequences s1). unfold s1.
    rewrite sequences_update_sequences. reflexivity.
Qed.

Lemma auto_blink_reschedules_witness :
  let self :=
    set_auto_blinker ON (Some 3) (Some 2) 0
      (init 400 200 60 (10, 10, 15) (0, 255, 255) 0 0) in
  let e := BuildTick 3000 3000 3001 777 0 0 0 in
  auto_blink_due e self = true
  /\ 6000 <= _next_blink (after (update e) self) <= 8000
  /\ sequences (after (update e) self) = [blink_sequence true true 3001].
Proof.
  intros self e.
  assert (engine_sequences self) as He by constructor.
  destruct (auto_blink_reschedules e self He eq_refl eq_refl) as [_ B].
  destruct (B eq_refl) as (Bn & Bs).
  split; [reflexivity|]. split; [exact Bn|exact Bs].
Defined.
(** ** Position *)

(** X3.  The position setter.  When the eyes fit the screen ([max_x] and
    [max_y] not negative), every direction, known or not, puts the position
    target of the left eye in [0 .. max_x] x [0 .. max_y]; with two eyes the
    right edge of the right eye then stays on the screen.  A direction that
    is none of the eight compass values centres the eyes.  Nothing but the
    position target of the left eye is assigned: the other attributes and
    the sequences are as before. *)
Theorem set_position_in_bounds (direction : Z) (self : RoboEyes) :
  0 <= max_x self -> 0 <= max_y self ->
  let self' := set_position direction self in
  0 <= eye_l_x_next self' <= max_x self
  /\ 0 <= eye_l_y_next self' <= max_y self
  /\ (_cyclops self = false ->
      eye_l_x_next self' + eye_l_width_current self
      + space_between_current self + eye_r_width_current self
      <= screen_width self)
  /\ (direction < 1 \/ 8 < direction ->
      eye_l_x_next self' = max_x self / 2
      /\ eye_l_y_next self' = max_y self / 2)
  /\ no_idle_target (attrs self') = no_idle_target (attrs self)
  /\ _next_idle self' = _next_idle self
  /\ sequences self' = sequences self.
Proof.
  intros Hx Hy self'.
  assert (_cyclops self = false ->
          max_x self
          = screen_width self
            - (eye_l_width_current self + space_between_current self
               + eye_r_width_current self)) as Hmx.
  { intros Hc. unfold max_x. rewrite Hc. reflexivity. }
  assert (0 <= max_x self / 2 <= max_x self) as Dx
    by (Z.to_euclidean_division_equations; lia).
  assert (0 <= max_y self / 2 <= max_y self) as Dy
    by (Z.to_euclidean_division_equations; lia).
  unfold self', set_position, Direction.N, Direction.NE, Direction.E,
    Direction.SE, Direction.S, Direction.SW, Direction.W, Direction.NW.
  repeat match goal with
  | |- context [direction =? ?k] => destruct (Z.eqb_spec direction k)
  end;
    (split; [cbn; lia|]);
    (split; [cbn; lia|]);
    (split; [intros Hc; specialize (Hmx Hc); cbn; lia|]);
    (split; [|split; [|split]; reflexivity]);
    intros Hd; try lia; split; reflexivity.
Qed.

Lemma set_position_in_bounds_witness :
  let self := init 400 200 60 (10, 10, 15) (0, 255, 255) 0 0 in
  (max_x self, max_y self) = (180, 120)
  /\ (eye_l_x_next (set_position Direction.SE self),
      eye_l_y_next (set_position Direction.SE self)) = (180, 120)
  /\ 0 <= eye_l_x_next (set_position 99 self) <= 180
  /\ eye_l_x_next (set_position 99 self) = 90.
Proof.
  intros self.
  destruct (set_position_in_bounds 99 self ltac:(vm_compute; discriminate)
              ltac:(vm_compute; discriminate)) as (A & _ & _ & D & _).
  destruct (D ltac:(right; reflexivity)) as [D1 _].
  split; [reflexivity|]. split; [reflexivity|].
  split; [exact A|]. rewrite D1. reflexivity.
Defined.

(** ** The frame limiter, continued *)

(** X4.  Frames are spaced.  A call of [update] that gets past the frame
    limiter sets the frame timer to its clock reading, whether it then
    returns or a draw raises; every call whose clock reading is less than
    [frame_interval] later is coalesced. *)
Theorem frames_spaced (e1 e2 : Tick) (self : RoboEyes) :
  engine_sequences self ->
  coalesced e1 self = false ->
  now e2 - now e1 < frame_interval self ->
  fps_timer (after (update e1) self) = now e1
  /\ frame_interval (after (update e1) self) = frame_interval self
  /\ coalesced e2 (after (update e1) self) = true.
Proof.
  intros He Hc Hlt.
  assert (frame_interval (after (update e1) self) = frame_interval self)
    as Ei.
  { apply (update_field (fun a => frame_interval a) e1 self He);
      intros; reflexivity. }
  assert (fps_timer (after (update e1) self) = now e1) as Et.
  { unfold after. rewrite (update_frame e1 self He Hc).
    set (s1 := sequences_update (seq_ticks e1) self).
    set (s2 := assign (with_fps_timer (now e1)) s1).
    set (s3 := after (auto_blink e1) s2).
    assert (fps_timer s3 = now e1) as E3.
    { exact (field_off no_blink (fun a => fps_timer a) (fun _ => eq_refl)
               _ _ (auto_blink_blink e1 s2)). }
    assert (fps_timer (after (idle_reposition e1) s3) = now e1) as E4.
    { rewrite <- E3.
      destruct (idle_reposition_target e1 s3) as [E _].
      exact (field_off no_idle_target (fun a => fps_timer a)
               (fun _ => eq_refl) _ _ E). }
    pose proof (frame_outcomes e1 s1) as FO. cbv zeta in FO.
    fold s2 in FO. fold s3 in FO.
    destruct FO as [(x & _ & ->)|[(_ & x & _ & ->)|(_ & _ & ->)]];
      cbn [snd]; [exact E3|exact E4|].
    rewrite (overlays_field (fun a => fps_timer a) _ _ (fun _ => eq_refl)).
    rewrite (interpolate_field (fun a => fps_timer a) _ (fun _ => eq_refl)).
    exact E4. }
  split; [exact Et|]. split; [exact Ei|].
  unfold coalesced. rewrite Et, Ei. apply Z.ltb_lt. exact Hlt.
Qed.

Lemma frames_spaced_witness :
  let self := init 400 200 60 (10, 10, 15) (0, 255, 255) 0 0 in
  let e1 := BuildTick 1000 1000 1000 0 0 0 0 in
  let e2 := BuildTick 1015 1015 1015 0 0 0 0 in
  frame_interval self = 16
  /\ coalesced e1 self = false
  /\ coalesced e2 (after (update e1) self) = true.
Proof.
  intros self e1 e2.
  assert (engine_sequences self) as He by constructor.
  destruct (frames_spaced e1 e2 self He eq_refl ltac:(vm_compute; reflexivity))
    as (_ & _ & C).
  split; [reflexivity|]. split; [reflexivity|exact C].
Defined.

(** X5.  The frame rate.  [set_framerate] never divides by zero and never
    yields a negative interval: a rate of 0 or less gives 33 ms, a positive
    rate [fps] gives the interval [i] with [fps * i <= 1000 < fps * (i + 1)],
    and a rate above 1000 gives the interval 0, with which no call of
    [update] whose clock is not behind the frame timer is coalesced. *)
Theorem set_framerate_interval (fps : Z) (self : RoboEyes) :
  let self' := set_framerate fps self in
  0 <= frame_interval self'
  /\ (fps <= 0 -> frame_interval self' = 33)
  /\ (0 < fps ->
      fps * frame_interval self' <= 1000
      < fps * (frame_interval self' + 1))
  /\ (1000 < fps ->
      frame_interval self' = 0
      /\ forall e, fps_timer self <= now e -> coalesced e self' = false).
Proof.
  intros self'.
  assert (frame_interval self' = framerate_interval fps) as E by reflexivity.
  assert (fps_timer self' = fps_timer self) as Et by reflexivity.
  rewrite E. unfold framerate_interval.
  destruct (Z.gtb_spec fps 0) as [Hp|Hn].
  - split; [Z.to_euclidean_division_equations; nia|].
    split; [lia|].
    split; [intros _; Z.to_euclidean_division_equations; nia|].
    intros Hbig.
    assert (1000 / fps = 0) as Hz by (apply Z.div_small; lia).
    split; [exact Hz|].
    intros e Hnow. unfold coalesced. rewrite E, Et.
    unfold framerate_interval.
    destruct (Z.gtb_spec fps 0); [|lia]. rewrite Hz.
    apply Z.ltb_ge. lia.
  - split; [lia|]. split; [reflexivity|]. split; [lia|]. lia.
Qed.

Lemma set_framerate_interval_witness :
  let self := init 400 200 60 (10, 10, 15) (0, 255, 255) 0 0 in
  frame_interval (set_framerate 0 self) = 33
  /\ frame_interval (set_framerate 60 self) = 16
  /\ coalesced (BuildTick 0 0 0 0 0 0 0) (set_framerate 2000 self) = false.
Proof.
  intros self.
  destruct (set_framerate_interval 0 self) as (_ & A & _).
  destruct (set_framerate_interval 2000 self) as (_ & _ & _ & C).
  destruct (C ltac:(lia)) as [_ C2].
  split; [apply A; lia|]. split; [reflexivity|].
  apply (C2 (BuildTick 0 0 0 0 0 0 0)). cbn. lia.
Defined.
(** ** Wink *)

(** [update_keeps] with the wink restore taken at the clock reading of the
    call. *)
Lemma update_keeps_at (P : Attrs -> Prop) (e : Tick) (self : RoboEyes) :
  engine_sequences self ->
  (forall left right a, P a -> P (reopen left right a)) ->
  (forall v a, P a -> P (with_fps_timer v a)) ->
  (forall t s, P (attrs s) -> P (attrs (blink None None t s))) ->
  (forall v a, P a -> P (with__next_blink v a)) ->
  (forall a0 a1, no_idle_target a1 = no_idle_target a0 -> P a0 -> P a1) ->
  (forall s, P (attrs s) -> P (attrs (interpolate s))) ->
  (forall s, P (attrs s) -> P (attrs (wink_restore (now e) s))) ->
  (forall a0 a1, no_jitter a1 = no_jitter a0 -> P a0 -> P a1) ->
  P (attrs self) ->
  P (attrs (after (update e) self)).
Proof.
  intros He Hreopen Hfps Hblink Hnext Hidle Hinterp Hwink Hjit H0.
  set (s1 := sequences_update (seq_ticks e) self).
  assert (P (attrs s1)) as H1
    by (apply sequences_update_keeps; assumption).
  set (s2 := assign (with_fps_timer (now e)) s1).
  assert (P (attrs s2)) as H2 by (apply Hfps, H1).
  assert (P (attrs (after (auto_blink e) s2))) as H3.
  { unfold after.
    destruct (auto_blink_cases e s2) as [[_ ->]|[D [[x ->]|[v ->]]]];
      cbn [snd]; [exact H2|apply Hblink, H2|].
    apply Hnext. apply Hblink, H2. }
  assert (P (attrs (triggered e self))) as H4.
  { unfold triggered. fold s1. fold s2.
    destruct (idle_reposition_target e (after (auto_blink e) s2)) as [E _].
    exact (Hidle _ _ E H3). }
  unfold after.
  destruct (update_cases e self) as [[_ ->]|[_ [[x ->]|[[x ->]| ->]]]];
    cbn [snd]; [exact H1|exact H3|exact H4|].
  unfold overlays.
  destruct (jitter_jitter (now e)
              (confuse_jitter (now e)
                 (wink_restore (now e) (interpolate (triggered e self)))))
    as [_ E2].
  apply (Hjit _ _ E2).
  destruct (jitter_jitter (now e)
              (wink_restore (now e) (interpolate (triggered e self))))
    as [E1 _].
  apply (Hjit _ _ E1). apply Hwink, Hinterp, H4.
Qed.

Lemma wink_state_inv (a : Attrs) (l r : bool) (t d : Z) :
  wink_state a = (l, r, t, d) ->
  _wink_left a = l /\ _wink_right a = r
  /\ wink_timer a = t /\ wink_duration a = d.
Proof. unfold wink_state. intros H. injection H as -> -> -> ->. auto. Qed.

Lemma wink_state_eq (a0 a1 : Attrs) :
  wink_state a1 = wink_state a0 ->
  wink_timer a1 = wink_timer a0 /\ wink_duration a1 = wink_duration a0.
Proof. unfold wink_state. intros H. injection H as _ _ -> ->. auto. Qed.

(** While the wink has not expired, [update] keeps its state. *)
Lemma wink_restore_idle (t : Z) (s : RoboEyes) :
  t - wink_timer s <= wink_duration s -> wink_restore t s = s.
Proof.
  intros H. unfold wink_restore.
  destruct (Z.gtb_spec (t - wink_timer s) (wink_duration s)); [lia|].
  rewrite andb_false_r. reflexivity.
Qed.

Lemma update_wink_state (e : Tick) (self : RoboEyes) :
  engine_sequences self ->
  now e - wink_timer self <= wink_duration self ->
  wink_state (attrs (after (update e) self)) = wink_state (attrs self).
Proof.
  intros He Hnot.
  apply (update_keeps_at
           (fun a => wink_state a = wink_state (attrs self)) e self He).
  - intros l r a Ha. rewrite <- Ha.
    exact (field_off no_lids wink_state (fun _ => eq_refl) _ _
             (reopen_lids l r a)).
  - intros v a Ha. exact Ha.
  - intros t s Hs. rewrite <- Hs.
    exact (field_off no_lids wink_state (fun _ => eq_refl) _ _
             (blink_lids None None t s)).
  - intros v a Ha. exact Ha.
  - intros a0 a1 E Ha. rewrite <- Ha.
    exact (field_off no_idle_target wink_state (fun _ => eq_refl) _ _ E).
  - intros s Hs. rewrite <- Hs.
    apply (interpolate_field wink_state s (fun _ => eq_refl)).
  - intros s Hs. rewrite wink_restore_idle; [exact Hs|].
    destruct (wink_state_eq _ _ Hs) as [-> ->]. exact Hnot.
  - intros a0 a1 E Ha. rewrite <- Ha.
    exact (field_off no_jitter wink_state (fun _ => eq_refl) _ _ E).
  - reflexivity.
Qed.

Lemma updates_wink_state (pre : list Tick) (self : RoboEyes) :
  engine_sequences self ->
  Forall (fun e' => now e' - wink_timer self <= wink_duration self) pre ->
  wink_state (attrs (updates pre self)) = wink_state (attrs self).
Proof.
  revert self. induction pre as [|e pre IH]; intros self He Hpre;
    [reflexivity|].
  inversion Hpre as [|? ? Ht Hpre']; subst. simpl.
  pose proof (update_wink_state e self He Ht) as E.
  rewrite (IH _ (update_engine e self He)); [exact E|].
  destruct (wink_state_eq _ _ E) as [-> ->]. exact Hpre'.
Qed.

(** A call of [update] that is coalesced or raises ends before the
    interpolation: it leaves every attribute that the lids, the frame timer,
    the auto-blink timer and the idle move do not assign. *)
Lemma update_cut_short_field {A : Type} (f : Attrs -> A) (e : Tick)
    (self : RoboEyes) :
  engine_sequences self ->
  coalesced e self = true \/ fst (update e self) <> Return tt ->
  (forall a, f (no_lids a) = f a) ->
  (forall v a, f (with_fps_timer v a) = f a) ->
  (forall a, f (no_blink a) = f a) ->
  (forall a, f (no_idle_target a) = f a) ->
  f (attrs (after (update e) self)) = f (attrs self).
Proof.
  intros He Hcut F0 F1 F2 F3. unfold after.
  destruct (update_cases e self) as [[_ U]|[Hco [[x U]|[[x U]|U]]]];
    rewrite U; cbn [snd].
  - exact (field_off no_lids f F0 _ _ (sequences_update_lids _ self He)).
  - apply (blinked_field f e self He F0 F1 F2).
  - apply (triggered_field f e self He F0 F1 F2 F3).
  - exfalso. destruct Hcut as [Hc|Hr].
    + rewrite (coalesced_after_sequences e _ self He) in Hco. congruence.
    + apply Hr. rewrite U. reflexivity.
Qed.

(** The state of a wink is kept by every call of [update] but a frame that
    runs to its end after the wink has expired. *)
Lemma no_frame_past_wink_state (pre : list Tick) (self : RoboEyes)
    (l r : bool) (t d : Z) :
  engine_sequences self ->
  wink_state (attrs self) = (l, r, t, d) ->
  no_frame_past (fun e' => now e' - t <= d) pre self ->
  wink_state (attrs (updates pre self)) = (l, r, t, d).
Proof.
  revert self. induction pre as [|e pre IH]; intros self He Hs Hpre;
    [exact Hs|].
  destruct Hpre as [Hcall Hpre]. cbn [updates].
  apply IH; [apply update_engine, He| |exact Hpre].
  rewrite <- Hs.
  destruct (wink_state_inv _ _ _ _ _ Hs) as (_ & _ & Et & Ed).
  destruct Hcall as [Ht|Hcut].
  - apply update_wink_state; [exact He|]. rewrite Et, Ed. exact Ht.
  - apply (update_cut_short_field wink_state e self He Hcut);
      intros; reflexivity.
Qed.

(** When the wink has expired, the restore reopens the winked eyes and
    clears the flags. *)
Lemma wink_restore_fires (t : Z) (s : RoboEyes) :
  _wink_left s || _wink_right s = true ->
  wink_duration s < t - wink_timer s ->
  (_wink_left s = true -> left_restored (wink_restore t s))
  /\ (_wink_right s = true -> _cyclops s = false ->
      right_restored (wink_restore t s))
  /\ _wink_left (wink_restore t s) = false
  /\ _wink_right (wink_restore t s) = false.
Proof.
  intros Hw Hexp. unfold wink_restore, left_restored, right_restored.
  rewrite Hw.
  destruct (Z.gtb_spec (t - wink_timer s) (wink_duration s)); [|lia].
  cbn [andb].
  destruct (_wink_left s); cbn;
    destruct (_wink_right s); cbn;
    destruct (_cyclops s); cbn;
    repeat split; intros; try discriminate; reflexivity.
Qed.

(** What a wink does at once. *)
Lemma wink_at_once (left right : option bool) (t0 : Z) (self : RoboEyes) :
  truthy left || truthy right = true ->
  let winked := after (wink left right t0) self in
  fst (wink left right t0 self) = Return tt
  /\ wink_state (attrs winked)
     = (truthy left, truthy right, t0, wink_duration self)
  /\ (truthy left = true ->
      eye_l_height_next winked = 1 /\ eye_l_open winked = false)
  /\ (truthy right = true -> _cyclops self = false ->
      eye_r_height_next winked = 1 /\ eye_r_open winked = false)
  /\ sequences winked = sequences self.
Proof.
  intros H. unfold after, wink, raise, ret. rewrite H. cbn [negb].
  destruct (truthy left), (truthy right); cbn;
    destruct (_cyclops self); cbn;
    repeat split; intros; try discriminate; reflexivity.
Qed.

(** X6.  The round trip of a wink.  [wink] with a side true returns and
    closes the eyes it names (the right one only with two eyes).  While no
    more than [wink_duration] has passed every call of [update] keeps the
    wink flags, and so does, at any time, a call that is coalesced or
    raises; the first call that gets past the frame limiter and returns more
    than [wink_duration] after the wink restores the winked eyes (height
    target equal to the default height, marked open) and clears the flags,
    even when auto-blink blinks in that same call. *)
Theorem wink_round_trip (left right : option bool) (t0 : Z)
    (self : RoboEyes) (pre : list Tick) (e : Tick) :
  engine_sequences self ->
  truthy left || truthy right = true ->
  wink_duration self < now e - t0 ->
  let winked := after (wink left right t0) self in
  no_frame_past (fun e' => now e' - t0 <= wink_duration self) pre winked ->
  let before := updates pre winked in
  let restored := after (update e) before in
  coalesced e before = false ->
  fst (update e before) = Return tt ->
  fst (wink left right t0 self) = Return tt
  /\ (truthy left = true ->
      eye_l_height_next winked = 1 /\ eye_l_open winked = false)
  /\ (truthy right = true -> _cyclops self = false ->
      eye_r_height_next winked = 1 /\ eye_r_open winked = false)
  /\ (_wink_left before = truthy left /\ _wink_right before = truthy right)
  /\ (truthy left = true -> left_restored restored)
  /\ (truthy right = true -> _cyclops self = false ->
      right_restored restored)
  /\ _wink_left restored = false
  /\ _wink_right restored = false.
Proof.
  intros He Hside Hexp winked Hpre before restored Hc Hr.
  destruct (wink_at_once left right t0 self Hside)
    as (W1 & W2 & W3 & W4 & W5).
  fold winked in W2, W3, W4, W5.
  assert (engine_sequences winked) as Hew.
  { unfold engine_sequences. rewrite W5. exact He. }
  assert (_cyclops winked = _cyclops self) as Hcw.
  { destruct (wink_lids left right t0 self) as [E _]. fold winked in E.
    exact (field_off no_wink (fun a => _cyclops a) (fun _ => eq_refl)
             _ _ E). }
  assert (wink_state (attrs before)
          = (truthy left, truthy right, t0, wink_duration self)) as Wb.
  { unfold before.
    apply (no_frame_past_wink_state pre winked _ _ _ _ Hew W2 Hpre). }
  assert (engine_sequences before) as Heb.
  { unfold before. clear - Hew. revert Hew. generalize winked.
    induction pre as [|e' pre IH]; intros s Hs; [exact Hs|].
    simpl. apply IH. apply update_engine, Hs. }
  assert (_cyclops before = _cyclops self) as Hcb.
  { rewrite <- Hcw. unfold before.
    apply (updates_field (fun a => _cyclops a) pre winked Hew);
      intros; reflexivity. }
  set (t := triggered e before).
  assert (wink_state (attrs (interpolate t))
          = (truthy left, truthy right, t0, wink_duration self)) as Wt.
  { rewrite <- Wb.
    rewrite (interpolate_field wink_state t (fun _ => eq_refl)).
    apply (triggered_field wink_state e before Heb); intros; reflexivity. }
  assert (_cyclops (interpolate t) = _cyclops self) as Hct.
  { rewrite <- Hcb.
    rewrite (interpolate_field (fun a => _cyclops a) t (fun _ => eq_refl)).
    apply (triggered_field (fun a => _cyclops a) e before Heb);
      intros; reflexivity. }
  destruct (wink_state_inv _ _ _ _ _ Wt) as (Wl & Wr & Wtm & Wd).
  destruct (wink_restore_fires (now e) (interpolate t)) as (R1 & R2 & R3 & R4).
  { rewrite Wl, Wr. exact Hside. }
  { rewrite Wtm, Wd. exact Hexp. }
  set (w := wink_restore (now e) (interpolate t)) in *.
  assert (no_jitter (attrs restored) = no_jitter (attrs w)) as Ej.
  { unfold restored.
    rewrite (update_processed_engine e before Heb Hc Hr). fold t.
    unfold overlays. fold w.
    destruct (jitter_jitter (now e) (confuse_jitter (now e) w)) as [_ E2].
    destruct (jitter_jitter (now e) w) as [E1 _]. congruence. }
  split; [exact W1|]. split; [exact W3|]. split; [exact W4|].
  split.
  { destruct (wink_state_inv _ _ _ _ _ Wb) as (-> & -> & _). split; reflexivity. }
  split.
  { intros Hl. apply (left_restored_ext (attrs w)); [|apply R1; congruence].
    exact (field_off no_jitter
             (fun a => (eye_l_height_next a, eye_l_height_default a,
                        eye_l_open a)) (fun _ => eq_refl) _ _ Ej). }
  split.
  { intros Hrt Hcy.
    apply (right_restored_ext (attrs w)).
    - exact (field_off no_jitter
               (fun a => (_cyclops a, eye_r_height_next a,
                          eye_r_height_default a, eye_r_open a))
               (fun _ => eq_refl) _ _ Ej).
    - intros _. apply R2; congruence.
    - transitivity (_cyclops w).
      + exact (field_off no_jitter (fun a => _cyclops a)
                 (fun _ => eq_refl) _ _ Ej).
      + rewrite <- Hcy, <- Hct.
        exact (field_off no_wink (fun a => _cyclops a) (fun _ => eq_refl)
                 _ _ (wink_restore_wink (now e) (interpolate t))). }
  split.
  - rewrite <- R3.
    exact (field_off no_jitter (fun a => _wink_left a) (fun _ => eq_refl)
             _ _ Ej).
  - rewrite <- R4.
    exact (field_off no_jitter (fun a => _wink_right a) (fun _ => eq_refl)
             _ _ Ej).
Qed.

(** A wink at 1000 on a new object (wink duration 300, frame interval 16):
    the frame at 1290 keeps it, the call at 1301 comes after the wink has
    expired but is coalesced and keeps it too, and the frame at 1306
    restores the eye. *)
Lemma wink_round_trip_witness :
  let self := init 400 200 60 (10, 10, 15) (0, 255, 255) 0 0 in
  let tick t := BuildTick t t t 0 0 0 0 in
  let winked := after (wink (Some true) (Some false) 1000) self in
  eye_l_height_next winked = 1
  /\ coalesced (tick 1301) (updates [tick 1290] winked) = true
  /\ _wink_left (updates [tick 1290; tick 1301] winked) = true
  /\ eye_l_height_next
       (after (update (tick 1306)) (updates [tick 1290; tick 1301] winked))
     = 80.
Proof.
  intros self tick winked.
  assert (engine_sequences self) as He by constructor.
  assert (coalesced (tick 1301) (updates [tick 1290] winked) = true) as Hco
    by (vm_compute; reflexivity).
  assert (no_frame_past (fun e' => now e' - 1000 <= wink_duration self)
            [tick 1290; tick 1301] winked) as Hpre.
  { split; [left; cbn; lia|]. split; [right; left; vm_compute; reflexivity|exact I]. }
  destruct (wink_round_trip (Some true) (Some false) 1000 self
              [tick 1290; tick 1301] (tick 1306) He eq_refl
              ltac:(cbn; lia) Hpre ltac:(vm_compute; reflexivity)
              ltac:(vm_compute; reflexivity))
    as (_ & A & _ & (B & _) & C & _).
  destruct (A eq_refl) as [A1 _]. destruct (C eq_refl) as [C1 _].
  split; [exact A1|]. split; [exact Hco|]. split; [exact B|].
  etransitivity; [exact C1|vm_compute; reflexivity].
Defined.
(** ** Confuse and laugh *)

Lemma confuse_state_inv (a : Attrs) (b : bool) (t d : Z) :
  confuse_state a = (b, t, d) ->
  _confused a = b /\ confused_animation_timer a = t
  /\ confused_duration a = d.
Proof. unfold confuse_state. intros H. injection H as -> -> ->. auto. Qed.

Lemma laugh_state_inv (a : Attrs) (b : bool) (t d : Z) :
  laugh_state a = (b, t, d) ->
  _laugh a = b /\ laugh_animation_timer a = t /\ laugh_duration a = d.
Proof. unfold laugh_state. intros H. injection H as -> -> ->. auto. Qed.

Lemma shake_magnitude (jitter t : Z) :
  shake jitter t = jitter \/ shake jitter t = - jitter.
Proof. unfold shake. destruct ((t / 80) mod 2 =? 0); auto. Qed.

(** The end of a frame for an object that is confused. *)
Lemma overlays_confused (t : Z) (s : RoboEyes) :
  _confused s = true ->
  (t - confused_animation_timer s < confused_duration s ->
   confuse_state (attrs (overlays t s)) = confuse_state (attrs s)
   /\ eye_l_x (overlays t s) = eye_l_x s + shake 20 t
   /\ eye_r_x (overlays t s) = eye_r_x s + shake 20 t)
  /\ (confused_duration s <= t - confused_animation_timer s ->
      _confused (overlays t s) = false
      /\ eye_l_x (overlays t s) = eye_l_x s
      /\ eye_r_x (overlays t s) = eye_r_x s).
Proof.
  intros Hc. pose proof (wink_restore_wink t s) as E.
  set (w := wink_restore t s) in *.
  assert (_confused w = true) as Hcw by (rewrite <- Hc; off E).
  assert (confused_animation_timer w = confused_animation_timer s) as Et
    by off E.
  assert (confused_duration w = confused_duration s) as Ed by off E.
  assert (eye_l_x w = eye_l_x s) as Elx by off E.
  assert (eye_r_x w = eye_r_x s) as Erx by off E.
  assert (confuse_state (attrs w) = confuse_state (attrs s)) as Es by off E.
  unfold overlays. fold w.
  destruct (laugh_jitter_x t (confuse_jitter t w)) as [-> ->].
  assert (forall r, confuse_state (attrs (laugh_jitter t r))
                    = confuse_state (attrs r)) as Hl.
  { intros r. unfold laugh_jitter. split_ifs; reflexivity. }
  assert (forall r, _confused (laugh_jitter t r) = _confused r) as Hl'.
  { intros r. unfold laugh_jitter. split_ifs; reflexivity. }
  rewrite Hl, Hl'. unfold confuse_jitter. rewrite Hcw, Et, Ed.
  split; intros H.
  - destruct (Z.ltb_spec (t - confused_animation_timer s)
                (confused_duration s)); [|lia].
    rewrite <- Es, <- Elx, <- Erx. repeat split; reflexivity.
  - destruct (Z.ltb_spec (t - confused_animation_timer s)
                (confused_duration s)); [lia|].
    rewrite <- Elx, <- Erx. repeat split; reflexivity.
Qed.

(** The end of a frame for an object that is laughing. *)
Lemma overlays_laughing (t : Z) (s : RoboEyes) :
  _laugh s = true ->
  (t - laugh_animation_timer s < laugh_duration s ->
   laugh_state (attrs (overlays t s)) = laugh_state (attrs s)
   /\ eye_l_y (overlays t s) = eye_l_y s + shake 15 t
   /\ eye_r_y (overlays t s) = eye_r_y s + shake 15 t)
  /\ (laugh_duration s <= t - laugh_animation_timer s ->
      _laugh (overlays t s) = false
      /\ eye_l_y (overlays t s) = eye_l_y s
      /\ eye_r_y (overlays t s) = eye_r_y s).
Proof.
  intros Hc. pose proof (wink_restore_wink t s) as E.
  set (w := wink_restore t s) in *.
  assert (forall r, laugh_state (attrs (confuse_jitter t r))
                    = laugh_state (attrs r)) as Hk.
  { intros r. unfold confuse_jitter. split_ifs; reflexivity. }
  destruct (confuse_jitter_y t w) as (Y1 & Y2 & Y3).
  set (k := confuse_jitter t w) in *.
  assert (laugh_state (attrs k) = laugh_state (attrs s)) as Es.
  { unfold k. rewrite Hk. off E. }
  destruct (laugh_state_inv _ _ _ _ Es) as (Hlk & Et & Ed).
  rewrite Hc in Hlk.
  assert (eye_l_y k = eye_l_y s) as Ely by (rewrite Y1; off E).
  assert (eye_r_y k = eye_r_y s) as Ery by (rewrite Y2; off E).
  unfold overlays. fold w. fold k. unfold laugh_jitter.
  rewrite Hlk, Et, Ed.
  split; intros H.
  - destruct (Z.ltb_spec (t - laugh_animation_timer s) (laugh_duration s));
      [|lia].
    rewrite <- Es, <- Ely, <- Ery. repeat split; reflexivity.
  - destruct (Z.ltb_spec (t - laugh_animation_timer s) (laugh_duration s));
      [lia|].
    rewrite <- Ely, <- Ery. repeat split; reflexivity.
Qed.

(** While the animation has not expired, a call of [update] keeps its
    state, however the call ends. *)
Lemma update_confuse_state (e : Tick) (self : RoboEyes) :
  engine_sequences self ->
  _confused self = true ->
  now e - confused_animation_timer self < confused_duration self ->
  confuse_state (attrs (after (update e) self)) = confuse_state (attrs self).
Proof.
  intros He Hc Hnot.
  assert (confuse_state (attrs (triggered e self))
          = confuse_state (attrs self)) as E4.
  { apply (triggered_field confuse_state e self He); intros; reflexivity. }
  unfold after.
  destruct (update_cases e self) as [[_ ->]|[_ [[x ->]|[[x ->]| ->]]]];
    cbn [snd].
  - exact (field_off no_lids confuse_state (fun _ => eq_refl) _ _
             (sequences_update_lids _ self He)).
  - apply (blinked_field confuse_state e self He); intros; reflexivity.
  - exact E4.
  - set (i := interpolate (triggered e self)).
    assert (confuse_state (attrs i) = confuse_state (attrs self)) as Ei.
    { rewrite <- E4.
      apply (interpolate_field confuse_state _ (fun _ => eq_refl)). }
    destruct (confuse_state_inv _ _ _ _ Ei) as (Hci & Eti & Edi).
    rewrite Hc in Hci.
    destruct (overlays_confused (now e) i Hci) as [A _].
    rewrite Eti, Edi in A. destruct (A Hnot) as [A1 _].
    rewrite A1. exact Ei.
Qed.

Lemma update_laugh_state (e : Tick) (self : RoboEyes) :
  engine_sequences self ->
  _laugh self = true ->
  now e - laugh_animation_timer self < laugh_duration self ->
  laugh_state (attrs (after (update e) self)) = laugh_state (attrs self).
Proof.
  intros He Hc Hnot.
  assert (laugh_state (attrs (triggered e self))
          = laugh_state (attrs self)) as E4.
  { apply (triggered_field laugh_state e self He); intros; reflexivity. }
  unfold after.
  destruct (update_cases e self) as [[_ ->]|[_ [[x ->]|[[x ->]| ->]]]];
    cbn [snd].
  - exact (field_off no_lids laugh_state (fun _ => eq_refl) _ _
             (sequences_update_lids _ self He)).
  - apply (blinked_field laugh_state e self He); intros; reflexivity.
  - exact E4.
  - set (i := interpolate (triggered e self)).
    assert (laugh_state (attrs i) = laugh_state (attrs self)) as Ei.
    { rewrite <- E4.
      apply (interpolate_field laugh_state _ (fun _ => eq_refl)). }
    destruct (laugh_state_inv _ _ _ _ Ei) as (Hci & Eti & Edi).
    rewrite Hc in Hci.
    destruct (overlays_laughing (now e) i Hci) as [A _].
    rewrite Eti, Edi in A. destruct (A Hnot) as [A1 _].
    rewrite A1. exact Ei.
Qed.

Lemma updates_engine (es : list Tick) (self : RoboEyes) :
  engine_sequences self -> engine_sequences (updates es self).
Proof.
  revert self. induction es as [|e es IH]; intros self He; [exact He|].
  simpl. apply IH, update_engine, He.
Qed.

Lemma updates_confuse_state (pre : list Tick) (self : RoboEyes) (t d : Z) :
  engine_sequences self ->
  confuse_state (attrs self) = (true, t, d) ->
  Forall (fun e' => now e' - t < d) pre ->
  confuse_state (attrs (updates pre self)) = (true, t, d).
Proof.
  revert self. induction pre as [|e pre IH]; intros self He Hs Hpre;
    [exact Hs|].
  inversion Hpre as [|? ? Ht Hpre']; subst. simpl.
  apply IH; [apply update_engine, He| |exact Hpre'].
  destruct (confuse_state_inv _ _ _ _ Hs) as (Hc & Et & Ed).
  rewrite <- Hs. apply update_confuse_state; [exact He|exact Hc|].
  rewrite Et, Ed. exact Ht.
Qed.

Lemma updates_laugh_state (pre : list Tick) (self : RoboEyes) (t d : Z) :
  engine_sequences self ->
  laugh_state (attrs self) = (true, t, d) ->
  Forall (fun e' => now e' - t < d) pre ->
  laugh_state (attrs (updates pre self)) = (true, t, d).
Proof.
  revert self. induction pre as [|e pre IH]; intros self He Hs Hpre;
    [exact Hs|].
  inversion Hpre as [|? ? Ht Hpre']; subst. simpl.
  apply IH; [apply update_engine, He| |exact Hpre'].
  destruct (laugh_state_inv _ _ _ _ Hs) as (Hc & Et & Ed).
  rewrite <- Hs. apply update_laugh_state; [exact He|exact Hc|].
  rewrite Et, Ed. exact Ht.
Qed.
(** The state of a confusion, and of a laugh, is kept by every call of
    [update] but a frame that runs to its end after the animation has
    expired. *)
Lemma no_frame_past_confuse_state (pre : list Tick) (self : RoboEyes)
    (t d : Z) :
  engine_sequences self ->
  confuse_state (attrs self) = (true, t, d) ->
  no_frame_past (fun e' => now e' - t < d) pre self ->
  confuse_state (attrs (updates pre self)) = (true, t, d).
Proof.
  revert self. induction pre as [|e pre IH]; intros self He Hs Hpre;
    [exact Hs|].
  destruct Hpre as [Hcall Hpre]. cbn [updates].
  apply IH; [apply update_engine, He| |exact Hpre].
  rewrite <- Hs.
  destruct (confuse_state_inv _ _ _ _ Hs) as (Hc & Et & Ed).
  destruct Hcall as [Ht|Hcut].
  - apply update_confuse_state; [exact He|exact Hc|].
    rewrite Et, Ed. exact Ht.
  - apply (update_cut_short_field confuse_state e self He Hcut);
      intros; reflexivity.
Qed.

Lemma no_frame_past_laugh_state (pre : list Tick) (self : RoboEyes)
    (t d : Z) :
  engine_sequences self ->
  laugh_state (attrs self) = (true, t, d) ->
  no_frame_past (fun e' => now e' - t < d) pre self ->
  laugh_state (attrs (updates pre self)) = (true, t, d).
Proof.
  revert self. induction pre as [|e pre IH]; intros self He Hs Hpre;
    [exact Hs|].
  destruct Hpre as [Hcall Hpre]. cbn [updates].
  apply IH; [apply update_engine, He| |exact Hpre].
  rewrite <- Hs.
  destruct (laugh_state_inv _ _ _ _ Hs) as (Hc & Et & Ed).
  destruct Hcall as [Ht|Hcut].
  - apply update_laugh_state; [exact He|exact Hc|].
    rewrite Et, Ed. exact Ht.
  - apply (update_cut_short_field laugh_state e self He Hcut);
      intros; reflexivity.
Qed.

(** X7.  The life of a confusion.  [confuse] moves nothing at once: the
    horizontal position of the left eye and its target are as before.
    While less than [confused_duration] has passed, every call
    of [update] keeps the flag, and a call that gets past the frame limiter
    and returns adds the same shake of 20 pixels, left or right by the parity
    of [now // 80], to the interpolated horizontal position of both eyes.
    A call that is coalesced or raises keeps the flag at any time.  The
    first call that gets past the frame limiter and returns at or after
    [confused_duration] clears the flag and adds no shake.  The shake is added to the positions only: the position
    target of the left eye is the one the triggers of the frame left. *)
Theorem confuse_lifecycle (t0 : Z) (self : RoboEyes) (pre : list Tick)
    (e : Tick) :
  engine_sequences self ->
  let c := confuse t0 self in
  no_frame_past (fun e' => now e' - t0 < confused_duration self) pre c ->
  let before := updates pre c in
  let c' := after (update e) before in
  let t := triggered e before in
  coalesced e before = false ->
  fst (update e before) = Return tt ->
  (eye_l_x c = eye_l_x self /\ eye_l_x_next c = eye_l_x_next self)
  /\ _confused before = true
  /\ (now e - t0 < confused_duration self ->
      _confused c' = true
      /\ eye_l_x c' = lerp (eye_l_x before) (eye_l_x_next t) + shake 20 (now e)
      /\ eye_r_x c'
         = lerp (eye_r_x before) (eye_r_x_next c') + shake 20 (now e))
  /\ (confused_duration self <= now e - t0 ->
      _confused c' = false
      /\ eye_l_x c' = lerp (eye_l_x before) (eye_l_x_next t)
      /\ eye_r_x c' = lerp (eye_r_x before) (eye_r_x_next c'))
  /\ (shake 20 (now e) = 20 \/ shake 20 (now e) = -20)
  /\ eye_l_x_next c' = eye_l_x_next t.
Proof.
  intros He c Hpre before c' t Hc Hr.
  assert (engine_sequences c) as Hec by exact He.
  assert (engine_sequences before) as Heb by apply updates_engine, Hec.
  assert (confuse_state (attrs before)
          = (true, t0, confused_duration self)) as Sb.
  { apply no_frame_past_confuse_state; [exact Hec|reflexivity|exact Hpre]. }
  pose proof (update_processed_engine e before Heb Hc Hr) as E.
  fold c' in E. fold t in E.
  set (i := interpolate t) in *.
  destruct (interpolate_values t)
    as (_ & _ & _ & _ & _ & _ & _ & V8 & _ & _ & _ & V12 & _).
  cbv zeta in V8, V12. fold i in V8, V12.
  assert (forall f : Attrs -> Z,
            (forall a, f (no_lids a) = f a) ->
            (forall v a, f (with_fps_timer v a) = f a) ->
            (forall a, f (no_blink a) = f a) ->
            (forall a, f (no_idle_target a) = f a) ->
            f (attrs t) = f (attrs before)) as Ht.
  { intros f. apply (triggered_field f e before Heb). }
  rewrite (Ht (fun a => eye_l_x a)) in V8 by (intros; reflexivity).
  rewrite (Ht (fun a => eye_r_x a)) in V12 by (intros; reflexivity).
  assert (confuse_state (attrs i) = (true, t0, confused_duration self))
    as Si.
  { rewrite <- Sb. unfold i.
    rewrite (interpolate_field confuse_state t (fun _ => eq_refl)).
    apply (triggered_field confuse_state e before Heb); intros; reflexivity. }
  destruct (confuse_state_inv _ _ _ _ Si) as (Hci & Eti & Edi).
  destruct (overlays_confused (now e) i Hci) as [A B].
  rewrite Eti, Edi in A, B. rewrite <- E in A, B.
  assert (eye_r_x_next c' = eye_r_x_next i) as En.
  { rewrite E. apply (overlays_field (fun a => eye_r_x_next a) _ _
                        (fun _ => eq_refl)). }
  split; [split; reflexivity|].
  split; [exact (proj1 (confuse_state_inv _ _ _ _ Sb))|].
  split; [|split; [|split]].
  - intros H. destruct (A H) as (A1 & A2 & A3).
    split.
    + destruct (confuse_state_inv _ _ _ _ (eq_trans A1 Si)) as [K _]. exact K.
    + rewrite A2, A3, V8, V12, En. split; reflexivity.
  - intros H. destruct (B H) as (B1 & B2 & B3).
    split; [exact B1|]. rewrite B2, B3, V8, V12, En. split; reflexivity.
  - apply shake_magnitude.
  - rewrite E.
    rewrite (overlays_field (fun a => eye_l_x_next a) _ _ (fun _ => eq_refl)).
    apply (interpolate_field (fun a => eye_l_x_next a) t (fun _ => eq_refl)).
Qed.

(** On a new object (confused_duration 500, frame interval 16): the frame at 1100
    shakes by 20; the frame at 1490 keeps the flag, the call at 1501 comes
    after the animation has expired but is coalesced and keeps it too, and
    the frame at 1506 clears it. *)
Lemma confuse_lifecycle_witness :
  let self := init 400 200 60 (10, 10, 15) (0, 255, 255) 0 0 in
  let tick t := BuildTick t t t 0 0 0 0 in
  let c := confuse 1000 self in
  eye_l_x self = 90
  /\ eye_l_x (after (update (tick 1100)) c) = 90 - 20
  /\ coalesced (tick 1501) (updates [tick 1490] c) = true
  /\ _confused (updates [tick 1490; tick 1501] c) = true
  /\ _confused (after (update (tick 1506)) (updates [tick 1490; tick 1501] c))
     = false.
Proof.
  intros self tick c.
  assert (engine_sequences self) as He by constructor.
  destruct (confuse_lifecycle 1000 self [] (tick 1100) He I eq_refl eq_refl)
    as (_ & _ & A & _).
  destruct (A ltac:(cbn; lia)) as (_ & A2 & _).
  assert (coalesced (tick 1501) (updates [tick 1490] c) = true) as Hco
    by (vm_compute; reflexivity).
  assert (no_frame_past (fun e' => now e' - 1000 < confused_duration self)
            [tick 1490; tick 1501] c) as Hpre.
  { split; [left; cbn; lia|]. split; [right; left; vm_compute; reflexivity|exact I]. }
  destruct (confuse_lifecycle 1000 self [tick 1490; tick 1501] (tick 1506) He Hpre
              ltac:(vm_compute; reflexivity) ltac:(vm_compute; reflexivity))
    as (_ & K & _ & B & _).
  destruct (B ltac:(cbn; lia)) as (B1 & _).
  split; [reflexivity|]. split; [|split; [exact Hco|split; [exact K|exact B1]]].
  etransitivity; [exact A2|vm_compute; reflexivity].
Defined.

(** X8.  The life of a laugh.  It is the life of a confusion on the vertical
    positions, over [laugh_duration] and with a shake of 15 pixels: calls
    that are coalesced or raise keep the flag at any time, and the first
    call that gets past the frame limiter and returns at or after
    [laugh_duration] clears it. *)
Theorem laugh_lifecycle (t0 : Z) (self : RoboEyes) (pre : list Tick)
    (e : Tick) :
  engine_sequences self ->
  let c := laugh t0 self in
  no_frame_past (fun e' => now e' - t0 < laugh_duration self) pre c ->
  let before := updates pre c in
  let c' := after (update e) before in
  let t := triggered e before in
  coalesced e before = false ->
  fst (update e before) = Return tt ->
  (eye_l_y c = eye_l_y self /\ eye_l_y_next c = eye_l_y_next self)
  /\ _laugh before = true
  /\ (now e - t0 < laugh_duration self ->
      _laugh c' = true
      /\ eye_l_y c' = lerp (eye_l_y before) (eye_l_y_next t) + shake 15 (now e)
      /\ eye_r_y c'
         = lerp (eye_r_y before) (eye_r_y_next c') + shake 15 (now e))
  /\ (laugh_duration self <= now e - t0 ->
      _laugh c' = false
      /\ eye_l_y c' = lerp (eye_l_y before) (eye_l_y_next t)
      /\ eye_r_y c' = lerp (eye_r_y before) (eye_r_y_next c'))
  /\ (shake 15 (now e) = 15 \/ shake 15 (now e) = -15)
  /\ eye_l_y_next c' = eye_l_y_next t.
Proof.
  intros He c Hpre before c' t Hc Hr.
  assert (engine_sequences c) as Hec by exact He.
  assert (engine_sequences before) as Heb by apply updates_engine, Hec.
  assert (laugh_state (attrs before) = (true, t0, laugh_duration self)) as Sb.
  { apply no_frame_past_laugh_state; [exact Hec|reflexivity|exact Hpre]. }
  pose proof (update_processed_engine e before Heb Hc Hr) as E.
  fold c' in E. fold t in E.
  set (i := interpolate t) in *.
  destruct (interpolate_values t)
    as (_ & _ & _ & _ & _ & _ & _ & _ & V9 & _ & _ & _ & V13).
  cbv zeta in V9, V13. fold i in V9, V13.
  assert (forall f : Attrs -> Z,
            (forall a, f (no_lids a) = f a) ->
            (forall v a, f (with_fps_timer v a) = f a) ->
            (forall a, f (no_blink a) = f a) ->
            (forall a, f (no_idle_target a) = f a) ->
            f (attrs t) = f (attrs before)) as Ht.
  { intros f. apply (triggered_field f e before Heb). }
  rewrite (Ht (fun a => eye_l_y a)) in V9 by (intros; reflexivity).
  rewrite (Ht (fun a => eye_r_y a)) in V13 by (intros; reflexivity).
  assert (laugh_state (attrs i) = (true, t0, laugh_duration self)) as Si.
  { rewrite <- Sb. unfold i.
    rewrite (interpolate_field laugh_state t (fun _ => eq_refl)).
    apply (triggered_field laugh_state e before Heb); intros; reflexivity. }
  destruct (laugh_state_inv _ _ _ _ Si) as (Hci & Eti & Edi).
  destruct (overlays_laughing (now e) i Hci) as [A B].
  rewrite Eti, Edi in A, B. rewrite <- E in A, B.
  assert (eye_r_y_next c' = eye_r_y_next i) as En.
  { rewrite E. apply (overlays_field (fun a => eye_r_y_next a) _ _
                        (fun _ => eq_refl)). }
  split; [split; reflexivity|].
  split; [exact (proj1 (laugh_state_inv _ _ _ _ Sb))|].
  split; [|split; [|split]].
  - intros H. destruct (A H) as (A1 & A2 & A3).
    split.
    + destruct (laugh_state_inv _ _ _ _ (eq_trans A1 Si)) as [K _]. exact K.
    + rewrite A2, A3, V9, V13, En. split; reflexivity.
  - intros H. destruct (B H) as (B1 & B2 & B3).
    split; [exact B1|]. rewrite B2, B3, V9, V13, En. split; reflexivity.
  - apply shake_magnitude.
  - rewrite E.
    rewrite (overlays_field (fun a => eye_l_y_next a) _ _ (fun _ => eq_refl)).
    apply (interpolate_field (fun a => eye_l_y_next a) t (fun _ => eq_refl)).
Qed.

(** On a new object (laugh_duration 500, frame interval 16): the frame at 1100
    shakes by 15; the frame at 1490 keeps the flag, the call at 1501 comes
    after the animation has expired but is coalesced and keeps it too, and
    the frame at 1506 clears it. *)
Lemma laugh_lifecycle_witness :
  let self := init 400 200 60 (10, 10, 15) (0, 255, 255) 0 0 in
  let tick t := BuildTick t t t 0 0 0 0 in
  let c := laugh 1000 self in
  eye_l_y self = 60
  /\ eye_l_y (after (update (tick 1100)) c) = 60 - 15
  /\ coalesced (tick 1501) (updates [tick 1490] c) = true
  /\ _laugh (updates [tick 1490; tick 1501] c) = true
  /\ _laugh (after (update (tick 1506)) (updates [tick 1490; tick 1501] c))
     = false.
Proof.
  intros self tick c.
  assert (engine_sequences self) as He by constructor.
  destruct (laugh_lifecycle 1000 self [] (tick 1100) He I eq_refl eq_refl)
    as (_ & _ & A & _).
  destruct (A ltac:(cbn; lia)) as (_ & A2 & _).
  assert (coalesced (tick 1501) (updates [tick 1490] c) = true) as Hco
    by (vm_compute; reflexivity).
  assert (no_frame_past (fun e' => now e' - 1000 < laugh_duration self)
            [tick 1490; tick 1501] c) as Hpre.
  { split; [left; cbn; lia|]. split; [right; left; vm_compute; reflexivity|exact I]. }
  destruct (laugh_lifecycle 1000 self [tick 1490; tick 1501] (tick 1506) He Hpre
              ltac:(vm_compute; reflexivity) ltac:(vm_compute; reflexivity))
    as (_ & K & _ & B & _).
  destruct (B ltac:(cbn; lia)) as (B1 & _).
  split; [reflexivity|]. split; [|split; [exact Hco|split; [exact K|exact B1]]].
  etransitivity; [exact A2|vm_compute; reflexivity].
Defined.
(** ** Configuration *)

(** X9.  [update] never changes the configuration: whatever the clock and
    the draws, and whether the call is coalesced, returns or raises, the
    screen, colours and frame interval, the default sizes, the targets of
    width, radius and spacing, the mood and its flags, the modes, and the
    intervals and durations are after the call what they were before; so
    they are after any number of calls. *)
Theorem update_keeps_configuration (es : list Tick) (self : RoboEyes) :
  engine_sequences self ->
  configuration (attrs (updates es self)) = configuration (attrs self).
Proof.
  intros He.
  apply (updates_field configuration es self He); intros; reflexivity.
Qed.

Lemma update_keeps_configuration_witness :
  let self :=
    set_mood HAPPY
      (set_auto_blinker ON (Some 1) (Some 0) 0
         (init 400 200 60 (10, 10, 15) (0, 255, 255) 0 0)) in
  let es := [BuildTick 0 1000 1000 0 0 0 0; BuildTick 0 2000 2000 0 0 0 0] in
  mood (updates es self) = HAPPY
  /\ eye_l_height_default (updates es self) = 80
  /\ List.length (sequences (updates es self)) = 2%nat.
Proof.
  intros self es.
  assert (engine_sequences self) as He by constructor.
  pose proof (update_keeps_configuration es self He) as K.
  split; [|split; [|vm_compute; reflexivity]].
  - exact (f_equal (fun c => match c with
                             | (_, _, _, (m, _, _, _, _, _), _, _, _) => m
                             end) K).
  - exact (f_equal (fun c => match c with
                             | (_, (_, _, _, h, _, _, _, _), _, _, _, _, _)
                               => h
                             end) K).
Defined.

(** ** Sizes and blinks together *)

(** X10.  A configured height is the one a blink restores.  [eyes_height]
    sets the target and the default of the eyes it is given; a blink after
    it, once its reopen step has run (auto-blink not blinking again in that
    call: the call is coalesced or auto-blink is not due), leaves the height
    target of each closed eye at the configured value, not at the height of
    construction. *)
Theorem configured_height_restored (left_eye right_eye : option Z)
    (left right : option bool) (t0 : Z) (self : RoboEyes)
    (pre : list Tick) (e : Tick) :
  engine_sequences self ->
  Forall (fun e' => seq_ticks e' - t0 < 120) pre ->
  120 <= seq_ticks e - t0 ->
  let sized := eyes_height left_eye right_eye self in
  let closed := blink left right t0 sized in
  let reopened := after (update e) (updates pre closed) in
  auto_blink_fires e (updates pre closed) = false ->
  (forall h, left_eye = Some h ->
     eye_l_height_next sized = h
     /\ eye_l_height_default sized = h
     /\ (blinks_left left right = true ->
         eye_l_height_next closed = 1 /\ eye_l_height_next reopened = h))
  /\ (forall h, right_eye = Some h ->
        eye_r_height_next sized = h
        /\ eye_r_height_default sized = h
        /\ (blinks_right left right = true -> _cyclops self = false ->
            eye_r_height_next closed = 1 /\ eye_r_height_next reopened = h)).
Proof.
  intros He Hpre Hdue sized closed reopened Hoff.
  assert (engine_sequences sized) as Hes.
  { unfold sized, eyes_height. destruct left_eye, right_eye; exact He. }
  assert (_cyclops sized = _cyclops self) as Hcs.
  { unfold sized, eyes_height. destruct left_eye, right_eye; reflexivity. }
  destruct (blink_reopens left right t0 sized pre e Hes Hpre Hdue Hoff)
    as (B1 & B2 & B3 & B4 & _).
  fold closed in B1, B2, B3, B4. fold reopened in B1, B2, B3, B4.
  destruct (blink_left left right t0 sized) as [L1 _].
  destruct (blink_right left right t0 sized) as [R1 _].
  fold closed in L1, R1.
  split.
  - intros h ->.
    assert (eye_l_height_next sized = h /\ eye_l_height_default sized = h)
      as [S1 S2].
    { unfold sized, eyes_height. destruct right_eye; split; reflexivity. }
    split; [exact S1|]. split; [exact S2|].
    intros Hb. destruct (B1 Hb) as [K _]. destruct (L1 Hb) as [K' _].
    split; [exact K'|]. rewrite K, B3. exact S2.
  - intros h ->.
    assert (eye_r_height_next sized = h /\ eye_r_height_default sized = h)
      as [S1 S2].
    { unfold sized, eyes_height. destruct left_eye; split; reflexivity. }
    split; [exact S1|]. split; [exact S2|].
    intros Hb Hc. rewrite <- Hcs in Hc.
    destruct (B2 Hb Hc) as [K _]. destruct (R1 Hb Hc) as [K' _].
    split; [exact K'|]. rewrite K, B4. exact S2.
Qed.

(** Heights 50 and 40 on a new object, a blink at 1000: the frame at 1120
    restores 50 and 40.  With the auto-blinker due from 1120 and a frame at
    1115, the coalesced call at 1125 restores them as well. *)
Lemma configured_height_restored_witness :
  let self := init 400 200 60 (10, 10, 15) (0, 255, 255) 0 0 in
  let auto := set_auto_blinker ON (Some 1) None 120 self in
  let tick t := BuildTick t t t 0 0 0 0 in
  let closed := blink None None 1000 (eyes_height (Some 50) (Some 40) self) in
  let closed' := blink None None 1000 (eyes_height (Some 50) (Some 40) auto) in
  eye_l_height_next closed = 1
  /\ eye_l_height_next (after (update (tick 1120)) (updates [tick 1050] closed))
     = 50
  /\ eye_r_height_next (after (update (tick 1120)) (updates [tick 1050] closed))
     = 40
  /\ (coalesced (tick 1125) (updates [tick 1115] closed'),
      auto_blink_due (tick 1125) (updates [tick 1115] closed')) = (true, true)
  /\ eye_l_height_next
       (after (update (tick 1125)) (updates [tick 1115] closed')) = 50.
Proof.
  intros self auto tick closed closed'.
  assert (engine_sequences self) as He by constructor.
  assert (Forall (fun e' => seq_ticks e' - 1000 < 120) [tick 1050]) as Hpre
    by (repeat constructor; cbn; lia).
  destruct (configured_height_restored (Some 50) (Some 40) None None 1000
              self [tick 1050] (tick 1120) He Hpre ltac:(cbn; lia)
              ltac:(vm_compute; reflexivity)) as [A B].
  destruct (A 50 eq_refl) as (_ & _ & A3).
  destruct (B 40 eq_refl) as (_ & _ & B3).
  destruct (A3 eq_refl) as [A4 A5]. destruct (B3 eq_refl eq_refl) as [_ B5].
  assert (engine_sequences auto) as He' by constructor.
  assert (Forall (fun e' => seq_ticks e' - 1000 < 120) [tick 1115]) as Hpre'
    by (repeat constructor; cbn; lia).
  destruct (configured_height_restored (Some 50) (Some 40) None None 1000
              auto [tick 1115] (tick 1125) He' Hpre' ltac:(cbn; lia)
              ltac:(vm_compute; reflexivity)) as [C _].
  destruct (C 50 eq_refl) as (_ & _ & C3).
  destruct (C3 eq_refl) as [_ C5].
  split; [exact A4|]. split; [exact A5|]. split; [exact B5|].
  split; [vm_compute; reflexivity|exact C5].
Defined.

(** ** The sequences container *)

Lemma auto_blink_sequences_length (e : Tick) (s : RoboEyes) :
  (List.length (sequences s)
   <= List.length (sequences (after (auto_blink e) s))
   <= List.length (sequences s) + 1)%nat.
Proof.
  unfold after.
  destruct (auto_blink_cases e s) as [[_ ->]|[_ [[x ->]|[v ->]]]];
    cbn [snd]; [lia| |].
  - rewrite blink_sequences, length_app. simpl. lia.
  - change (sequences (assign (with__next_blink v)
                         (blink None None (blink_start e) s)))
      with (sequences (blink None None (blink_start e) s)).
    rewrite blink_sequences, length_app. simpl. lia.
Qed.

Lemma update_sequences_length (e : Tick) (self : RoboEyes) :
  (List.length (sequences self)
   <= List.length (sequences (after (update e) self))
   <= List.length (sequences self) + 1)%nat.
Proof.
  set (s1 := sequences_update (seq_ticks e) self).
  set (s2 := assign (with_fps_timer (now e)) s1).
  assert (List.length (sequences s2) = List.length (sequences self)) as E2.
  { change (sequences s2) with (sequences s1). unfold s1.
    rewrite sequences_update_sequences. apply length_map. }
  pose proof (auto_blink_sequences_length e s2) as E3. rewrite E2 in E3.
  assert (sequences (triggered e self)
          = sequences (after (auto_blink e) s2)) as E4.
  { unfold triggered. fold s1. fold s2.
    destruct (idle_reposition_target e (after (auto_blink e) s2)) as [_ ->].
    reflexivity. }
  unfold after.
  destruct (update_cases e self) as [[_ ->]|[_ [[x ->]|[[x ->]| ->]]]];
    cbn [snd].
  - fold s1. change (sequences s1) with (sequences s2). lia.
  - exact E3.
  - rewrite E4. exact E3.
  - destruct (overlays_overlays (now e) (interpolate (triggered e self)))
      as [_ ->].
    destruct (interpolate_geometry (triggered e self)) as [_ ->].
    rewrite E4. exact E3.
Qed.

(** X11.  Sequences are never removed.  No public operation shortens the
    list of sequences and none adds more than one; every blink, and
    [wink_left] and [wink_right] in cyclops mode, adds exactly one, which
    stays in the list after its step has run: the list an [update] scans
    grows with every blink. *)
Theorem sequences_only_grow (op : Op) (self : RoboEyes) :
  let n := List.length (sequences self) in
  let n' := List.length (sequences (after (perform op) self)) in
  (n <= n' <= n + 1)%nat
  /\ (forall l r t, op = Blink l r t -> n' = (n + 1)%nat)
  /\ (forall t, op = WinkLeft t \/ op = WinkRight t ->
        n' = if _cyclops self then (n + 1)%nat else n).
Proof.
  intros n n'. unfold n', n.
  destruct op as [fps|l r|l r|l r|sp|v|v|v|a i v t|a i v t|en|sc pu ou|d
                 |l r t|l r t|t|t|t|t|e0];
    cbn [perform]; try (unfold after, call; cbn [snd]).
  1-13: (split; [|split; [intros ? ? ? K; discriminate K
                         |intros ? [K|K]; discriminate K]]).
  1-13: try (unfold eyes_width, eyes_height, eyes_radius; destruct l, r);
    try (unfold set_auto_blinker, set_idle_mode; destruct i, v);
    try (unfold set_eye_palette; destruct sc, pu, ou);
    try (unfold set_position; split_ifs);
    match goal with
    | |- (_ <= List.length (sequences ?x) <= _)%nat =>
        change (sequences x) with (sequences self)
    end; lia.
  - rewrite blink_sequences, length_app. simpl.
    split; [lia|]. split; [intros; lia|intros ? [K|K]; discriminate K].
  - destruct (wink_lids l r t self) as [_ E]. unfold after in E. rewrite E.
    split; [lia|]. split; [intros ? ? ? K; discriminate K
                          |intros ? [K|K]; discriminate K].
  - unfold wink_left. destruct (_cyclops self).
    + unfold after, call; cbn [snd].
      rewrite blink_sequences, length_app. simpl.
      split; [lia|]. split; [intros ? ? ? K; discriminate K|intros; lia].
    + destruct (wink_lids (Some true) (Some false) t self) as [_ E]. unfold after in E. rewrite E.
      split; [lia|]. split; [intros ? ? ? K; discriminate K|intros; lia].
  - unfold wink_right. destruct (_cyclops self).
    + unfold after, call; cbn [snd].
      rewrite blink_sequences, length_app. simpl.
      split; [lia|]. split; [intros ? ? ? K; discriminate K|intros; lia].
    + destruct (wink_lids (Some false) (Some true) t self) as [_ E]. unfold after in E. rewrite E.
      split; [lia|]. split; [intros ? ? ? K; discriminate K|intros; lia].
  - split; [change (sequences (confuse t self)) with (sequences self); lia|].
    split; [intros ? ? ? K; discriminate K|intros ? [K|K]; discriminate K].
  - split; [change (sequences (laugh t self)) with (sequences self); lia|].
    split; [intros ? ? ? K; discriminate K|intros ? [K|K]; discriminate K].
  - split; [apply update_sequences_length|].
    split; [intros ? ? ? K; discriminate K|intros ? [K|K]; discriminate K].
Qed.

Lemma sequences_only_grow_witness :
  let self := init 400 200 60 (10, 10, 15) (0, 255, 255) 0 0 in
  let tick t := BuildTick t t t 0 0 0 0 in
  let blinked := after (perform (Blink None None 1000)) self in
  List.length (sequences blinked) = 1%nat
  /\ Sequences.done (sequences (updates [tick 1200] blinked)) = true
  /\ le 1 (List.length
             (sequences (after (perform (Update (tick 1300)))
                           (updates [tick 1200] blinked)))).
Proof.
  intros self tick blinked.
  destruct (sequences_only_grow (Blink None None 1000) self) as (_ & A & _).
  destruct (sequences_only_grow (Update (tick 1300))
              (updates [tick 1200] blinked)) as ((B & _) & _).
  split; [exact (A None None 1000 eq_refl)|].
  split; [vm_compute; reflexivity|].
  etransitivity; [|exact B]. vm_compute. lia.
Defined.
(** ** Sequences: done, reset and restart *)

Section SequenceLife.
Context {Owner : Type}.
Implicit Types (s : StepData.t Owner) (q : Sequence.t Owner) (o : Owner).

Lemma step_after_done st ticks s :
  StepData.done (step_after st ticks s)
  = StepData.done s || (StepData.ms_timing s <=? ticks - st).
Proof.
  unfold step_after. destruct (StepData.done s) eqn:Hd; [exact Hd|].
  destruct (Z.ltb_spec (ticks - st) (StepData.ms_timing s));
    destruct (Z.leb_spec (StepData.ms_timing s) (ticks - st)); try lia;
    simpl; auto.
Qed.

(** X12.  When a sequence is done.  After an update at [ticks] a started
    sequence is reported done exactly when every step was done already or
    has its offset elapsed at [ticks]. *)
Theorem sequence_done_after_update ticks q st o :
  Sequence._start q = Some st ->
  Sequence.done (fst (Sequence.update ticks q o)) = true
  <-> Forall (fun s => StepData.done s = true
                       \/ StepData.ms_timing s <= ticks - st)
             (Sequence.steps q).
Proof.
  intros Hst. rewrite Sequence_update_fst.
  destruct (sequence_after_started ticks q st Hst) as [E1 E2].
  unfold Sequence.done. rewrite E1, E2, forallb_forall, Forall_forall.
  split.
  - intros H s Hin.
    specialize (H (step_after st ticks s) (in_map _ _ _ Hin)).
    rewrite step_after_done in H. apply orb_prop in H as [H|H]; [auto|].
    right. apply Z.leb_le. exact H.
  - intros H s' Hin. apply in_map_iff in Hin as (s & <- & Hin).
    rewrite step_after_done.
    destruct (H s Hin) as [K|K]; [rewrite K; reflexivity|].
    apply Z.leb_le in K. rewrite K. apply orb_true_r.
Qed.

Lemma set_done_step_after b st ticks s :
  StepData.set_done b (step_after st ticks s) = StepData.set_done b s.
Proof.
  unfold step_after. destruct (StepData.done s); [reflexivity|].
  destruct (ticks - st <? StepData.ms_timing s); reflexivity.
Qed.

Lemma reset_sequence_after ticks q :
  Sequence.reset (sequence_after ticks q) = Sequence.reset q.
Proof.
  unfold sequence_after. destruct (Sequence._start q) as [st|];
    [|reflexivity].
  unfold Sequence.reset. simpl. f_equal.
  rewrite map_map. apply map_ext. intros s. apply set_done_step_after.
Qed.

Lemma reset_run ts q o :
  Sequence.reset (fst (Sequence.run ts q o)) = Sequence.reset q.
Proof.
  revert q o. induction ts as [|t ts IH]; intros q o; [reflexivity|].
  simpl. pose proof (Sequence_update_fst t q o) as E.
  destruct (Sequence.update t q o) as [q1 o1]. simpl in E.
  rewrite IH, E. apply reset_sequence_after.
Qed.

Lemma run_done_all ts q o :
  forallb StepData.done (Sequence.steps q) = true ->
  Sequence.run ts q o = (q, o).
Proof.
  intros H. induction ts as [|t ts IH]; [reflexivity|]. simpl.
  rewrite Sequence_update_done; [exact IH|].
  unfold Sequence.done. destruct (Sequence._start q); [exact H|reflexivity].
Qed.

(** X13.  Starting is not re-arming.  [start] records the clock and leaves
    the [done] flags as they are: a sequence whose steps have all run is
    still reported done after a new [start], and no later update calls any
    of its callbacks or changes it. *)
Theorem start_keeps_done_flags (t' : Z) (ts : list Z) q o :
  forallb StepData.done (Sequence.steps q) = true ->
  Sequence.steps (Sequence.start t' q) = Sequence.steps q
  /\ Sequence.done (Sequence.start t' q) = true
  /\ Sequence.run ts (Sequence.start t' q) o = (Sequence.start t' q, o).
Proof.
  intros H. split; [reflexivity|]. split; [exact H|].
  apply run_done_all. exact H.
Qed.

End SequenceLife.

Section Rearm.
Context {Owner : Type} (cnt : Owner -> nat).
Implicit Types (s : StepData.t Owner) (q : Sequence.t Owner) (o : Owner).

(** The calls of a pending step over updates the first due one of which is
    at [t]. *)
Lemma run_fires_once q st i s o pre t post :
  Sequence._start q = Some st ->
  nth_error (Sequence.steps q) i = Some s ->
  StepData.done s = false ->
  (forall o', cnt (StepData.callback s o') = S (cnt o')) ->
  others_silent cnt i (Sequence.steps q) ->
  Forall (fun t' => t' - st < StepData.ms_timing s) pre ->
  StepData.ms_timing s <= t - st ->
  cnt (snd (Sequence.run (pre ++ t :: post) q o)) = S (cnt o).
Proof.
  intros Hst Hi Hd Hs Hoth Hpre Ht.
  destruct (run_pending cnt pre q st i s o Hst Hi Hd Hs Hoth Hpre)
    as (Hst1 & Hi1 & Hoth1 & Hc1).
  rewrite run_app.
  set (q1 := fst (Sequence.run pre q o)) in *.
  set (o1 := snd (Sequence.run pre q o)) in *.
  simpl.
  pose proof (Sequence_update_fst t q1 o1) as Hq2.
  pose proof (Sequence_update_cnt cnt t q1 st i s o1 Hst1 Hi1 Hs Hoth1) as Hc2.
  rewrite Hd in Hc2. simpl in Hc2.
  destruct (Z.leb_spec (StepData.ms_timing s) (t - st)) as [_|]; [|lia].
  destruct (sequence_after_started t q1 st Hst1) as [Hst2 Hsteps].
  destruct (Sequence.update t q1 o1) as [q2 o2]. simpl in Hq2, Hc2.
  subst q2.
  assert (nth_error (Sequence.steps (sequence_after t q1)) i
          = Some (StepData.set_done true s)) as Hi2.
  { rewrite Hsteps, nth_error_map, Hi1. simpl. f_equal.
    unfold step_after. rewrite Hd.
    destruct (Z.ltb_spec (t - st) (StepData.ms_timing s)); [lia|reflexivity]. }
  assert (others_silent cnt i (Sequence.steps (sequence_after t q1)))
    as Hoth2.
  { rewrite Hsteps. apply others_silent_after. exact Hoth1. }
  destruct (run_done cnt post (sequence_after t q1) st i
              (StepData.set_done true s) o2 Hst2 Hi2 eq_refl Hs Hoth2)
    as (_ & B).
  rewrite B, Hc2, Hc1. lia.
Qed.

Lemma others_silent_reset i (l : list (StepData.t Owner)) :
  others_silent cnt i l ->
  others_silent cnt i (map (StepData.set_done false) l).
Proof.
  intros H j s' Hj Hs' o.
  rewrite nth_error_map in Hs'.
  destruct (nth_error l j) as [s0|] eqn:E; simpl in Hs'; [|discriminate].
  injection Hs' as <-. simpl. eauto.
Qed.

(** X14.  Reset and start re-arm a sequence.  [reset] forgets all progress:
    whatever updates a sequence has been through, resetting it gives what
    resetting the original gives, a sequence reported done on which updates
    do nothing.  Started again, its steps are pending again: a step that has
    run once runs once more, at the first update at or after its offset from
    the new start. *)
Theorem reset_rearms q st i s o pre t post st2 pre2 t2 post2 :
  Sequence._start q = Some st ->
  nth_error (Sequence.steps q) i = Some s ->
  StepData.done s = false ->
  (forall o', cnt (StepData.callback s o') = S (cnt o')) ->
  others_silent cnt i (Sequence.steps q) ->
  Forall (fun t' => t' - st < StepData.ms_timing s) pre ->
  StepData.ms_timing s <= t - st ->
  Forall (fun t' => t' - st2 < StepData.ms_timing s) pre2 ->
  StepData.ms_timing s <= t2 - st2 ->
  let q1 := fst (Sequence.run (pre ++ t :: post) q o) in
  let o1 := snd (Sequence.run (pre ++ t :: post) q o) in
  let q2 := Sequence.start st2 (Sequence.reset q1) in
  cnt o1 = S (cnt o)
  /\ Sequence.reset q1 = Sequence.reset q
  /\ Sequence.done (Sequence.reset q1) = true
  /\ (forall ticks, Sequence.update ticks (Sequence.reset q1) o1
                    = (Sequence.reset q1, o1))
  /\ step_done i q2 = Some false
  /\ cnt (snd (Sequence.run (pre2 ++ t2 :: post2) q2 o1)) = S (S (cnt o)).
Proof.
  intros Hst Hi Hd Hs Hoth Hpre Ht Hpre2 Ht2 q1 o1 q2.
  assert (cnt o1 = S (cnt o)) as C1.
  { apply (run_fires_once q st i s o pre t post); assumption. }
  assert (Sequence.reset q1 = Sequence.reset q) as R by apply reset_run.
  assert (nth_error (Sequence.steps q2) i = Some (StepData.set_done false s))
    as Hi2.
  { unfold q2. rewrite R. simpl. rewrite nth_error_map, Hi. reflexivity. }
  split; [exact C1|]. split; [exact R|]. split; [reflexivity|].
  split; [reflexivity|]. split.
  - unfold step_done. rewrite Hi2. reflexivity.
  - rewrite <- C1.
    apply (run_fires_once q2 st2 i (StepData.set_done false s) o1
             pre2 t2 post2); auto.
    unfold q2. rewrite R. simpl. apply others_silent_reset. exact Hoth.
Qed.

End Rearm.

Lemma reset_rearms_witness :
  let q : Sequence.t nat :=
    Sequence.start 1000 (Sequence.step 120 S (Sequence.init "blink")) in
  let q1 := fst (Sequence.run [1050; 1120; 1200] q 0%nat) in
  Sequence.done q1 = true
  /\ snd (Sequence.run [5000; 5200]
            (Sequence.start 5000 (Sequence.reset q1)) 1%nat) = 2%nat.
Proof.
  intros q q1.
  assert (others_silent (fun n : nat => n) 0 (Sequence.steps q)) as Hoth.
  { intros j s' Hj Hs' o'. destruct j as [|j]; [congruence|].
    simpl in Hs'. destruct j; discriminate. }
  destruct (reset_rearms (fun n : nat => n) q 1000 0 (StepData.init 120 S)
              0%nat [1050] 1120 [1200] 5000 [5000] 5200 []
              eq_refl eq_refl eq_refl (fun _ => eq_refl) Hoth
              ltac:(repeat constructor; simpl; lia) ltac:(simpl; lia)
              ltac:(repeat constructor; simpl; lia) ltac:(simpl; lia))
    as (_ & _ & _ & _ & _ & A).
  split; [reflexivity|exact A].
Defined.

Lemma sequence_done_after_update_witness :
  let q : Sequence.t nat :=
    Sequence.start 1000
      (Sequence.step 300 S (Sequence.step 120 S (Sequence.init "two"))) in
  Sequence.done (fst (Sequence.update 1200 q 0%nat)) = false
  /\ Sequence.done (fst (Sequence.update 1300 q 0%nat)) = true.
Proof.
  intros q.
  destruct (sequence_done_after_update 1300 q 1000 0%nat eq_refl) as [_ A].
  split; [reflexivity|].
  apply A. repeat (constructor; [right; simpl; lia|]). constructor.
Defined.

Lemma start_keeps_done_flags_witness :
  let q : Sequence.t nat :=
    fst (Sequence.run [1200]
           (Sequence.start 1000 (Sequence.step 120 S (Sequence.init "blink")))
           0%nat) in
  Sequence.run [9000; 9500] (Sequence.start 9000 q) 1%nat
  = (Sequence.start 9000 q, 1%nat).
Proof.
  intros q.
  destruct (start_keeps_done_flags 9000 [9000; 9500] q 1%nat eq_refl)
    as (_ & _ & A).
  exact A.
Defined.
(** ** The auto-blinker before its time *)

Lemma update_before_next_blink (e : Tick) (self : RoboEyes) :
  engine_sequences self ->
  now e < _next_blink self ->
  _next_blink (after (update e) self) = _next_blink self
  /\ List.length (sequences (after (update e) self))
     = List.length (sequences self).
Proof.
  intros He Hlt.
  set (s1 := sequences_update (seq_ticks e) self).
  set (s2 := assign (with_fps_timer (now e)) s1).
  assert (_next_blink s1 = _next_blink self) as N1.
  { pose proof (sequences_update_lids (seq_ticks e) self He) as E.
    unfold s1. off E. }
  assert (List.length (sequences s1) = List.length (sequences self)) as L1.
  { unfold s1. rewrite sequences_update_sequences. apply length_map. }
  assert (auto_blink e s2 = (Return tt, s2)) as A.
  { destruct (auto_blink_cases e s2) as [[_ A]|[D _]]; [exact A|].
    unfold auto_blink_due in D.
    change (_next_blink s2) with (_next_blink s1) in D. rewrite N1 in D.
    destruct (Z.geb_spec (now e) (_next_blink self)); [lia|].
    rewrite andb_false_r in D. discriminate. }
  assert (triggered e self = after (idle_reposition e) s2) as T.
  { unfold triggered. fold s1. fold s2. unfold after at 2. rewrite A.
    reflexivity. }
  assert (_next_blink (triggered e self) = _next_blink self
          /\ List.length (sequences (triggered e self))
             = List.length (sequences self)) as [NT LT].
  { rewrite T. destruct (idle_reposition_target e s2) as [E ->].
    split; [|exact L1]. rewrite <- N1.
    change (_next_blink s1) with (_next_blink s2). off E. }
  unfold after at 1 2.
  destruct (update_cases e self) as [[_ ->]|[_ [[x ->]|[[x ->]| ->]]]];
    cbn [snd].
  - fold s1. split; [exact N1|exact L1].
  - fold s1. fold s2. unfold after. rewrite A. cbn [snd].
    split; [exact N1|exact L1].
  - split; [exact NT|exact LT].
  - destruct (overlays_overlays (now e) (interpolate (triggered e self)))
      as [_ ->].
    destruct (interpolate_geometry (triggered e self)) as [_ ->].
    split; [|exact LT].
    rewrite (overlays_field _next_blink (now e) _ (fun _ => eq_refl)).
    rewrite (interpolate_field _next_blink _ (fun _ => eq_refl)).
    exact NT.
Qed.

Lemma updates_before_next_blink (es : list Tick) (self : RoboEyes) :
  engine_sequences self ->
  Forall (fun e => now e < _next_blink self) es ->
  _next_blink (updates es self) = _next_blink self
  /\ List.length (sequences (updates es self))
     = List.length (sequences self).
Proof.
  revert self. induction es as [|e es IH]; intros self He Hes.
  - split; reflexivity.
  - apply Forall_cons_iff in Hes as [Hlt Hes].
    destruct (update_before_next_blink e self He Hlt) as [N L].
    cbn [updates]. rewrite <- N in Hes.
    destruct (IH _ (update_engine e self He) Hes) as [N' L'].
    rewrite N', L'. split; [exact N|exact L].
Qed.

(** X15.  The auto-blinker waits for its interval.  [set_auto_blinker]
    at clock reading [t0] schedules the next blink one interval later; until
    the clock of an [update] reaches that time, no update starts a blink:
    the schedule and the number of sequences stay as they are, whatever the
    draws. *)
Theorem auto_blinker_waits (active : Z) (interval variation : option Z)
    (t0 : Z) (self : RoboEyes) (es : list Tick) :
  engine_sequences self ->
  let armed := set_auto_blinker active interval variation t0 self in
  Forall (fun e => now e < t0 + blink_interval armed) es ->
  (forall i, interval = Some i -> blink_interval armed = i * 1000)
  /\ _next_blink (updates es armed) = t0 + blink_interval armed
  /\ List.length (sequences (updates es armed))
     = List.length (sequences self).
Proof.
  intros He armed Hes.
  assert (engine_sequences armed) as Ha.
  { exact (perform_engine (SetAutoBlinker active interval variation t0)
             self He). }
  assert (_next_blink armed = t0 + blink_interval armed) as N0.
  { unfold armed, set_auto_blinker.
    destruct interval, variation; reflexivity. }
  assert (sequences armed = sequences self) as S0.
  { unfold armed, set_auto_blinker.
    destruct interval, variation; reflexivity. }
  split.
  { intros i ->. unfold armed, set_auto_blinker.
    destruct variation; reflexivity. }
  rewrite <- S0, <- N0. rewrite <- N0 in Hes.
  apply updates_before_next_blink; assumption.
Qed.

Lemma auto_blinker_waits_witness :
  let self := init 400 200 60 (10, 10, 15) (0, 255, 255) 0 0 in
  let tick t := BuildTick t t t 7 0 0 0 in
  let armed := set_auto_blinker ON (Some 3) (Some 2) 100 self in
  _next_blink (updates [tick 500; tick 1500; tick 3099] armed) = 3100
  /\ sequences (updates [tick 500; tick 1500; tick 3099] armed) = []
  /\ List.length
       (sequences (updates [tick 500; tick 1500; tick 3099; tick 3120] armed))
     = 1%nat.
Proof.
  intros self tick armed.
  assert (engine_sequences self) as He by constructor.
  destruct (auto_blinker_waits ON (Some 3) (Some 2) 100 self
              [tick 500; tick 1500; tick 3099] He) as (_ & A & B).
  { repeat (constructor; [vm_compute; reflexivity|]). constructor. }
  split; [exact A|]. split.
  - apply length_zero_iff_nil. exact B.
  - vm_compute. reflexivity.
Defined.
(** * The demos *)

(** ** Key presses *)

Lemma bind_returns {A B : Type} (m : M A) (k : A -> M B) (a : A)
    (s : RoboEyes) :
  fst (m s) = Return a -> bind m k s = k a (snd (m s)).
Proof.
  unfold bind. destruct (m s) as [[a'|x] s']; cbn [fst snd]; intros H;
    [injection H as ->; reflexivity|discriminate].
Qed.

Lemma wink_left_returns (t : Z) (s : RoboEyes) :
  fst (wink_left t s) = Return tt.
Proof.
  unfold wink_left. destruct (_cyclops s); [reflexivity|].
  destruct (wink_at_once (Some true) (Some false) t s eq_refl) as [H _].
  exact H.
Qed.

Lemma wink_right_returns (t : Z) (s : RoboEyes) :
  fst (wink_right t s) = Return tt.
Proof.
  unfold wink_right. destruct (_cyclops s); [reflexivity|].
  destruct (wink_at_once (Some false) (Some true) t s eq_refl) as [H _].
  exact H.
Qed.

Lemma blink_setup {A : Type} (f : Attrs -> A) (l r : option bool) (t : Z)
    (s : RoboEyes) :
  (forall a, f (no_lids a) = f a) ->
  f (attrs (blink l r t s)) = f (attrs s).
Proof.
  intros H. exact (field_off no_lids f H _ _ (blink_lids l r t s)).
Qed.

Lemma wink_setup {A : Type} (f : Attrs -> A) (l r : option bool) (t : Z)
    (s : RoboEyes) :
  (forall a, f (no_wink a) = f a) ->
  f (attrs (snd (wink l r t s))) = f (attrs s).
Proof.
  intros H. destruct (wink_lids l r t s) as [E _]. unfold after in E.
  exact (field_off no_wink f H _ _ E).
Qed.

Lemma wink_left_setup {A : Type} (f : Attrs -> A) (t : Z) (s : RoboEyes) :
  (forall a, f (no_wink a) = f a) ->
  f (attrs (snd (wink_left t s))) = f (attrs s).
Proof.
  intros H. unfold wink_left. destruct (_cyclops s).
  - unfold call. cbn [snd].
    exact (field_off no_wink f H _ _
             (erase_coarser no_lids no_wink (fun _ => eq_refl) _ _
                (blink_lids _ _ t s))).
  - apply wink_setup, H.
Qed.

Lemma wink_right_setup {A : Type} (f : Attrs -> A) (t : Z) (s : RoboEyes) :
  (forall a, f (no_wink a) = f a) ->
  f (attrs (snd (wink_right t s))) = f (attrs s).
Proof.
  intros H. unfold wink_right. destruct (_cyclops s).
  - unfold call. cbn [snd].
    exact (field_off no_wink f H _ _
             (erase_coarser no_lids no_wink (fun _ => eq_refl) _ _
                (blink_lids _ _ t s))).
  - apply wink_setup, H.
Qed.

Lemma keydown_keeps (key : Animation.Key) (t : Z) (s : RoboEyes) :
  engine_sequences s ->
  fst (Animation.keydown key t s) = Return tt
  /\ engine_sequences (snd (Animation.keydown key t s))
  /\ animation_setup (attrs (snd (Animation.keydown key t s)))
     = animation_setup (attrs s).
Proof.
  intros He. destruct key; cbn [Animation.keydown].
  1-6, 8: split; [reflexivity|split; [exact He|reflexivity]].
  - split; [reflexivity|split; [exact He|reflexivity]].
  - split; [reflexivity|]. split.
    + exact (perform_engine (Blink None None t) s He).
    + unfold call. cbn [snd]. apply blink_setup. reflexivity.
  - split; [apply wink_left_returns|]. split.
    + exact (perform_engine (WinkLeft t) s He).
    + apply wink_left_setup. reflexivity.
  - split; [apply wink_right_returns|]. split.
    + exact (perform_engine (WinkRight t) s He).
    + apply wink_right_setup. reflexivity.
  - split; [reflexivity|split; [exact He|reflexivity]].
  - split; [reflexivity|split; [exact He|reflexivity]].
  - split; [reflexivity|split; [exact He|reflexivity]].
Qed.

Lemma keydown2_keeps (key : Animation2.Key) (t : Z) (s : RoboEyes) :
  engine_sequences s ->
  fst (Animation2.keydown key t s) = Return tt
  /\ engine_sequences (snd (Animation2.keydown key t s))
  /\ animation_setup (attrs (snd (Animation2.keydown key t s)))
     = animation_setup (attrs s).
Proof.
  intros He. destruct key; cbn [Animation2.keydown].
  1-8: split; [reflexivity|split; [exact He|reflexivity]].
  - split; [reflexivity|]. split.
    + exact (perform_engine (Blink None None t) s He).
    + unfold call. cbn [snd]. apply blink_setup. reflexivity.
  - split; [apply wink_left_returns|]. split.
    + exact (perform_engine (WinkLeft t) s He).
    + apply wink_left_setup. reflexivity.
  - split; [apply wink_right_returns|]. split.
    + exact (perform_engine (WinkRight t) s He).
    + apply wink_right_setup. reflexivity.
  - split; [reflexivity|split; [exact He|reflexivity]].
  - split; [reflexivity|split; [exact He|reflexivity]].
  - split; [reflexivity|split; [exact He|reflexivity]].
Qed.

Lemma events_keep (keys : list (Animation.Key * Z)) (s : RoboEyes) :
  engine_sequences s ->
  fst (Animation.events keys s) = Return tt
  /\ engine_sequences (snd (Animation.events keys s))
  /\ animation_setup (attrs (snd (Animation.events keys s)))
     = animation_setup (attrs s).
Proof.
  revert s. induction keys as [|[key t] keys IH]; intros s He.
  - split; [reflexivity|split; [exact He|reflexivity]].
  - destruct (keydown_keeps key t s He) as (R & E & K).
    cbn [Animation.events]. rewrite (bind_returns _ _ tt s R).
    destruct (IH _ E) as (R' & E' & K').
    split; [exact R'|]. split; [exact E'|]. rewrite K'. exact K.
Qed.

Lemma events2_keep (keys : list (Animation2.Key * Z)) (s : RoboEyes) :
  engine_sequences s ->
  fst (Animation2.events keys s) = Return tt
  /\ engine_sequences (snd (Animation2.events keys s))
  /\ animation_setup (attrs (snd (Animation2.events keys s)))
     = animation_setup (attrs s).
Proof.
  revert s. induction keys as [|[key t] keys IH]; intros s He.
  - split; [reflexivity|split; [exact He|reflexivity]].
  - destruct (keydown2_keeps key t s He) as (R & E & K).
    cbn [Animation2.events]. rewrite (bind_returns _ _ tt s R).
    destruct (IH _ E) as (R' & E' & K').
    split; [exact R'|]. split; [exact E'|]. rewrite K'. exact K.
Qed.

(** X16.  No key press raises.  In both demos the handler of the key
    presses of an iteration returns normally, whatever the keys and the
    state of the eyes: every mood key passes a mood, and [wink_left] and
    [wink_right] pass [wink] a side.  The sequences stay the engine's own
    and no key changes the cyclops mode or a duration. *)
Theorem key_presses_return (keys : list (Animation.Key * Z))
    (keys2 : list (Animation2.Key * Z)) (self : RoboEyes) :
  engine_sequences self ->
  (fst (Animation.events keys self) = Return tt
   /\ engine_sequences (after (Animation.events keys) self)
   /\ animation_setup (attrs (after (Animation.events keys) self))
      = animation_setup (attrs self))
  /\ (fst (Animation2.events keys2 self) = Return tt
      /\ engine_sequences (after (Animation2.events keys2) self)
      /\ animation_setup (attrs (after (Animation2.events keys2) self))
         = animation_setup (attrs self)).
Proof.
  intros He. split; [apply events_keep, He|apply events2_keep, He].
Qed.

(** ** The distance sensor *)

Lemma Zone_eqb_eq (a b : Animation2.Zone) :
  Animation2.Zone_eqb a b = true <-> a = b.
Proof. destruct a, b; simpl; split; congruence. Qed.

Lemma cooldown_switch (now : Z) (z : Animation2.Zone)
    (h : Animation2.Hysteresis) :
  Animation2.zone_cooldown_until h <= now ->
  Animation2.last_zone h <> Some z ->
  Animation2.cooldown now z h
  = (z, {| Animation2.last_zone := Some z;
           Animation2.zone_cooldown_until := now + 400 |}).
Proof.
  intros Hc Hz. unfold Animation2.cooldown.
  destruct (Z.ltb_spec now (Animation2.zone_cooldown_until h)); [lia|].
  destruct (Animation2.last_zone h) as [z'|]; [|reflexivity].
  destruct (Animation2.Zone_eqb z z') eqn:E; [|reflexivity].
  apply Zone_eqb_eq in E. congruence.
Qed.

Lemma cooldown_hold (now : Z) (z0 z : Animation2.Zone)
    (h : Animation2.Hysteresis) :
  now < Animation2.zone_cooldown_until h ->
  Animation2.last_zone h = Some z ->
  Animation2.cooldown now z0 h = (z, h).
Proof.
  intros Hc Hz. unfold Animation2.cooldown.
  destruct (Z.ltb_spec now (Animation2.zone_cooldown_until h)); [|lia].
  rewrite Hz. reflexivity.
Qed.

Lemma zones_hold (rs : list (Z * Animation2.distance))
    (z : Animation2.Zone) (h : Animation2.Hysteresis) :
  Animation2.last_zone h = Some z ->
  Forall (fun r => fst r < Animation2.zone_cooldown_until h) rs ->
  Animation2.zones rs h = (repeat z (List.length rs), h).
Proof.
  intros Hz. induction rs as [|[now d] rs IH]; intros Hrs; [reflexivity|].
  apply Forall_cons_iff in Hrs as [Hlt Hrs]. cbn [fst] in Hlt.
  cbn [Animation2.zones].
  rewrite (cooldown_hold now _ z h Hlt Hz). cbn [fst snd].
  rewrite (IH Hrs). reflexivity.
Qed.

(** X17.  A change of zone holds for 400 ms.  When the cooldown is over
    and the reading falls in a zone other than the last one, that zone is
    acted on at once and, whatever the distances read next, at every
    iteration whose clock reading is within 400 ms of the change; the
    hysteresis state does not move in that time. *)
Theorem zone_change_holds (now : Z) (d : Animation2.distance)
    (h : Animation2.Hysteresis) (rs : list (Z * Animation2.distance)) :
  Animation2.zone_cooldown_until h <= now ->
  Animation2.last_zone h <> Some (Animation2.zone_of d) ->
  Forall (fun r => fst r < now + 400) rs ->
  Animation2.zones ((now, d) :: rs) h
  = (repeat (Animation2.zone_of d) (S (List.length rs)),
     {| Animation2.last_zone := Some (Animation2.zone_of d);
        Animation2.zone_cooldown_until := now + 400 |}).
Proof.
  intros Hc Hz Hrs. cbn [Animation2.zones].
  rewrite (cooldown_switch now _ h Hc Hz). cbn [fst snd].
  rewrite (zones_hold rs (Animation2.zone_of d)); [reflexivity|reflexivity|].
  exact Hrs.
Qed.

Lemma zone_change_holds_witness :
  Animation2.zones
    [(1000, Animation2.Finite (10 # 1)); (1100, Animation2.Finite (50 # 1));
     (1399, Animation2.NaN); (1400, Animation2.Finite (50 # 1))]
    Animation2.hysteresis0
  = ([Animation2.near; Animation2.near; Animation2.near; Animation2.far],
     {| Animation2.last_zone := Some Animation2.far;
        Animation2.zone_cooldown_until := 1800 |}).
Proof.
  pose proof (zone_change_holds 1000 (Animation2.Finite (10 # 1))
                Animation2.hysteresis0
                [(1100, Animation2.Finite (50 # 1)); (1399, Animation2.NaN)])
    as A.
  assert (forall a b c l h, Animation2.zones (a :: b :: c :: l) h
          = (fst (Animation2.zones [a; b; c] h)
               ++ fst (Animation2.zones l (snd (Animation2.zones [a; b; c] h))),
             snd (Animation2.zones l (snd (Animation2.zones [a; b; c] h)))))
    as Split.
  { intros [] [] [] l h. reflexivity. }
  rewrite Split, A.
  - reflexivity.
  - vm_compute. discriminate.
  - discriminate.
  - repeat (constructor; [vm_compute; reflexivity|]). constructor.
Defined.

Lemma bind_ret_snd {A B : Type} (m : M A) (k : A -> B) (s : RoboEyes) :
  snd (bind m (fun a => ret (k a)) s) = snd (m s).
Proof. unfold bind, ret. destruct (m s) as [[a|x] s']; reflexivity. Qed.

Lemma react_keeps (now tw tc : Z) (z : Animation2.Zone) (s : RoboEyes) :
  engine_sequences s ->
  fst (Animation2.react now tw tc z s) = Return tt
  /\ engine_sequences (snd (Animation2.react now tw tc z s))
  /\ animation_setup (attrs (snd (Animation2.react now tw tc z s)))
     = animation_setup (attrs s)
  /\ _mood (snd (Animation2.react now tw tc z s)) = Animation2.zone_mood z.
Proof.
  intros He.
  destruct z; cbn [Animation2.react];
    try (split; [reflexivity|split; [exact He|split; reflexivity]]).
  rewrite (bind_returns (call (set_mood CURIOUS)) _ tt s eq_refl).
  change (snd (call (set_mood CURIOUS) s)) with (set_mood CURIOUS s).
  set (s1 := set_mood CURIOUS s).
  assert (engine_sequences s1) as He1 by exact He.
  destruct ((now / 1200) mod 2 =? 0).
  - rewrite (bind_returns _ _ tt s1 (wink_left_returns tw s1)).
    unfold call. cbn [fst snd].
    split; [reflexivity|]. split; [|split].
    + exact (perform_engine (Confuse tc) _
               (perform_engine (WinkLeft tw) s1 He1)).
    + transitivity (animation_setup (attrs (snd (wink_left tw s1))));
        [reflexivity|].
      rewrite (wink_left_setup animation_setup tw s1 (fun _ => eq_refl)).
      reflexivity.
    + transitivity (_mood (attrs (snd (wink_left tw s1)))); [reflexivity|].
      rewrite (wink_left_setup _mood tw s1 (fun _ => eq_refl)).
      reflexivity.
  - split; [reflexivity|split; [exact He|split; reflexivity]].
Qed.

Lemma sensor_keeps (r : Animation2.Reading) (h : Animation2.Hysteresis)
    (s : RoboEyes) (d : Animation2.distance) :
  engine_sequences s ->
  Animation2.dist r = Some d ->
  let zh := Animation2.cooldown (Animation2.ticks r) (Animation2.zone_of d) h in
  Animation2.sensor r h s
  = (Return (snd zh),
     snd (Animation2.react (Animation2.ticks r) (Animation2.wink_ticks r)
            (Animation2.confuse_ticks r) (fst zh) s)).
Proof.
  intros He Hd zh. unfold Animation2.sensor. rewrite Hd. fold zh.
  destruct (react_keeps (Animation2.ticks r) (Animation2.wink_ticks r)
              (Animation2.confuse_ticks r) (fst zh) s He) as (R & _).
  rewrite (bind_returns _ _ tt s R). reflexivity.
Qed.

Lemma iteration_after (keys : list (Animation2.Key * Z))
    (r : Animation2.Reading) (e : Tick) (h : Animation2.Hysteresis)
    (self : RoboEyes) (d : Animation2.distance) :
  engine_sequences self ->
  Animation2.dist r = Some d ->
  let zh := Animation2.cooldown (Animation2.ticks r) (Animation2.zone_of d) h in
  let s1 := snd (Animation2.events keys self) in
  let s2 := snd (Animation2.react (Animation2.ticks r)
                   (Animation2.wink_ticks r) (Animation2.confuse_ticks r)
                   (fst zh) s1) in
  snd (Animation2.iteration keys r e h self) = snd (update e s2)
  /\ (fst (update e s2) = Return tt ->
      fst (Animation2.iteration keys r e h self) = Return (snd zh)).
Proof.
  intros He Hd zh s1 s2.
  destruct (events2_keep keys self He) as (R1 & E1 & _). fold s1 in E1.
  pose proof (sensor_keeps r h s1 d E1 Hd) as S. cbv zeta in S.
  fold zh in S. fold s2 in S.
  unfold Animation2.iteration.
  rewrite (bind_returns _ _ tt self R1). fold s1.
  rewrite (bind_returns _ _ (snd zh) s1); [|rewrite S; reflexivity].
  rewrite S. cbn [snd]. split.
  - apply (bind_ret_snd (update e) (fun _ => snd zh)).
  - intros U. rewrite (bind_returns _ _ tt s2 U). reflexivity.
Qed.

(** X18.  The sensor decides the mood.  In an iteration with a reading of
    the distance the key presses return, the sensor block returns the new
    hysteresis state, and when the iteration ends (whether [update] returns
    or raises) the mood is the one of the zone acted on, whatever mood keys
    were pressed in that iteration: a mood key has no effect that outlasts
    the iteration. *)
Theorem sensor_decides_mood (keys : list (Animation2.Key * Z))
    (r : Animation2.Reading) (e : Tick) (h : Animation2.Hysteresis)
    (self : RoboEyes) (d : Animation2.distance) :
  engine_sequences self ->
  Animation2.dist r = Some d ->
  let zh := Animation2.cooldown (Animation2.ticks r) (Animation2.zone_of d) h in
  fst ((Animation2.events keys ;;; Animation2.sensor r h) self)
  = Return (snd zh)
  /\ _mood (after (Animation2.iteration keys r e h) self)
     = Animation2.zone_mood (fst zh).
Proof.
  intros He Hd zh.
  destruct (events2_keep keys self He) as (R1 & E1 & _).
  pose proof (sensor_keeps r h _ d E1 Hd) as S. cbv zeta in S. fold zh in S.
  destruct (iteration_after keys r e h self d He Hd) as [I _].
  split.
  - rewrite (bind_returns _ _ tt self R1), S. reflexivity.
  - unfold after. rewrite I.
    destruct (react_keeps (Animation2.ticks r) (Animation2.wink_ticks r)
                (Animation2.confuse_ticks r) (fst zh) _ E1)
      as (_ & E2 & _ & M2).
    fold zh. rewrite <- M2.
    apply (update_field _mood e _ E2); intros; reflexivity.
Qed.

Lemma confuse_at_once (t : Z) (s : RoboEyes) :
  wink_state (attrs (confuse t s)) = wink_state (attrs s)
  /\ confuse_state (attrs (confuse t s)) = (true, t, confused_duration s).
Proof. split; reflexivity. Qed.

Lemma animation_setup_inv (a0 a1 : Attrs) :
  animation_setup a1 = animation_setup a0 ->
  _cyclops a1 = _cyclops a0
  /\ wink_duration a1 = wink_duration a0
  /\ confused_duration a1 = confused_duration a0.
Proof. unfold animation_setup. intros H. injection H as -> -> ->. auto. Qed.

Lemma react_near_winks (now tw tc : Z) (s : RoboEyes) :
  _cyclops s = false ->
  (now / 1200) mod 2 = 0 ->
  let s' := snd (Animation2.react now tw tc Animation2.near s) in
  wink_state (attrs s') = (true, false, tw, wink_duration s)
  /\ confuse_state (attrs s') = (true, tc, confused_duration s).
Proof.
  intros Hc Hw. cbn [Animation2.react].
  rewrite (bind_returns (call (set_mood CURIOUS)) _ tt s eq_refl).
  change (snd (call (set_mood CURIOUS) s)) with (set_mood CURIOUS s).
  rewrite Hw. cbn [Z.eqb].
  set (s1 := set_mood CURIOUS s).
  assert (wink_left tw s1 = wink (Some true) (Some false) tw s1) as WL.
  { unfold wink_left. change (_cyclops s1) with (_cyclops s). rewrite Hc.
    reflexivity. }
  rewrite (bind_returns _ _ tt s1 (wink_left_returns tw s1)).
  rewrite WL. unfold call. cbn [snd].
  destruct (wink_at_once (Some true) (Some false) tw s1 eq_refl)
    as (_ & W & _).
  unfold after in W.
  destruct (confuse_at_once tc (snd (wink (Some true) (Some false) tw s1)))
    as [C1 C2].
  split.
  - rewrite C1. exact W.
  - rewrite C2.
    rewrite (wink_setup confused_duration (Some true) (Some false) tw s1
               (fun _ => eq_refl)).
    reflexivity.
Qed.

(** X19.  In the near zone a wink does not end.  While the zone acted on
    is near and the clock is in an even window of 1200 ms, every iteration
    calls [wink_left] and [confuse], which restart their timers: with two
    eyes, if [update] reads the clock no more than [wink_duration] after
    [wink_left] did and less than [confused_duration] after [confuse] did,
    the iteration ends with the left wink and the confuse animation still
    running, timed from this iteration. *)
Theorem near_zone_keeps_winking (keys : list (Animation2.Key * Z))
    (r : Animation2.Reading) (e : Tick) (h : Animation2.Hysteresis)
    (self : RoboEyes) (d : Animation2.distance) :
  engine_sequences self ->
  _cyclops self = false ->
  Animation2.dist r = Some d ->
  fst (Animation2.cooldown (Animation2.ticks r) (Animation2.zone_of d) h)
  = Animation2.near ->
  (Animation2.ticks r / 1200) mod 2 = 0 ->
  now e - Animation2.wink_ticks r <= wink_duration self ->
  now e - Animation2.confuse_ticks r < confused_duration self ->
  let s' := after (Animation2.iteration keys r e h) self in
  wink_state (attrs s')
  = (true, false, Animation2.wink_ticks r, wink_duration self)
  /\ confuse_state (attrs s')
     = (true, Animation2.confuse_ticks r, confused_duration self).
Proof.
  intros He Hc Hd Hz Hw Hwink Hconf.
  destruct (iteration_after keys r e h self d He Hd) as [I _].
  cbv zeta in I. rewrite Hz in I.
  unfold after. rewrite I. clear I.
  destruct (events2_keep keys self He) as (_ & E1 & K1).
  apply animation_setup_inv in K1 as (Kc & Kw & Kd).
  set (s1 := snd (Animation2.events keys self)) in *.
  rewrite Hc in Kc.
  destruct (react_near_winks (Animation2.ticks r) (Animation2.wink_ticks r)
              (Animation2.confuse_ticks r) s1 Kc Hw) as [W C].
  cbv zeta in W, C. rewrite Kw in W. rewrite Kd in C.
  destruct (react_keeps (Animation2.ticks r) (Animation2.wink_ticks r)
              (Animation2.confuse_ticks r) Animation2.near s1 E1)
    as (_ & E2 & _).
  set (s2 := snd (Animation2.react (Animation2.ticks r)
                    (Animation2.wink_ticks r) (Animation2.confuse_ticks r)
                    Animation2.near s1)) in *.
  destruct (wink_state_inv _ _ _ _ _ W) as (_ & _ & Wt & Wd).
  destruct (confuse_state_inv _ _ _ _ C) as (Cf & Ct & Cd).
  split.
  - rewrite <- W. apply (update_wink_state e s2 E2).
    rewrite Wt, Wd. exact Hwink.
  - rewrite <- C. apply (update_confuse_state e s2 E2 Cf).
    rewrite Ct, Cd. exact Hconf.
Qed.

Lemma key_presses_return_witness :
  let self := init 400 200 60 (10, 10, 15) (131, 238, 255) 0 0 in
  fst (Animation.events
         [(Animation.K_j, 100); (Animation.K_u, 110); (Animation.K_k, 120)]
         self) = Return tt
  /\ fst (Animation2.events
            [(Animation2.K_f, 100); (Animation2.K_k, 110)] self) = Return tt.
Proof.
  intros self.
  assert (engine_sequences self) as He by constructor.
  destruct (key_presses_return
              [(Animation.K_j, 100); (Animation.K_u, 110);
               (Animation.K_k, 120)]
              [(Animation2.K_f, 100); (Animation2.K_k, 110)] self He)
    as [(A & _) (B & _)].
  split; [exact A|exact B].
Defined.

Lemma sensor_decides_mood_witness :
  let self := init 400 200 60 (10, 10, 15) (131, 238, 255) 0 0 in
  let r := Animation2.BuildReading 2000 (Some (Animation2.Finite (20 # 1)))
             2000 2000 in
  let e := BuildTick 2001 2001 2001 0 0 0 0 in
  _mood (after (Animation2.iteration [(Animation2.K_a, 1990)] r e
                  Animation2.hysteresis0) self) = HAPPY.
Proof.
  intros self r e.
  assert (engine_sequences self) as He by constructor.
  destruct (sensor_decides_mood [(Animation2.K_a, 1990)] r e
              Animation2.hysteresis0 self (Animation2.Finite (20 # 1))
              He eq_refl) as [_ A].
  exact A.
Defined.

Lemma near_zone_keeps_winking_witness :
  let self := init 400 200 60 (10, 10, 15) (131, 238, 255) 0 0 in
  let r := Animation2.BuildReading 2400 (Some (Animation2.Finite (10 # 1)))
             2400 2400 in
  let e := BuildTick 2401 2401 2401 0 0 0 0 in
  wink_state (attrs (after (Animation2.iteration [] r e
                              Animation2.hysteresis0) self))
  = (true, false, 2400, 300).
Proof.
  intros self r e.
  assert (engine_sequences self) as He by constructor.
  destruct (near_zone_keeps_winking [] r e Animation2.hysteresis0 self
              (Animation2.Finite (10 # 1)) He eq_refl eq_refl eq_refl
              eq_refl) as [A _].
  - vm_compute. discriminate.
  - vm_compute. reflexivity.
  - exact A.
Defined.
(** ** The zones of the distance *)

(** X20.  The zones are the intervals between the thresholds.  A finite
    distance is near up to 15 cm, mid above 15 and up to 35, far above 35
    and up to 60, and away above 60; a reading that is not a number is
    away, as is positive infinity, and negative infinity is near. *)
Theorem zone_of_intervals (q : Q) :
  (Animation2.zone_of (Animation2.Finite q) = Animation2.near
   <-> (q <= 15 # 1)%Q)
  /\ (Animation2.zone_of (Animation2.Finite q) = Animation2.mid
      <-> (15 # 1 < q)%Q /\ (q <= 35 # 1)%Q)
  /\ (Animation2.zone_of (Animation2.Finite q) = Animation2.far
      <-> (35 # 1 < q)%Q /\ (q <= 60 # 1)%Q)
  /\ (Animation2.zone_of (Animation2.Finite q) = Animation2.away
      <-> (60 # 1 < q)%Q)
  /\ Animation2.zone_of Animation2.NaN = Animation2.away
  /\ Animation2.zone_of (Animation2.Infinite false) = Animation2.away
  /\ Animation2.zone_of (Animation2.Infinite true) = Animation2.near.
Proof.
  unfold Animation2.zone_of, Animation2.le_int, Animation2.NEAR_THRESHOLD,
    Animation2.MID_THRESHOLD, Animation2.FAR_THRESHOLD.
  change (inject_Z 15) with (15 # 1). change (inject_Z 35) with (35 # 1).
  change (inject_Z 60) with (60 # 1).
  assert (forall a b : Q, Qle_bool a b = false <-> (b < a)%Q) as F.
  { intros a b. rewrite <- not_true_iff_false, Qle_bool_iff.
    split; [apply Qnot_le_lt|apply Qlt_not_le]. }
  assert ((15 # 1 < 35 # 1)%Q) as L1 by reflexivity.
  assert ((35 # 1 < 60 # 1)%Q) as L2 by reflexivity.
  destruct (Qle_bool q (15 # 1)) eqn:E1;
    [apply Qle_bool_iff in E1|apply F in E1];
    (destruct (Qle_bool q (35 # 1)) eqn:E2;
      [apply Qle_bool_iff in E2|apply F in E2]);
    (destruct (Qle_bool q (60 # 1)) eqn:E3;
      [apply Qle_bool_iff in E3|apply F in E3]);
    repeat split; intros; try reflexivity; try discriminate; lra.
Qed.
(** * The mood cycle of the TFT demo *)

Lemma apply_mood_cycle_in_step {float : Type}
    (sub : float -> float -> float) (ge : float -> float -> bool)
    (five t1 t2 : float) (s : Tft.State float) :
  0 <= Tft.cycle_index s < 6 ->
  Tft.item (Tft.CYCLE five) (Tft.cycle_index s) = Some (Tft.mood s, five) ->
  exists s',
    Tft.apply_mood_cycle sub ge five t1 t2 s = Some s'
    /\ 0 <= Tft.cycle_index s' < 6
    /\ Tft.item (Tft.CYCLE five) (Tft.cycle_index s')
       = Some (Tft.mood s', five)
    /\ (s' = s
        \/ Tft.cycle_index s' = (Tft.cycle_index s + 1) mod 6
           /\ Tft.cycle_start s' = t2).
Proof.
  intros Hi Hm. unfold Tft.apply_mood_cycle. rewrite Hm.
  destruct (ge (sub t1 (Tft.cycle_start s)) five).
  - assert (Tft.cycle_index s = 0 \/ Tft.cycle_index s = 1
            \/ Tft.cycle_index s = 2 \/ Tft.cycle_index s = 3
            \/ Tft.cycle_index s = 4 \/ Tft.cycle_index s = 5)
      as [E|[E|[E|[E|[E|E]]]]] by lia;
      rewrite E; cbn; eexists; (split; [reflexivity|]); cbn;
      (split; [lia|]); (split; [reflexivity|]); right; split; reflexivity.
  - exists s. split; [reflexivity|]. split; [exact Hi|].
    split; [exact Hm|]. left. reflexivity.
Qed.

(** X21.  The mood cycle stays in step.  However long [main_loop] runs and
    whatever the clock reads, [apply_mood_cycle] never indexes [CYCLE] out
    of range, [cycle_index] stays between 0 and 5, and the mood of the eyes
    is the mood that [CYCLE] has at [cycle_index]: one of the six moods of
    the cycle, never [FROZEN] or [SCARY]. *)
Theorem mood_cycle_in_step {float : Type} (sub : float -> float -> float)
    (ge : float -> float -> bool) (five t0 : float)
    (ts : list (float * float)) :
  exists s,
    Tft.main_loop sub ge five ts (Tft.start t0) = Some s
    /\ 0 <= Tft.cycle_index s < 6
    /\ Tft.item (Tft.CYCLE five) (Tft.cycle_index s)
       = Some (Tft.mood s, five)
    /\ In (Tft.mood s) [DEFAULT; CURIOUS; HAPPY; SAD; TIRED; ANGRY].
Proof.
  assert (forall s0 : Tft.State float,
             0 <= Tft.cycle_index s0 < 6 ->
             Tft.item (Tft.CYCLE five) (Tft.cycle_index s0)
             = Some (Tft.mood s0, five) ->
             exists s,
               Tft.main_loop sub ge five ts s0 = Some s
               /\ 0 <= Tft.cycle_index s < 6
               /\ Tft.item (Tft.CYCLE five) (Tft.cycle_index s)
                  = Some (Tft.mood s, five)) as Run.
  { induction ts as [|[t1 t2] ts IH]; intros s0 Hi Hm.
    - exists s0. split; [reflexivity|]. split; assumption.
    - destruct (apply_mood_cycle_in_step sub ge five t1 t2 s0 Hi Hm)
        as (s1 & A & Hi1 & Hm1 & _).
      cbn [Tft.main_loop]. rewrite A. apply IH; assumption. }
  destruct (Run (Tft.start t0)) as (s & R & Hi & Hm).
  { cbn. lia. }
  { reflexivity. }
  exists s. split; [exact R|]. split; [exact Hi|]. split; [exact Hm|].
  assert (Tft.cycle_index s = 0 \/ Tft.cycle_index s = 1
          \/ Tft.cycle_index s = 2 \/ Tft.cycle_index s = 3
          \/ Tft.cycle_index s = 4 \/ Tft.cycle_index s = 5)
    as [E|[E|[E|[E|[E|E]]]]] by lia;
    rewrite E in Hm; cbn in Hm; injection Hm as <-; cbn; tauto.
Qed.
